(** * The streaming message pipeline of the chat client

    A shallow embedding of the three pieces of the pipeline:

    - the transport relay, [Relay.handler] (the API route [handler]);
    - the stream consumer, [StreamConsumer.handleSubmit] (the read loop of
      [handleSubmit] in [src/pages/index.tsx]);
    - the code-block extractor, [Extractor.renderMessage].

    The JavaScript built-ins the three functions call ([TextDecoder], [JSON],
    [String.prototype.split], regular expressions, ...) are modelled in
    [Module JS] to the extent the functions use them.

    The other handlers of the page are embedded as well: the request
    [handleSubmit] makes and [handleRecommendedQuestion] ([Page]), the
    side panel with [handleCodeBlockClick] and [closeSidePanel]
    ([SidePanel]), and the elements [renderMessage] returns, with their
    keys ([Elements]). *)

From Stdlib Require Import String Ascii List Bool Arith NArith ZArith Lia.
From Stdlib.Strings Require Byte.
From Stdlib Require Import Sorted.
Import ListNotations.

Set Implicit Arguments.

(** ** JavaScript strings and built-ins *)

Module JS.

(** A JavaScript string is a sequence of UTF-16 code units. *)
Definition jsstring := list N.

(** A [Uint8Array] is a sequence of bytes. *)
Definition bytes := list Byte.byte.

Definition byte_of_N (n : N) : Byte.byte :=
  match Byte.of_N n with Some b => b | None => Byte.x00 end.

Definition in_range (lo hi c : N) : bool := ((lo <=? c) && (c <=? hi))%N.

(** *** UTF-16 *)

Definition is_high_surrogate (c : N) : bool := in_range 0xD800 0xDBFF c.
Definition is_low_surrogate (c : N) : bool := in_range 0xDC00 0xDFFF c.
Definition is_surrogate (c : N) : bool := in_range 0xD800 0xDFFF c.

(** The code units of one code point: above U+FFFF, the ten high bits
    and the ten low bits of [cp - 0x10000] go into two surrogates. *)
Definition utf16 (cp : N) : jsstring :=
  if (cp <? 0x10000)%N then [cp]
  else let c := (cp - 0x10000)%N in
       [(0xD800 + c / 0x400)%N; (0xDC00 + c mod 0x400)%N].

Definition pair_surrogates (hi lo : N) : N :=
  (0x10000 + (hi - 0xD800) * 0x400 + (lo - 0xDC00))%N.

(** *** UTF-8 encoding, as done by [res.write(string)] on the server.
    A lone surrogate is written as U+FFFD. *)

(** The bytes of one code point: the code point is cut into groups of six
    bits, written here with quotients and remainders by 64. *)
Definition utf8_encode_cp (cp : N) : list N :=
  if (cp <? 0x80)%N then [cp]
  else if (cp <? 0x800)%N then
    [0xC0 + cp / 64; 0x80 + cp mod 64]%N
  else if (cp <? 0x10000)%N then
    [0xE0 + cp / 4096; 0x80 + (cp / 64) mod 64; 0x80 + cp mod 64]%N
  else
    [0xF0 + cp / 262144; 0x80 + (cp / 4096) mod 64;
     0x80 + (cp / 64) mod 64; 0x80 + cp mod 64]%N.

Fixpoint code_points (s : jsstring) : list N :=
  match s with
  | [] => []
  | c :: t =>
      match t with
      | d :: t' =>
          if is_high_surrogate c && is_low_surrogate d
          then pair_surrogates c d :: code_points t'
          else (if is_surrogate c then 0xFFFD%N else c) :: code_points t
      | [] => [if is_surrogate c then 0xFFFD%N else c]
      end
  end.

Definition utf8_encode (s : jsstring) : bytes :=
  map byte_of_N (flat_map utf8_encode_cp (code_points s)).

(** *** [new TextDecoder().decode(value)]

    The UTF-8 decoder of the Encoding standard, in its default error mode
    (replacement) and without the [stream] option: the decoder is flushed
    at the end of [value], so an incomplete sequence at the end of the input
    becomes U+FFFD.  The payload bits of a byte are taken by subtraction
    (a lead byte in C2..DF holds [b - 0xC0], a continuation byte
    [b - 0x80]), and a shift by six bits is a product by 64. *)

Inductive utf8_state : Type :=
| Utf8Start
| Utf8Cont (code_point : N) (bytes_needed : nat) (lower upper : N).

Definition utf8_lead (b : N) : utf8_state * list N :=
  if (b <=? 0x7F)%N then (Utf8Start, [b])
  else if in_range 0xC2 0xDF b then
    (Utf8Cont (b - 0xC0) 1 0x80 0xBF, [])
  else if in_range 0xE0 0xEF b then
    (Utf8Cont (b - 0xE0) 2
              (if (b =? 0xE0)%N then 0xA0 else 0x80)%N
              (if (b =? 0xED)%N then 0x9F else 0xBF)%N, [])
  else if in_range 0xF0 0xF4 b then
    (Utf8Cont (b - 0xF0) 3
              (if (b =? 0xF0)%N then 0x90 else 0x80)%N
              (if (b =? 0xF4)%N then 0x8F else 0xBF)%N, [])
  else (Utf8Start, [0xFFFD%N]).

Definition utf8_step (st : utf8_state) (b : N) : utf8_state * list N :=
  match st with
  | Utf8Start => utf8_lead b
  | Utf8Cont cp needed lo hi =>
      if in_range lo hi b then
        let cp' := (cp * 64 + (b - 0x80))%N in
        match needed with
        | S (S n) => (Utf8Cont cp' (S n) 0x80 0xBF, [])
        | _ => (Utf8Start, [cp'])
        end
      else
        (* the byte is put back and read again from the initial state *)
        let (st', out) := utf8_lead b in (st', 0xFFFD%N :: out)
  end.

Fixpoint utf8_run (st : utf8_state) (bs : bytes) : list N :=
  match bs with
  | [] => match st with Utf8Start => [] | Utf8Cont _ _ _ _ => [0xFFFD%N] end
  | b :: r =>
      let (st', out) := utf8_step st (Byte.to_N b) in out ++ utf8_run st' r
  end.

(** [ignoreBOM] is false by default: a leading U+FEFF is dropped. *)
Definition strip_bom (cps : list N) : list N :=
  match cps with
  | c :: r => if (c =? 0xFEFF)%N then r else cps
  | [] => []
  end.

Definition TextDecoder_decode (value : bytes) : jsstring :=
  flat_map utf16 (strip_bom (utf8_run Utf8Start value)).

(** String literals of the source files: the files are UTF-8. *)
Definition lit (s : string) : jsstring :=
  flat_map utf16 (utf8_run Utf8Start (list_byte_of_string s)).

Definition ch (a : ascii) : N := N_of_ascii a.

(** *** String primitives *)

Fixpoint str_eqb (a b : jsstring) : bool :=
  match a, b with
  | [], [] => true
  | x :: a', y :: b' => (x =? y)%N && str_eqb a' b'
  | _, _ => false
  end.

(** [s.startsWith(p)] *)
Fixpoint startsWith (p s : jsstring) : bool :=
  match p, s with
  | [], _ => true
  | x :: p', y :: s' => (x =? y)%N && startsWith p' s'
  | _ :: _, [] => false
  end.

(** [s.slice(from)] and [s.slice(from, to)] for [0 <= from], [0 <= to]. *)
Definition slice_from (from : nat) (s : jsstring) : jsstring := skipn from s.
Definition slice (from to : nat) (s : jsstring) : jsstring :=
  firstn (to - from) (skipn from s).

(** [s.split(sep)] for a non-empty separator: the occurrences of [sep] are
    taken from left to right and do not overlap. *)
Fixpoint split_go (fuel : nat) (sep cur s : jsstring) : list jsstring :=
  match fuel with
  | O => [rev cur ++ s]
  | S fuel' =>
      match s with
      | [] => [rev cur]
      | c :: s' =>
          if startsWith sep s
          then rev cur :: split_go fuel' sep [] (skipn (length sep) s)
          else split_go fuel' sep (c :: cur) s'
      end
  end.

Definition split (sep s : jsstring) : list jsstring :=
  split_go (length s) sep [] s.

(** White space and line terminators, as removed by [trim]. *)
Definition is_js_space (c : N) : bool :=
  in_range 0x09 0x0D c || (c =? 0x20)%N || (c =? 0xA0)%N || (c =? 0x1680)%N
  || in_range 0x2000 0x200A c || (c =? 0x2028)%N || (c =? 0x2029)%N
  || (c =? 0x202F)%N || (c =? 0x205F)%N || (c =? 0x3000)%N || (c =? 0xFEFF)%N.

Fixpoint trimStart (s : jsstring) : jsstring :=
  match s with
  | c :: s' => if is_js_space c then trimStart s' else s
  | [] => []
  end.

Definition trim (s : jsstring) : jsstring :=
  rev (trimStart (rev (trimStart s))).

(** *** JSON values

    A number keeps its literal: its value is the double nearest to it. *)

Local Unset Elimination Schemes.

Inductive json : Type :=
| JNull
| JBool (b : bool)
| JNumber (literal : jsstring)
| JString (s : jsstring)
| JArray (elements : list json)
| JObject (members : list (jsstring * json)).

Local Set Elimination Schemes.

(** *** [JSON.parse]: the lexical grammar *)

Inductive token : Type :=
| TLBrace | TRBrace | TLBracket | TRBracket | TComma | TColon
| TString (s : jsstring)
| TNumber (literal : jsstring)
| TTrue | TFalse | TNull.

(** States of the number grammar: an optional minus sign, an integer part
    without leading zeros, an optional fraction, an optional exponent. *)
Inductive num_state : Type :=
| NumMinus | NumZero | NumInt | NumDot | NumFrac | NumE | NumESign | NumExp.

Definition num_accepting (st : num_state) : bool :=
  match st with
  | NumZero | NumInt | NumFrac | NumExp => true
  | _ => false
  end.

Definition is_digit (c : N) : bool := in_range 48 57 c.
Definition is_exp_mark (c : N) : bool := ((c =? 101) || (c =? 69))%N.

Definition num_next (st : num_state) (c : N) : option num_state :=
  match st with
  | NumMinus =>
      if (c =? 48)%N then Some NumZero
      else if is_digit c then Some NumInt else None
  | NumZero =>
      if (c =? 46)%N then Some NumDot
      else if is_exp_mark c then Some NumE else None
  | NumInt =>
      if is_digit c then Some NumInt
      else if (c =? 46)%N then Some NumDot
      else if is_exp_mark c then Some NumE else None
  | NumDot => if is_digit c then Some NumFrac else None
  | NumFrac =>
      if is_digit c then Some NumFrac
      else if is_exp_mark c then Some NumE else None
  | NumE =>
      if ((c =? 43) || (c =? 45))%N then Some NumESign
      else if is_digit c then Some NumExp else None
  | NumESign => if is_digit c then Some NumExp else None
  | NumExp => if is_digit c then Some NumExp else None
  end.

Inductive lex_mode : Type :=
| LexDefault
| LexString (acc : jsstring)
| LexEscape (acc : jsstring)
| LexUnicode (acc : jsstring) (digits : nat) (value : N)
| LexNumber (st : num_state) (acc : jsstring)
| LexKeyword (tok : token) (rest : jsstring).

Definition is_json_ws (c : N) : bool :=
  ((c =? 0x09) || (c =? 0x0A) || (c =? 0x0D) || (c =? 0x20))%N.

Definition lex_default (c : N) : option (lex_mode * list token) :=
  if is_json_ws c then Some (LexDefault, [])
  else if (c =? 123)%N then Some (LexDefault, [TLBrace])
  else if (c =? 125)%N then Some (LexDefault, [TRBrace])
  else if (c =? 91)%N then Some (LexDefault, [TLBracket])
  else if (c =? 93)%N then Some (LexDefault, [TRBracket])
  else if (c =? 44)%N then Some (LexDefault, [TComma])
  else if (c =? 58)%N then Some (LexDefault, [TColon])
  else if (c =? 34)%N then Some (LexString [], [])
  else if (c =? 45)%N then Some (LexNumber NumMinus [c], [])
  else if (c =? 48)%N then Some (LexNumber NumZero [c], [])
  else if is_digit c then Some (LexNumber NumInt [c], [])
  else if (c =? 116)%N then Some (LexKeyword TTrue (lit "rue"), [])
  else if (c =? 102)%N then Some (LexKeyword TFalse (lit "alse"), [])
  else if (c =? 110)%N then Some (LexKeyword TNull (lit "ull"), [])
  else None.

Definition hex_value (c : N) : option N :=
  if is_digit c then Some (c - 48)%N
  else if in_range 97 102 c then Some (c - 87)%N
  else if in_range 65 70 c then Some (c - 55)%N
  else None.

Definition escape_value (c : N) : option N :=
  if (c =? 34)%N then Some 34%N
  else if (c =? 92)%N then Some 92%N
  else if (c =? 47)%N then Some 47%N
  else if (c =? 98)%N then Some 8%N
  else if (c =? 102)%N then Some 12%N
  else if (c =? 110)%N then Some 10%N
  else if (c =? 114)%N then Some 13%N
  else if (c =? 116)%N then Some 9%N
  else None.

Definition lex_step (m : lex_mode) (c : N) : option (lex_mode * list token) :=
  match m with
  | LexDefault => lex_default c
  | LexString acc =>
      if (c =? 34)%N then Some (LexDefault, [TString (rev acc)])
      else if (c =? 92)%N then Some (LexEscape acc, [])
      else if (c <? 0x20)%N then None
      else Some (LexString (c :: acc), [])
  | LexEscape acc =>
      if (c =? 117)%N then Some (LexUnicode acc 0 0%N, [])
      else match escape_value c with
           | Some x => Some (LexString (x :: acc), [])
           | None => None
           end
  | LexUnicode acc n v =>
      match hex_value c with
      | Some h =>
          let v' := (16 * v + h)%N in
          if (n =? 3)%nat then Some (LexString (v' :: acc), [])
          else Some (LexUnicode acc (S n) v', [])
      | None => None
      end
  | LexNumber st acc =>
      match num_next st c with
      | Some st' => Some (LexNumber st' (c :: acc), [])
      | None =>
          if num_accepting st then
            match lex_default c with
            | Some (m', toks) => Some (m', TNumber (rev acc) :: toks)
            | None => None
            end
          else None
      end
  | LexKeyword tok rest =>
      match rest with
      | x :: rest' =>
          if (c =? x)%N then
            match rest' with
            | [] => Some (LexDefault, [tok])
            | _ :: _ => Some (LexKeyword tok rest', [])
            end
          else None
      | [] => None
      end
  end.

Definition lex_eof (m : lex_mode) : option (list token) :=
  match m with
  | LexDefault => Some []
  | LexNumber st acc =>
      if num_accepting st then Some [TNumber (rev acc)] else None
  | _ => None
  end.

Fixpoint lex (m : lex_mode) (s : jsstring) : option (list token) :=
  match s with
  | [] => lex_eof m
  | c :: r =>
      match lex_step m c with
      | Some (m', toks) =>
          match lex m' r with
          | Some rest => Some (toks ++ rest)
          | None => None
          end
      | None => None
      end
  end.

(** *** [JSON.parse]: the syntactic grammar, with an explicit stack of the
    arrays and objects that are still open *)

Inductive frame : Type :=
| FArray (elements : list json)
| FObject (members : list (jsstring * json))
| FMember (members : list (jsstring * json)) (key : jsstring).

Inductive parse_mode : Type :=
| PValue          (* a value *)
| PValueOrEnd     (* just after "[": a value or "]" *)
| PKeyOrEnd       (* just after "{": a key or "}" *)
| PKey            (* after "," in an object: a key *)
| PColon          (* after a key: ":" *)
| PSep            (* after a value in an array or object: "," or the end *)
| PDone (v : json).

Definition parser_state : Type := (parse_mode * list frame)%type.

Definition push_value (v : json) (stack : list frame) : option parser_state :=
  match stack with
  | [] => Some (PDone v, [])
  | FArray es :: st => Some (PSep, FArray (v :: es) :: st)
  | FMember ms k :: st => Some (PSep, FObject ((k, v) :: ms) :: st)
  | FObject _ :: _ => None
  end.

Definition parse_value_token (t : token) (stack : list frame)
  : option parser_state :=
  match t with
  | TLBracket => Some (PValueOrEnd, FArray [] :: stack)
  | TLBrace => Some (PKeyOrEnd, FObject [] :: stack)
  | TString s => push_value (JString s) stack
  | TNumber l => push_value (JNumber l) stack
  | TTrue => push_value (JBool true) stack
  | TFalse => push_value (JBool false) stack
  | TNull => push_value JNull stack
  | _ => None
  end.

Definition parse_key_token (t : token) (stack : list frame)
  : option parser_state :=
  match t, stack with
  | TString k, FObject ms :: st => Some (PColon, FMember ms k :: st)
  | _, _ => None
  end.

Definition parse_close_array (stack : list frame) : option parser_state :=
  match stack with
  | FArray es :: st => push_value (JArray (rev es)) st
  | _ => None
  end.

Definition parse_close_object (stack : list frame) : option parser_state :=
  match stack with
  | FObject ms :: st => push_value (JObject (rev ms)) st
  | _ => None
  end.

Definition parse_step (ps : parser_state) (t : token) : option parser_state :=
  let (mode, stack) := ps in
  match mode with
  | PValue => parse_value_token t stack
  | PValueOrEnd =>
      match t with
      | TRBracket => parse_close_array stack
      | _ => parse_value_token t stack
      end
  | PKeyOrEnd =>
      match t with
      | TRBrace => parse_close_object stack
      | _ => parse_key_token t stack
      end
  | PKey => parse_key_token t stack
  | PColon => match t with TColon => Some (PValue, stack) | _ => None end
  | PSep =>
      match t, stack with
      | TComma, FArray _ :: _ => Some (PValue, stack)
      | TComma, FObject _ :: _ => Some (PKey, stack)
      | TRBracket, _ => parse_close_array stack
      | TRBrace, _ => parse_close_object stack
      | _, _ => None
      end
  | PDone _ => None
  end.

Fixpoint parse_tokens (ps : parser_state) (ts : list token) : option json :=
  match ts with
  | [] => match ps with (PDone v, _) => Some v | _ => None end
  | t :: r =>
      match parse_step ps t with
      | Some ps' => parse_tokens ps' r
      | None => None
      end
  end.

(** [JSON.parse(text)]; [None] stands for the [SyntaxError] it throws. *)
Definition JSON_parse (text : jsstring) : option json :=
  match lex LexDefault text with
  | Some ts => parse_tokens (PValue, []) ts
  | None => None
  end.

(** *** Property access on a parsed value

    [v.key] for a key that is no array index, not [length] and on no
    prototype (such as [content]); [None] is [undefined].  When a key is
    repeated in the text, the last member wins. *)

Fixpoint last_member (key : jsstring) (ms : list (jsstring * json))
  : option json :=
  match ms with
  | [] => None
  | (k, v) :: r =>
      match last_member key r with
      | Some v' => Some v'
      | None => if str_eqb k key then Some v else None
      end
  end.

Definition get_property (v : json) (key : jsstring) : option json :=
  match v with
  | JObject ms => last_member key ms
  | _ => None
  end.

Definition has_own_property (ms : list (jsstring * json)) (key : jsstring)
  : bool :=
  match last_member key ms with Some _ => true | None => false end.

(** *** [JSON.stringify] of a string *)

Definition hex_digit (n : N) : N :=
  if (n <? 10)%N then (48 + n)%N else (87 + n)%N.

Definition unicode_escape (c : N) : jsstring :=
  [92; 117;
   hex_digit ((c / 4096) mod 16); hex_digit ((c / 256) mod 16);
   hex_digit ((c / 16) mod 16); hex_digit (c mod 16)]%N.

Definition quote_unit (c : N) : jsstring :=
  if (c =? 8)%N then [92; 98]%N
  else if (c =? 9)%N then [92; 116]%N
  else if (c =? 10)%N then [92; 110]%N
  else if (c =? 12)%N then [92; 102]%N
  else if (c =? 13)%N then [92; 114]%N
  else if (c =? 34)%N then [92; 34]%N
  else if (c =? 92)%N then [92; 92]%N
  else if (c <? 0x20)%N || is_surrogate c then unicode_escape c
  else [c].

(** A surrogate pair is copied; a lone surrogate is escaped. *)
Fixpoint quote_units (s : jsstring) : jsstring :=
  match s with
  | [] => []
  | c :: t =>
      match t with
      | d :: t' =>
          if is_high_surrogate c && is_low_surrogate d
          then c :: d :: quote_units t'
          else quote_unit c ++ quote_units t
      | [] => quote_unit c
      end
  end.

Definition QuoteJSONString (s : jsstring) : jsstring :=
  [34%N] ++ quote_units s ++ [34%N].

(** *** Conversion to a string, as [+=] on a string does it *)

Section ToString.

(** [Number.prototype.toString] of the number a literal denotes: the
    shortest decimal form of a double, left abstract. *)
Variable Number_toString : jsstring -> jsstring.

(** [None] stands for the [TypeError] thrown when an object has a member
    named [toString], which hides [Object.prototype.toString] and cannot
    be called. *)
Fixpoint ToString (v : json) : option jsstring :=
  match v with
  | JNull => Some (lit "null")
  | JBool true => Some (lit "true")
  | JBool false => Some (lit "false")
  | JNumber l => Some (Number_toString l)
  | JString s => Some s
  | JArray l =>
      (* Array.prototype.join: null elements give the empty string *)
      (fix join (l : list json) : option jsstring :=
         match l with
         | [] => Some []
         | x :: r =>
             match (match x with JNull => Some [] | _ => ToString x end) with
             | Some sx =>
                 match r with
                 | [] => Some sx
                 | _ :: _ =>
                     match join r with
                     | Some sr => Some (sx ++ [44%N] ++ sr)
                     | None => None
                     end
                 end
             | None => None
             end
         end) l
  | JObject ms =>
      if has_own_property ms (lit "toString") then None
      else Some (lit "[object Object]")
  end.

(** [ToString] of a value that may be [undefined]. *)
Definition ToString_opt (v : option json) : option jsstring :=
  match v with
  | None => Some (lit "undefined")
  | Some v => ToString v
  end.

End ToString.

(** *** Regular expressions

    A backtracking matcher for the constructs the source uses, in
    continuation-passing style: the continuation is the rest of the
    pattern, and a quantifier tries its alternatives in the order the
    language prescribes (greedy: longest first; lazy: shortest first). *)

Inductive regex : Type :=
| REmpty
| RChar (c : N)
| RClass (p : N -> bool)
| RSeq (r1 r2 : regex)
| RGroup (n : nat) (r : regex)     (* ( r )  *)
| ROpt (r : regex)                 (* r?     *)
| RPlus (r : regex)                (* r+     *)
| RLazyStar (r : regex).           (* r*?    *)

(** The captures: the text of the groups that took part in the match. *)
Definition captures : Type := list (nat * jsstring).

Fixpoint capture (n : nat) (caps : captures) : option jsstring :=
  match caps with
  | [] => None
  | (m, s) :: r => if (m =? n)%nat then Some s else capture n r
  end.

Definition shorter (s' s : jsstring) : bool :=
  (List.length s' <? List.length s)%nat.

(** The iterations of a quantifier once its minimum is reached: an
    iteration that matches the empty string is refused. *)
Section Loops.

Variable A : Type.
Variable body :
  (jsstring -> captures -> option A) -> jsstring -> captures -> option A.
Variable k : jsstring -> captures -> option A.

(** Greedy: one more iteration first, the rest of the pattern if that
    fails. *)
Fixpoint greedy_loop (fuel : nat) (s : jsstring) (caps : captures)
  : option A :=
  match fuel with
  | O => k s caps
  | S fuel' =>
      match body (fun s' caps' =>
                    if shorter s' s then greedy_loop fuel' s' caps'
                    else None)
                 s caps with
      | Some a => Some a
      | None => k s caps
      end
  end.

(** Lazy: the rest of the pattern first, one more iteration if that
    fails. *)
Fixpoint lazy_loop (fuel : nat) (s : jsstring) (caps : captures)
  : option A :=
  match k s caps with
  | Some a => Some a
  | None =>
      match fuel with
      | O => None
      | S fuel' =>
          body (fun s' caps' =>
                  if shorter s' s then lazy_loop fuel' s' caps' else None)
               s caps
      end
  end.

End Loops.

Fixpoint rmatch (A : Type) (r : regex)
         (k : jsstring -> captures -> option A)
         (s : jsstring) (caps : captures) {struct r} : option A :=
  match r with
  | REmpty => k s caps
  | RChar c =>
      match s with
      | x :: s' => if (x =? c)%N then k s' caps else None
      | [] => None
      end
  | RClass p =>
      match s with
      | x :: s' => if p x then k s' caps else None
      | [] => None
      end
  | RSeq r1 r2 =>
      rmatch r1 (fun s' caps' => rmatch r2 k s' caps') s caps
  | RGroup n r' =>
      rmatch r'
        (fun s' caps' =>
           k s' ((n, firstn (List.length s - List.length s') s) :: caps'))
        s caps
  | ROpt r' =>
      match rmatch r'
              (fun s' caps' => if shorter s' s then k s' caps' else None)
              s caps with
      | Some a => Some a
      | None => k s caps
      end
  | RPlus r' =>
      rmatch r'
        (fun s' caps' =>
           greedy_loop (fun k' => rmatch r' k') k (List.length s') s' caps')
        s caps
  | RLazyStar r' =>
      lazy_loop (fun k' => rmatch r' k') k (List.length s) s caps
  end.

Fixpoint RSeqs (rs : list regex) : regex :=
  match rs with
  | [] => REmpty
  | [r] => r
  | r :: rs' => RSeq r (RSeqs rs')
  end.

(** The result of a successful [exec]: [match.index], [match[0]] and the
    groups. *)
Record match_result : Type := MatchResult {
  index : nat;
  matched : jsstring;
  groups : captures
}.

Definition match_here (r : regex) (s : jsstring) : option (nat * captures) :=
  rmatch r (fun s' caps => Some ((List.length s - List.length s')%nat, caps)) s [].

Fixpoint exec_scan (r : regex) (i : nat) (s : jsstring) : option match_result :=
  match match_here r s with
  | Some (len, caps) =>
      Some {| index := i; matched := firstn len s; groups := caps |}
  | None =>
      match s with
      | [] => None
      | _ :: s' => exec_scan r (S i) s'
      end
  end.

(** [regex.exec(str)] for a regular expression with the [g] flag whose
    [lastIndex] is [lastIndex]: the leftmost match that starts at
    [lastIndex] or later. *)
Definition exec (r : regex) (lastIndex : nat) (str : jsstring)
  : option match_result :=
  if (List.length str <? lastIndex)%nat then None
  else exec_scan r lastIndex (skipn lastIndex str).

(** The classes [\w] and [[\s\S]]. *)
Definition is_word (c : N) : bool :=
  in_range 97 122 c || in_range 65 90 c || in_range 48 57 c || (c =? 95)%N.

Definition any_unit (c : N) : bool := true.

(** *** Notions used to state properties of strings *)

(** Every element is a code unit. *)
Definition code_units (s : jsstring) : Prop :=
  Forall (fun c => (c < 0x10000)%N) s.

(** A Unicode scalar value: a code point that is no surrogate. *)
Definition is_scalar (cp : N) : bool :=
  (cp <? 0xD800)%N || ((0xE000 <=? cp) && (cp <? 0x110000))%N.

(** A string without lone surrogate. *)
Inductive well_formed : jsstring -> Prop :=
| wf_nil : well_formed []
| wf_unit : forall c s,
    (c < 0x10000)%N -> is_surrogate c = false -> well_formed s ->
    well_formed (c :: s)
| wf_pair : forall hi lo s,
    is_high_surrogate hi = true -> is_low_surrogate lo = true ->
    well_formed s -> well_formed (hi :: lo :: s).

(** Units from U+0020 on that are no surrogates. *)
Definition clean (s : jsstring) : Prop :=
  Forall (fun c => (0x20 <= c < 0xD800)%N) s.

(** The lexer run on the first part of a text: the mode it ends in and the
    tokens found. *)
Fixpoint lex_prefix (m : lex_mode) (p : jsstring)
  : option (lex_mode * list token) :=
  match p with
  | [] => Some (m, [])
  | c :: p' =>
      match lex_step m c with
      | Some (m', toks) =>
          match lex_prefix m' p' with
          | Some (m'', toks') => Some (m'', toks ++ toks')
          | None => None
          end
      | None => None
      end
  end.

End JS.

(** ** The transport relay: [handler] of the API route *)

Module Relay.
Import JS.

Definition systemPrompt : jsstring := lit "
你是一个专业的前端AI编程助手，专门帮助用户实现各种前端开发需求。你的主要特点包括：

1. 前端技术栈：
   - 精通 HTML5, CSS3, JavaScript (ES6+), 和 TypeScript
   - 专注于 React 生态系统，包括 Next.js, React Hooks, 和 React Context
   - 熟练使用 Tailwind CSS 进行快速样式开发

2. 代码生成和标记：
   - 生成代码时，请明确指出代码块的语言类型
   - 使用以下格式来标记代码块：
     ```language
     // 代码内容
     ```
   - 常用的语言标记包括：html, css, javascript, typescript, jsx, tsx

3. 问题解决和最佳实践：
   - 提供清晰、简洁、易于理解的代码解决方案
   - 遵循前端开发的最佳实践和设计模式
   - 注重代码的可读性、可维护性和可扩展性

4. 解释能力：
   - 在提供代码示例时，附带简洁的解释
   - 能够清晰地解释复杂的前端概念
   - 提供有关前端架构和组件设计的建议

5. Tailwind CSS 集成：
   - 优先使用 Tailwind CSS 类来实现样式，而不是编写原生 CSS
   - 展示如何有效地组合 Tailwind 类来实现复杂的布局和设计

6. 图表支持：
   - 使用 Mermaid 语法创建架构图、流程图、时序图等
   - 使用以下格式来标记 Mermaid 图表：
     ```mermaid
     // Mermaid 图表代码
     ```

7. 适应性：
   - 根据用户的技能水平调整回答的复杂度
   - 处理从简单到高级的各种前端开发任务

请根据用户的需求提供准确、有用的前端开发建议和代码示例。确保所有代码示例都使用适当的语言标记，并且优先考虑 React 和 Tailwind CSS 的实现。如果需要更多信息来更好地回答问题，请随时询问用户。
".

(** The request: [req.method] and [req.body.messages] ([None] when the
    body has no such member). *)
Record request : Type := Request {
  method : jsstring;
  body_messages : option json
}.

(** A chunk of the provider's stream, [chunk.choices[i].delta.content];
    the delta and its content may be missing. *)
Record Delta : Type := { delta_content : option jsstring }.
Record Choice : Type := { delta : option Delta }.
Record Chunk : Type := { choices : list Choice }.

(** What [openai.chat.completions.create] does with a request: it fails, or
    it gives a stream of chunks, which may itself fail after some chunks. *)
Inductive completion : Type :=
| CreateRejects (message : jsstring)
| CreateResolves (chunks : list Chunk) (failure : option jsstring).

(** The calls the handler makes on [res], on the provider and on the
    console, in order. *)
Inductive event : Type :=
| ResStatusJson (status : N) (message : jsstring)
    (* res.status(status).json({ message }) *)
| ResWriteHead (status : N) (headers : list (jsstring * jsstring))
| CompletionsCreate (model : jsstring) (messages : list json) (stream : bool)
| ResWrite (data : jsstring)
| ResEnd
| ConsoleError (message : jsstring).

Definition model_name : jsstring := lit "gpt-4o-2024-08-06".

Definition sse_headers : list (jsstring * jsstring) :=
  [(lit "Content-Type", lit "text/event-stream");
   (lit "Cache-Control", lit "no-cache, no-transform");
   (lit "Connection", lit "keep-alive")].

Definition system_message : json :=
  JObject [(lit "role", JString (lit "system"));
           (lit "content", JString systemPrompt)].

(** [msg && typeof msg.content === 'string' && msg.content.trim() !== ''].
    A number has no [content]: the test fails for it, be it 0 or not. *)
Definition ToBoolean_not_number (v : json) : bool :=
  match v with
  | JNull => false
  | JBool b => b
  | JNumber _ => false
  | JString s => negb (str_eqb s [])
  | JArray _ | JObject _ => true
  end.

Definition valid_message (msg : json) : bool :=
  ToBoolean_not_number msg &&
  match get_property msg (lit "content") with
  | Some (JString c) => negb (str_eqb (trim c) [])
  | _ => false
  end.

(** [chunk.choices[0]?.delta?.content]; [None] is [undefined] or [null]. *)
Definition first_delta_content (chunk : Chunk) : option jsstring :=
  match choices chunk with
  | [] => None
  | c :: _ =>
      match delta c with
      | None => None
      | Some d => delta_content d
      end
  end.

(** [chunk.choices[0]?.delta?.content || ''] *)
Definition chunk_content (chunk : Chunk) : jsstring :=
  match first_delta_content chunk with
  | Some (c :: text) => c :: text
  | _ => []
  end.

(** [JSON.stringify({ content })] *)
Definition stringify_content (content : jsstring) : jsstring :=
  [123; 34]%N ++ lit "content" ++ [34; 58]%N ++ QuoteJSONString content
  ++ [125%N].

(** [`data: ${JSON.stringify({ content })}\n\n`] *)
Definition sse_frame (content : jsstring) : jsstring :=
  lit "data: " ++ stringify_content content ++ [10; 10]%N.

Definition done_frame : jsstring := lit "data: [DONE]" ++ [10; 10]%N.

(** All that the relay writes for the fragments [texts], in one string;
    [finished] tells whether the sentinel frame was written. *)
Definition body_text (texts : list jsstring) (finished : bool) : jsstring :=
  concat (map sse_frame texts) ++ (if finished then done_frame else []).

Section Handler.

Variable provider : list json -> completion.

(** The [try] block: the calls it makes and the error it throws, if
    any. *)
Definition try_block (messages : option json)
  : list event * option jsstring :=
  match messages with
  | Some (JArray msgs) =>
      if (List.length msgs =? 0)%nat
      then ([], Some (lit "消息数组无效或为空"))
      else
        let validMessages := filter valid_message msgs in
        if (List.length validMessages =? 0)%nat
        then ([], Some (lit "没有有效的消息内容"))
        else
          let sent := system_message :: validMessages in
          let opened :=
            [ResWriteHead 200 sse_headers;
             CompletionsCreate model_name sent true] in
          match provider sent with
          | CreateRejects e => (opened, Some e)
          | CreateResolves chunks failure =>
              let writes :=
                map (fun chunk => ResWrite (sse_frame (chunk_content chunk)))
                    chunks in
              match failure with
              | Some e => (opened ++ writes, Some e)
              | None =>
                  (opened ++ writes ++ [ResWrite done_frame; ResEnd], None)
              end
          end
  | _ => ([], Some (lit "消息数组无效或为空"))
  end.

Definition handler (req : request) : list event :=
  if negb (str_eqb (method req) (lit "POST"))
  then [ResStatusJson 405 (lit "只允许POST请求")]
  else
    let (events, thrown) := try_block (body_messages req) in
    match thrown with
    | None => events
    | Some e =>
        events ++ [ConsoleError (lit "OpenAI API 错误:");
                   ResStatusJson 500 (lit "服务器错误: " ++ e)]
    end.

End Handler.

(** The requests made to the provider, and the frames written. *)
Fixpoint provider_calls (tr : list event) : list (list json) :=
  match tr with
  | [] => []
  | CompletionsCreate _ msgs _ :: r => msgs :: provider_calls r
  | _ :: r => provider_calls r
  end.

Fixpoint writes (tr : list event) : list jsstring :=
  match tr with
  | [] => []
  | ResWrite d :: r => d :: writes r
  | _ :: r => writes r
  end.

(** The request by which a client submits the conversation [msgs]: a POST
    whose body is [{ messages: msgs }]. *)
Definition post (msgs : list json) : request :=
  {| method := lit "POST"; body_messages := Some (JArray msgs) |}.

(** A message whose [content] is a string that is not blank. *)
Definition has_nonblank_content (msg : json) : Prop :=
  exists ms c, msg = JObject ms
               /\ last_member (lit "content") ms = Some (JString c)
               /\ trim c <> [].


End Relay.

(** ** The stream consumer: [handleSubmit] *)

Module StreamConsumer.
Import JS.

Inductive Role : Type := user | assistant.

Record Message : Type := { role : Role; content : jsstring }.

(** The React state of the page that [handleSubmit] reads and writes. *)
Record State : Type := {
  input : jsstring;
  messages : list Message;
  isTyping : bool;
  currentTypingMessage : jsstring
}.

(** The state of the read loop: the React state and the local variable
    [accumulatedContent]. *)
Record loop_state : Type := {
  ui : State;
  accumulatedContent : jsstring
}.

(** The results of the successive [reader.read()] calls; after the last
    one the reader reports [done]. *)
Inductive read : Type :=
| ReadValue (value : bytes)
| ReadRejects (message : jsstring).

Inductive fetch_outcome : Type :=
| FetchRejects (message : jsstring)
| FetchResolves (ok : bool) (body : option (list read)).

Inductive flow : Type := Normal | Break.

Definition setIsTyping (b : bool) (s : State) : State :=
  {| input := input s; messages := messages s; isTyping := b;
     currentTypingMessage := currentTypingMessage s |}.

Definition appendMessage (m : Message) (s : State) : State :=
  {| input := input s; messages := messages s ++ [m];
     isTyping := isTyping s;
     currentTypingMessage := currentTypingMessage s |}.

Definition setCurrentTypingMessage (t : jsstring) (s : State) : State :=
  {| input := input s; messages := messages s; isTyping := isTyping s;
     currentTypingMessage := t |}.

Definition setInput (t : jsstring) (s : State) : State :=
  {| input := t; messages := messages s; isTyping := isTyping s;
     currentTypingMessage := currentTypingMessage s |}.

Definition sentinel : jsstring := lit "[DONE]".
Definition data_prefix : jsstring := lit "data: ".
Definition frame_delimiter : jsstring := [10; 10]%N.

(** The branch taken on a frame with a content:
    [accumulatedContent += content; setCurrentTypingMessage(accumulatedContent)]. *)
Definition append_fragment (st : loop_state) (text : jsstring) : loop_state :=
  {| ui := setCurrentTypingMessage (accumulatedContent st ++ text) (ui st);
     accumulatedContent := accumulatedContent st ++ text |}.

(** The branch taken on the sentinel. *)
Definition finalize (st : loop_state) : loop_state :=
  {| ui := setCurrentTypingMessage []
             (appendMessage {| role := assistant;
                               content := accumulatedContent st |}
                            (setIsTyping false (ui st)));
     accumulatedContent := accumulatedContent st |}.

Section Consumer.

Variable Number_toString : jsstring -> jsstring.

(** [const { content } = JSON.parse(data); accumulatedContent += content]:
    the text appended, or [None] when one of the two statements throws
    (the text is no JSON, it is [null], or [content] has no string
    form). *)
Definition frame_text (data : jsstring) : option jsstring :=
  match JSON_parse data with
  | None => None
  | Some JNull => None
  | Some v => ToString_opt Number_toString (get_property v (lit "content"))
  end.

(** The body of [for (const line of lines)]. *)
Definition process_line (st : loop_state) (line : jsstring)
  : loop_state * flow :=
  if startsWith data_prefix line then
    let data := slice_from 6 line in
    if str_eqb data sentinel then (finalize st, Break)
    else
      match frame_text data with
      | Some text => (append_fragment st text, Normal)
      | None => (st, Normal)   (* caught and logged *)
      end
  else (st, Normal).

Fixpoint process_lines (st : loop_state) (lines : list jsstring)
  : loop_state :=
  match lines with
  | [] => st
  | line :: rest =>
      match process_line st line with
      | (st', Break) => st'
      | (st', Normal) => process_lines st' rest
      end
  end.

(** One turn of [while (true)] for a read that gives [value]. *)
Definition process_chunk (st : loop_state) (value : bytes) : loop_state :=
  process_lines st (split frame_delimiter (TextDecoder_decode value)).

(** The [while (true)] loop: the state when it ends and the error thrown
    by a read, if any. *)
Fixpoint read_loop (st : loop_state) (stream : list read)
  : loop_state * option jsstring :=
  match stream with
  | [] => (st, None)
  | ReadValue value :: rest => read_loop (process_chunk st value) rest
  | ReadRejects e :: _ => (st, Some e)
  end.

(** The messages sent to the relay. *)
Definition validMessages (ms : list Message) : list Message :=
  filter (fun msg => negb (str_eqb (content msg) [])
                     && negb (str_eqb (trim (content msg)) [])) ms.

Definition try_block (net : fetch_outcome) (s : State)
  : State * option jsstring :=
  match net with
  | FetchRejects e => (s, Some e)
  | FetchResolves ok body =>
      if negb ok then (s, Some (lit "网络响应不正常"))
      else
        match body with
        | None => (s, Some (lit "无法获取响应流"))
        | Some stream =>
            let (st, thrown) :=
              read_loop {| ui := s; accumulatedContent := [] |} stream in
            (ui st, thrown)
        end
  end.

Definition catch_block (e : jsstring) (s : State) : State :=
  appendMessage {| role := assistant; content := lit "错误: " ++ e |}
                (setIsTyping false s).

Definition handleSubmit (net : fetch_outcome) (s : State) : State :=
  if str_eqb (trim (input s)) [] then s
  else
    let newUserMessage := {| role := user; content := trim (input s) |} in
    let s1 := setIsTyping true (setInput [] (appendMessage newUserMessage s)) in
    (* the request body holds [validMessages (messages s ++ [newUserMessage])] *)
    let (s2, thrown) := try_block net s1 in
    match thrown with
    | None => s2
    | Some e => catch_block e s2
    end.

(** The line that carries the fragment [text]. *)
Definition content_line (text : jsstring) : jsstring :=
  data_prefix ++ Relay.stringify_content text.

(** The line that carries the sentinel. *)
Definition sentinel_line : jsstring := data_prefix ++ sentinel.

Definition count_sentinels (lines : list jsstring) : nat :=
  List.length (filter (fun l => str_eqb l sentinel_line) lines).


End Consumer.

(** A read that ends on a frame boundary: it is empty, or its last two
    bytes are the frame delimiter. *)
Definition ends_on_frame_boundary (value : bytes) : bool :=
  match rev value with
  | [] => true
  | a :: b :: _ => Byte.eqb a Byte.x0a && Byte.eqb b Byte.x0a
  | _ :: [] => false
  end.

Definition assistant_message (text : jsstring) : Message :=
  {| role := assistant; content := text |}.

(** The state in which the read loop starts after [input] was submitted
    in state [s]. *)
Definition submitted (s : State) : State :=
  setIsTyping true
    (setInput [] (appendMessage {| role := user; content := trim (input s) |} s)).

End StreamConsumer.

(** ** The code-block extractor: [renderMessage] *)

Module Extractor.
Import JS.

(** The parts [renderMessage] returns: a markdown element with its text, or
    a code-block preview with the language and content its click handler
    passes on. *)
Inductive segment : Type :=
| TextSpan (raw : jsstring)
| CodeBlockRef (language content : jsstring).

Definition backtick : N := 96%N.

(** [/```(\w+)?\n([\s\S]*?)```/g] *)
Definition codeBlockRegex : regex :=
  RSeqs [RChar backtick; RChar backtick; RChar backtick;
         ROpt (RGroup 1 (RPlus (RClass is_word)));
         RChar 10%N;
         RGroup 2 (RLazyStar (RClass any_unit));
         RChar backtick; RChar backtick; RChar backtick].

(** [match[1] || 'plaintext'] *)
Definition language_of (m : match_result) : jsstring :=
  match capture 1 (groups m) with
  | Some (c :: l) => c :: l
  | _ => lit "plaintext"
  end.

(** [match[2].trim()] *)
Definition code_of (m : match_result) : jsstring :=
  match capture 2 (groups m) with
  | Some body => trim body
  | None => []
  end.

(** The [while] loop; [reLastIndex] is [codeBlockRegex.lastIndex]. *)
Fixpoint render_loop (fuel : nat) (content : jsstring)
         (reLastIndex lastIndex : nat) (parts : list segment)
  : nat * list segment :=
  match fuel with
  | O => (lastIndex, parts)
  | S fuel' =>
      match exec codeBlockRegex reLastIndex content with
      | None => (lastIndex, parts)
      | Some m =>
          let parts1 :=
            if (lastIndex <? index m)%nat
            then parts ++ [TextSpan (slice lastIndex (index m) content)]
            else parts in
          let parts2 := parts1 ++ [CodeBlockRef (language_of m) (code_of m)] in
          let next := (index m + List.length (matched m))%nat in
          render_loop fuel' content next next parts2
      end
  end.

Definition renderMessage (content : jsstring) : list segment :=
  let (lastIndex, parts) :=
    render_loop (S (List.length content)) content 0 0 [] in
  if (lastIndex <? List.length content)%nat
  then parts ++ [TextSpan (slice_from lastIndex content)]
  else parts.

End Extractor.

(** ** Fenced blocks, described without the matcher

    The functions below say directly what [codeBlockRegex] matches; they
    are used to reason about the matcher and are proved equal to it. *)

Module Fences.
Import JS Extractor.

Definition fence : jsstring := [backtick; backtick; backtick].

(** The longest run of word characters at the head, and what follows. *)
Fixpoint word_run (s : jsstring) : jsstring :=
  match s with
  | c :: s' => if is_word c then c :: word_run s' else []
  | [] => []
  end.

Fixpoint after_word_run (s : jsstring) : jsstring :=
  match s with
  | c :: s' => if is_word c then after_word_run s' else s
  | [] => []
  end.

(** The position of the first fence. *)
Fixpoint find_fence (s : jsstring) : option nat :=
  if startsWith fence s then Some O
  else match s with
       | [] => None
       | _ :: s' => option_map S (find_fence s')
       end.

(** The first success of [k] on the suffixes of [s], longest first. *)
Fixpoint first_success (A : Type) (k : jsstring -> option A) (s : jsstring)
  : option A :=
  match k s with
  | Some a => Some a
  | None =>
      match s with
      | [] => None
      | _ :: s' => first_success k s'
      end
  end.

(** A fenced block at the head of [s]: an opening fence, the longest run
    of word characters, a line feed, and the text up to the first fence
    that follows. *)
Definition fence_match (s : jsstring) : option (nat * captures) :=
  if startsWith fence s then
    let s1 := skipn 3 s in
    let w := word_run s1 in
    match after_word_run s1 with
    | c :: s3 =>
        if (c =? 10)%N then
          match find_fence s3 with
          | Some n =>
              Some ((3 + List.length w + 1 + n + 3)%nat,
                    (2%nat, firstn n s3)
                      :: match w with [] => [] | _ :: _ => [(1%nat, w)] end)
          | None => None
          end
        else None
    | [] => None
    end
  else None.

(** A match found in a suffix, seen from the whole text. *)
Definition shift_match (i : nat) (m : match_result) : match_result :=
  {| index := i + index m; matched := matched m; groups := groups m |}.

(** The part pushed for a text: none when the text is empty. *)
Definition text_part (s : jsstring) : list segment :=
  match s with [] => [] | _ :: _ => [TextSpan s] end.

End Fences.

(** ** Sample inputs *)

Module Samples.
Import JS.

Definition conversation : list json :=
  [JObject [(lit "role", JString (lit "user")); (lit "content", JString (lit "hi"))];
   JObject [(lit "role", JString (lit "assistant")); (lit "content", JString (lit "  "))];
   JNull;
   JObject [(lit "role", JString (lit "user")); (lit "content", JString (lit " more "))]].

(** A frame and the sentinel in one read, then the same in a second
    read. *)
Definition stream_after_sentinel : list StreamConsumer.read :=
  [StreamConsumer.ReadValue
     (utf8_encode (Relay.sse_frame (lit "Hi") ++ Relay.done_frame));
   StreamConsumer.ReadValue
     (utf8_encode (Relay.sse_frame (lit "!") ++ Relay.done_frame))].


(** The two contents of the specification, and one with a complete block
    before an unterminated fence. *)
Definition fenced_content : jsstring :=
  lit "before ```js" ++ [10%N] ++ lit "code" ++ [10%N] ++ lit "``` after".

Definition unterminated_content : jsstring :=
  lit "before ```js" ++ [10%N] ++ lit "code".

Definition block_then_unterminated : jsstring :=
  lit "```a" ++ [10%N] ++ lit "b``` and ```js" ++ [10%N] ++ lit "code".

(** The state of the page when nothing was said yet, and the read loop
    that starts in it. *)
Definition blank_page : StreamConsumer.State :=
  {| StreamConsumer.input := [];
     StreamConsumer.messages := [];
     StreamConsumer.isTyping := true;
     StreamConsumer.currentTypingMessage := [] |}.

Definition loop_start : StreamConsumer.loop_state :=
  {| StreamConsumer.ui := blank_page;
     StreamConsumer.accumulatedContent := [] |}.

(** What the relay writes for the fragments [Hello], [ world], [!], and
    its bytes. *)
Definition hello_stream : jsstring :=
  Relay.sse_frame (lit "Hello") ++ Relay.sse_frame (lit " world")
  ++ Relay.sse_frame (lit "!") ++ Relay.done_frame.

Definition hello_bytes : bytes := utf8_encode hello_stream.

(** The offsets in [hello_bytes] at which a frame ends. *)
Definition hello_boundaries : list nat := [0; 27; 55; 78; 92]%nat.

(** Two reads that cut [hello_bytes] inside the first frame. *)
Definition hello_cut_reads : list bytes :=
  [firstn 10 hello_bytes; skipn 10 hello_bytes].

(** A provider stream with a fragment, a chunk without choices, a chunk
    whose delta has no content, and a last fragment. *)
Definition provider_chunks : list Relay.Chunk :=
  [ {| Relay.choices := [ {| Relay.delta := Some {| Relay.delta_content := Some (lit "Hi") |} |} ] |};
    {| Relay.choices := [] |};
    {| Relay.choices := [ {| Relay.delta := Some {| Relay.delta_content := None |} |} ] |};
    {| Relay.choices := [ {| Relay.delta := None |} ] |};
    {| Relay.choices := [ {| Relay.delta := Some {| Relay.delta_content := Some (lit "!") |} |} ] |} ].

(** What the relay writes for the fragment [é] (U+00E9, the bytes C3 A9),
    and the two reads that cut it between these two bytes. *)
Definition eacute_bytes : bytes :=
  utf8_encode (Relay.sse_frame [233%N] ++ Relay.done_frame).

Definition eacute_reads : list bytes :=
  [firstn 19 eacute_bytes; skipn 19 eacute_bytes].

End Samples.

(** ** The calls that close an exchange *)

Module RelayTrace.
Import JS Relay.


End RelayTrace.

(** ** The handlers of the page, as a render creates them *)

Module Page.
Import JS StreamConsumer.

(** [{ role: 'user', content: input.trim() }] *)
Definition newUserMessage (seen : State) : Message :=
  {| role := user; content := trim (input seen) |}.

(** The [messages] of the body of the request [handleSubmit] makes, or
    [None] when it returns before the request. *)
Definition request_messages (seen : State) : option (list Message) :=
  if str_eqb (trim (input seen)) [] then None
  else Some (validMessages (messages seen ++ [newUserMessage seen])).

Section Handlers.

Variable Number_toString : jsstring -> jsstring.

(** [handleSubmit] as the render that saw the state [seen] creates it: the
    function reads the [input] and the [messages] of that render, while
    its updates ([setInput(..)], [setMessages(prev => ..)], ...) apply to
    the current state [s]. *)
Definition handleSubmit_of (seen : State) (net : fetch_outcome) (s : State)
  : State :=
  if str_eqb (trim (input seen)) [] then s
  else
    let s1 := setIsTyping true
                (setInput [] (appendMessage (newUserMessage seen) s)) in
    let (s2, thrown) := try_block Number_toString net s1 in
    match thrown with
    | None => s2
    | Some e => catch_block e s2
    end.

(** [setInput(question); handleSubmit(new Event('submit'))] *)
Definition handleRecommendedQuestion (question : jsstring)
           (net : fetch_outcome) (s : State) : State :=
  handleSubmit_of s net (setInput question s).

End Handlers.

(** [JSON.stringify({ messages: validMessages })], and the value the
    relay finds in [req.body.messages] once the body is parsed. *)
Definition role_name (r : Role) : jsstring :=
  match r with
  | user => lit "user"
  | assistant => lit "assistant"
  end.

Definition message_json (m : Message) : json :=
  JObject [(lit "role", JString (role_name (role m)));
           (lit "content", JString (content m))].

Definition stringify_message (m : Message) : jsstring :=
  [123%N] ++ QuoteJSONString (lit "role") ++ [58%N]
  ++ QuoteJSONString (role_name (role m)) ++ [44%N]
  ++ QuoteJSONString (lit "content") ++ [58%N]
  ++ QuoteJSONString (content m) ++ [125%N].

Fixpoint join_comma (l : list jsstring) : jsstring :=
  match l with
  | [] => []
  | x :: r =>
      match r with
      | [] => x
      | _ :: _ => x ++ [44%N] ++ join_comma r
      end
  end.

Definition stringify_request (ms : list Message) : jsstring :=
  [123%N] ++ QuoteJSONString (lit "messages") ++ [58; 91]%N
  ++ join_comma (map stringify_message ms) ++ [93; 125]%N.

(** The tokens of a message and of a list of messages in that text. *)
Definition message_tokens (m : Message) : list token :=
  [TLBrace; TString (lit "role"); TColon; TString (role_name (role m));
   TComma; TString (lit "content"); TColon; TString (content m); TRBrace].

Fixpoint messages_tokens (ms : list Message) : list token :=
  match ms with
  | [] => []
  | m :: r =>
      match r with
      | [] => message_tokens m
      | _ :: _ => message_tokens m ++ [TComma] ++ messages_tokens r
      end
  end.

(** The chat container: a bubble for each message of the history, and a
    typing bubble while [isTyping] holds; the recommended questions are
    shown while the history is empty. *)
Inductive bubble : Type :=
| MessageBubble (r : Role) (parts : list Extractor.segment)
| TypingBubble (parts : list Extractor.segment).

Definition chat_container (s : State) : list bubble :=
  map (fun msg => MessageBubble (role msg)
                                (Extractor.renderMessage (content msg)))
      (messages s)
  ++ (if isTyping s
      then [TypingBubble (Extractor.renderMessage (currentTypingMessage s))]
      else []).

Definition shows_recommended_questions (s : State) : bool :=
  (List.length (messages s) =? 0)%nat.

End Page.

(** ** The side panel *)

Module SidePanel.
Import JS.

(** The [sidePanel] state. *)
Record Panel : Type := {
  isOpen : bool;
  content : jsstring;
  isMermaid : bool;
  isHtml : bool
}.

(** The part of the React state that the side panel uses. *)
Record PanelState : Type := {
  sidePanel : Panel;
  showMermaidSource : bool;
  activeTab : jsstring
}.

Definition closed : Panel :=
  {| isOpen := false; content := []; isMermaid := false; isHtml := false |}.

(** The initial values given to [useState]. *)
Definition initial : PanelState :=
  {| sidePanel := closed;
     showMermaidSource := false;
     activeTab := lit "rendered" |}.

Definition handleCodeBlockClick (content language : jsstring) (p : PanelState)
  : PanelState :=
  let isMermaid := str_eqb language (lit "mermaid") in
  let isHtml := str_eqb language (lit "html") in
  {| sidePanel := {| isOpen := true; content := content;
                     isMermaid := isMermaid; isHtml := isHtml |};
     showMermaidSource := showMermaidSource p;
     activeTab := lit "rendered" |}.

Definition closeSidePanel (p : PanelState) : PanelState :=
  {| sidePanel := closed;
     showMermaidSource := showMermaidSource p;
     activeTab := activeTab p |}.

Definition toggleMermaidView (p : PanelState) : PanelState :=
  {| sidePanel := sidePanel p;
     showMermaidSource := negb (showMermaidSource p);
     activeTab := activeTab p |}.

(** [onValueChange={setActiveTab}] of the tabs. *)
Definition setActiveTab (value : jsstring) (p : PanelState) : PanelState :=
  {| sidePanel := sidePanel p;
     showMermaidSource := showMermaidSource p;
     activeTab := value |}.

(** What can be done to the panel. *)
Inductive action : Type :=
| Click (content language : jsstring)
| Close
| Toggle
| SelectTab (value : jsstring).

Definition act (p : PanelState) (a : action) : PanelState :=
  match a with
  | Click content language => handleCodeBlockClick content language p
  | Close => closeSidePanel p
  | Toggle => toggleMermaidView p
  | SelectTab value => setActiveTab value p
  end.

(** The elements of the panel. *)
Inductive rendered_tab : Type :=
| MermaidRenderer (content : jsstring)
| SafeHtml (html : jsstring)
| Nothing.                       (* null *)

Inductive panel_content : Type :=
| Tabbed (value : jsstring) (rendered : rendered_tab) (source : jsstring)
| SourceOnly (code : jsstring).

Record panel_view : Type := {
  tab_list : option jsstring;    (* the tabs of the header and their value *)
  body : panel_content
}.

(** [{sidePanel.isOpen && ( ... )}] *)
Definition side_panel (p : PanelState) : option panel_view :=
  let sp := sidePanel p in
  if isOpen sp then
    Some {| tab_list := if isMermaid sp || isHtml sp
                        then Some (activeTab p) else None;
            body := if isMermaid sp || isHtml sp
                    then Tabbed (activeTab p)
                           (if isMermaid sp then MermaidRenderer (content sp)
                            else if isHtml sp then SafeHtml (content sp)
                            else Nothing)
                           (content sp)
                    else SourceOnly (content sp) |}
  else None.

(** The text of the preview of a code block. *)
Definition preview_label (language : jsstring) : jsstring :=
  lit "点击查看"
  ++ (if str_eqb language (lit "mermaid") then lit "图表"
      else if str_eqb language (lit "html") then lit "HTML"
      else lit "代码")
  ++ lit " (" ++ language ++ lit ")".

(** The two flags are not both set, and a closed panel holds nothing. *)
Definition consistent (p : PanelState) : Prop :=
  isMermaid (sidePanel p) && isHtml (sidePanel p) = false
  /\ (isOpen (sidePanel p) = false -> sidePanel p = closed).

End SidePanel.

(** ** The side panel of the earlier page, with its toggle button *)

Module TogglePanel.
Import JS.

(** The part of the React state that this panel uses; the [sidePanel]
    state is the same record. *)
Record PanelState : Type := {
  sidePanel : SidePanel.Panel;
  showMermaidSource : bool
}.

Definition initial : PanelState :=
  {| sidePanel := SidePanel.closed; showMermaidSource := false |}.

Definition handleCodeBlockClick (content language : jsstring) (p : PanelState)
  : PanelState :=
  let isMermaid := str_eqb language (lit "mermaid") in
  let isHtml := str_eqb language (lit "html") in
  {| sidePanel := {| SidePanel.isOpen := true; SidePanel.content := content;
                     SidePanel.isMermaid := isMermaid;
                     SidePanel.isHtml := isHtml |};
     showMermaidSource := false |}.

Definition closeSidePanel (p : PanelState) : PanelState :=
  {| sidePanel := SidePanel.closed;
     showMermaidSource := showMermaidSource p |}.

Definition toggleMermaidView (p : PanelState) : PanelState :=
  {| sidePanel := sidePanel p;
     showMermaidSource := negb (showMermaidSource p) |}.

Inductive action : Type :=
| Click (content language : jsstring)
| Close
| Toggle.

Definition act (p : PanelState) (a : action) : PanelState :=
  match a with
  | Click content language => handleCodeBlockClick content language p
  | Close => closeSidePanel p
  | Toggle => toggleMermaidView p
  end.

(** The elements of the panel: the text of the toggle button, if it is
    shown, and the content. *)
Inductive panel_content : Type :=
| MermaidRenderer (content : jsstring)
| SafeHtml (html : jsstring)
| Source (code : jsstring).

Record panel_view : Type := {
  toggle_button : option jsstring;
  body : panel_content
}.

Definition side_panel (p : PanelState) : option panel_view :=
  let sp := sidePanel p in
  if SidePanel.isOpen sp then
    Some {| toggle_button :=
              if SidePanel.isMermaid sp || SidePanel.isHtml sp
              then Some (if showMermaidSource p
                         then lit "查看渲染结果" else lit "查看源码")
              else None;
            body :=
              if SidePanel.isMermaid sp && negb (showMermaidSource p)
              then MermaidRenderer (SidePanel.content sp)
              else if SidePanel.isHtml sp && negb (showMermaidSource p)
              then SafeHtml (SidePanel.content sp)
              else Source (SidePanel.content sp) |}
  else None.

Definition consistent (p : PanelState) : Prop :=
  SidePanel.isMermaid (sidePanel p) && SidePanel.isHtml (sidePanel p) = false
  /\ (SidePanel.isOpen (sidePanel p) = false -> sidePanel p = SidePanel.closed).

End TogglePanel.

(** ** The elements of a message, with their keys *)

Module Elements.
Import JS Extractor.

Inductive element : Type :=
| ReactMarkdown (key : nat) (children : jsstring)
| CodeBlockPreview (key : nat) (label : jsstring)
                   (codeContent language : jsstring).
    (* the last two are the arguments of the click handler *)

Fixpoint render_loop (fuel : nat) (content : jsstring)
         (reLastIndex lastIndex : nat) (parts : list element)
  : nat * list element :=
  match fuel with
  | O => (lastIndex, parts)
  | S fuel' =>
      match exec codeBlockRegex reLastIndex content with
      | None => (lastIndex, parts)
      | Some m =>
          let parts1 :=
            if (lastIndex <? index m)%nat
            then parts ++ [ReactMarkdown lastIndex
                             (slice lastIndex (index m) content)]
            else parts in
          let language := language_of m in
          let codeContent := code_of m in
          let parts2 :=
            parts1 ++ [CodeBlockPreview (index m)
                         (SidePanel.preview_label language)
                         codeContent language] in
          let next := (index m + List.length (matched m))%nat in
          render_loop fuel' content next next parts2
      end
  end.

Definition renderMessage (content : jsstring) : list element :=
  let (lastIndex, parts) :=
    render_loop (S (List.length content)) content 0 0 [] in
  if (lastIndex <? List.length content)%nat
  then parts ++ [ReactMarkdown lastIndex (slice_from lastIndex content)]
  else parts.

Definition key_of (e : element) : nat :=
  match e with
  | ReactMarkdown key _ => key
  | CodeBlockPreview key _ _ _ => key
  end.

Definition segment_of (e : element) : segment :=
  match e with
  | ReactMarkdown _ children => TextSpan children
  | CodeBlockPreview _ _ codeContent language =>
      CodeBlockRef language codeContent
  end.

End Elements.

(** ** Shapes of contents and of lists of segments *)

Module Shapes.
Import JS Extractor Fences.

(** No two text spans follow each other. *)
Fixpoint separated (l : list segment) : bool :=
  match l with
  | [] => true
  | x :: r =>
      match x, r with
      | TextSpan _, TextSpan _ :: _ => false
      | _, _ => separated r
      end
  end.

(** The segments that more text cannot change: all but a last text
    span. *)
Fixpoint settled (l : list segment) : list segment :=
  match l with
  | [] => []
  | x :: r =>
      match x, r with
      | TextSpan _, [] => []
      | _, _ => x :: settled r
      end
  end.

(** A fence at the offset [d]. *)
Definition fence_at (d : nat) (s : jsstring) : Prop :=
  startsWith fence (skipn d s) = true.

(** The place of an element in the content: its key is the offset of the
    text it shows, or of the fenced block it stands for. *)
Definition located (content : jsstring) (e : Elements.element) : Prop :=
  match e with
  | Elements.ReactMarkdown key children =>
      children <> []
      /\ firstn (List.length children) (skipn key content) = children
  | Elements.CodeBlockPreview key label codeContent language =>
      exists tag body rest,
        skipn key content = (fence ++ tag ++ 10%N :: body ++ fence) ++ rest
        /\ Forall (fun c => is_word c = true) tag
        /\ language = match tag with [] => lit "plaintext" | _ :: _ => tag end
        /\ codeContent = trim body
        /\ label = SidePanel.preview_label language
  end.

End Shapes.

(** * Properties *)

(** ** Facts about the built-ins *)

Module JSFacts.
Import JS.

Lemma str_eqb_refl (a : jsstring) : str_eqb a a = true.
Proof.
  induction a as [|x a IH]; simpl; [reflexivity|].
  now rewrite N.eqb_refl, IH.
Qed.

Lemma str_eqb_eq (a b : jsstring) : str_eqb a b = true <-> a = b.
Proof.
  split.
  - revert b; induction a as [|x a IH]; intros [|y b]; simpl; try discriminate.
    + reflexivity.
    + intros H. apply andb_true_iff in H as [Hx Hab].
      apply N.eqb_eq in Hx. subst. f_equal. now apply IH.
  - intros ->. apply str_eqb_refl.
Qed.

Lemma str_eqb_neq (a b : jsstring) : a <> b -> str_eqb a b = false.
Proof.
  intros H. destruct (str_eqb a b) eqn:E; [|reflexivity].
  now apply str_eqb_eq in E.
Qed.

Lemma startsWith_app (p s : jsstring) : startsWith p (p ++ s) = true.
Proof.
  induction p as [|x p IH]; simpl; [reflexivity|].
  now rewrite N.eqb_refl, IH.
Qed.

Lemma startsWith_inv (p s : jsstring) :
  startsWith p s = true -> exists t, s = p ++ t.
Proof.
  revert s; induction p as [|x p IH]; intros s H; simpl in *.
  - now exists s.
  - destruct s as [|y s]; [discriminate|].
    apply andb_true_iff in H as [Hx Hp]. apply N.eqb_eq in Hx. subst.
    destruct (IH _ Hp) as [t ->]. now exists t.
Qed.

End JSFacts.

(** ** The transport relay *)

Module RelayFacts.
Import JS Relay JSFacts.

Lemma provider_calls_app (a b : list event) :
  provider_calls (a ++ b) = provider_calls a ++ provider_calls b.
Proof.
  induction a as [|e a IH]; simpl; [reflexivity|].
  destruct e; simpl; now rewrite ?IH.
Qed.

Lemma writes_app (a b : list event) : writes (a ++ b) = writes a ++ writes b.
Proof.
  induction a as [|e a IH]; simpl; [reflexivity|].
  destruct e; simpl; now rewrite ?IH.
Qed.

Lemma provider_calls_writes (f : Chunk -> jsstring) (chunks : list Chunk) :
  provider_calls (map (fun c => ResWrite (f c)) chunks) = [].
Proof. induction chunks; simpl; auto. Qed.

Lemma writes_map (f : Chunk -> jsstring) (chunks : list Chunk) :
  writes (map (fun c => ResWrite (f c)) chunks) = map f chunks.
Proof. induction chunks; simpl; congruence. Qed.

(** A message passes the filter exactly when it is an object whose
    [content] is a string with a character that is no white space. *)
Lemma valid_message_spec (msg : json) :
  valid_message msg = true <->
  exists ms c, msg = JObject ms
               /\ last_member (lit "content") ms = Some (JString c)
               /\ trim c <> [].
Proof.
  unfold valid_message. split.
  - intros H. apply andb_true_iff in H as [_ H].
    destruct msg as [| | | | |ms]; simpl in H; try discriminate.
    destruct (last_member (lit "content") ms) as [[| | |c| |]|] eqn:E;
      try discriminate.
    exists ms, c. repeat split; auto.
    intros Hc. rewrite Hc in H. discriminate.
  - intros (ms & c & -> & E & Hc). simpl. rewrite E.
    now rewrite str_eqb_neq.
Qed.


Lemma length_eqb_0 (A : Type) (l : list A) :
  (List.length l =? 0)%nat = match l with [] => true | _ => false end.
Proof. destruct l; reflexivity. Qed.

Section WithProvider.

Variable provider : list json -> completion.

(** The handler on a POST request whose conversation passes the
    validation. *)
Lemma handler_accepts (req : request) (msgs : list json) :
  method req = lit "POST" ->
  body_messages req = Some (JArray msgs) ->
  filter valid_message msgs <> [] ->
  let sent := system_message :: filter valid_message msgs in
  handler provider req =
  [ResWriteHead 200 sse_headers; CompletionsCreate model_name sent true]
  ++ match provider sent with
     | CreateRejects e =>
         [ConsoleError (lit "OpenAI API 错误:");
          ResStatusJson 500 (lit "服务器错误: " ++ e)]
     | CreateResolves chunks failure =>
         map (fun chunk => ResWrite (sse_frame (chunk_content chunk))) chunks
         ++ match failure with
            | None => [ResWrite done_frame; ResEnd]
            | Some e =>
                [ConsoleError (lit "OpenAI API 错误:");
                 ResStatusJson 500 (lit "服务器错误: " ++ e)]
            end
     end.
Proof.
  intros Hm Hb Hv sent. unfold handler, try_block.
  rewrite Hm, Hb, str_eqb_refl. cbn [negb].
  rewrite !length_eqb_0.
  destruct msgs as [|m msgs]; [now elim Hv|].
  fold sent.
  destruct (filter valid_message (m :: msgs)) as [|v vs] eqn:Ef;
    [now elim Hv|].
  destruct (provider sent) as [e|chunks [e|]]; cbn [app];
    rewrite <- ?app_assoc; reflexivity.
Qed.


End WithProvider.

End RelayFacts.

(** ** Claims about the transport relay *)

Module RelayClaims.
Import JS Relay JSFacts RelayFacts.

Lemma has_nonblank_content_iff (msg : json) :
  has_nonblank_content msg <-> valid_message msg = true.
Proof. symmetry. apply valid_message_spec. Qed.


(** C5. For every non-empty conversation with at least one message whose
    content is a non-blank string, the relay, given the conversation, makes
    one request to the provider, and its messages are the fixed system
    instruction followed by the messages of the conversation whose content
    is a non-blank string, in their original order, and nothing else. *)
Theorem relay_forwards_filtered_conversation :
  forall (provider : list json -> completion) (msgs : list json),
    (exists m, In m msgs /\ has_nonblank_content m) ->
    provider_calls (handler provider (post msgs))
    = [system_message :: filter valid_message msgs]
    /\ (forall m, In m (filter valid_message msgs)
                  <-> In m msgs /\ has_nonblank_content m).
Proof.
  intros provider msgs (m & Hin & Hc). split.
  - rewrite (@handler_accepts provider (post msgs) msgs eq_refl eq_refl).
    + cbn [app provider_calls]. f_equal.
      destruct (provider _) as [e|chunks [e|]]; cbn [provider_calls];
        rewrite ?provider_calls_app, ?provider_calls_writes; reflexivity.
    + intros Hnil. apply has_nonblank_content_iff in Hc.
      assert (Hf : In m (filter valid_message msgs))
        by (apply filter_In; auto).
      rewrite Hnil in Hf. exact Hf.
  - intros x. rewrite filter_In. now rewrite has_nonblank_content_iff.
Qed.

Lemma relay_forwards_filtered_conversation_witness :
  provider_calls
    (handler (fun _ => CreateResolves [] None) (post Samples.conversation))
  = [system_message :: filter valid_message Samples.conversation].
Proof.
  refine (proj1 (@relay_forwards_filtered_conversation
                   (fun _ => CreateResolves [] None) Samples.conversation _)).
  exists (JObject [(lit "role", JString (lit "user"));
                   (lit "content", JString (lit "hi"))]).
  split; [now left|].
  eexists _, (lit "hi"). split; [reflexivity|].
  split; [reflexivity | discriminate].
Defined.




End RelayClaims.

(** ** The stream consumer *)

Module ConsumerFacts.
Import JS StreamConsumer JSFacts.

Lemma data_prefix_eq : data_prefix = [100; 97; 116; 97; 58; 32]%N.
Proof. reflexivity. Qed.

Section WithNumbers.

Variable nts : jsstring -> jsstring.

(** A line that starts with the prefix: the three branches. *)
Lemma process_line_data (st : loop_state) (data : jsstring) :
  process_line nts st (data_prefix ++ data) =
  if str_eqb data sentinel then (finalize st, Break)
  else match frame_text nts data with
       | Some text => (append_fragment st text, Normal)
       | None => (st, Normal)
       end.
Proof.
  unfold process_line. rewrite startsWith_app.
  replace (slice_from 6 (data_prefix ++ data)) with data; [reflexivity|].
  rewrite data_prefix_eq. reflexivity.
Qed.

Lemma process_line_other (st : loop_state) (line : jsstring) :
  startsWith data_prefix line = false ->
  process_line nts st line = (st, Normal).
Proof. intros H. unfold process_line. now rewrite H. Qed.

Lemma process_line_sentinel (st : loop_state) :
  process_line nts st sentinel_line = (finalize st, Break).
Proof.
  unfold sentinel_line. rewrite process_line_data.
  now rewrite str_eqb_refl.
Qed.

(** The line is the sentinel line exactly when the sentinel branch is
    taken. *)
Lemma sentinel_line_test (line : jsstring) :
  (startsWith data_prefix line && str_eqb (slice_from 6 line) sentinel)%bool
  = str_eqb line sentinel_line.
Proof.
  destruct (startsWith data_prefix line) eqn:Hp; cbn [andb].
  - apply startsWith_inv in Hp as [data ->].
    replace (slice_from 6 (data_prefix ++ data)) with data
      by (rewrite data_prefix_eq; reflexivity).
    unfold sentinel_line.
    destruct (str_eqb data sentinel) eqn:E.
    + apply str_eqb_eq in E. subst. now rewrite str_eqb_refl.
    + symmetry. apply str_eqb_neq. intros H.
      apply app_inv_head in H. subst. now rewrite str_eqb_refl in E.
  - symmetry. apply str_eqb_neq. intros ->.
    unfold sentinel_line in Hp. now rewrite startsWith_app in Hp.
Qed.





End WithNumbers.

End ConsumerFacts.

(** ** Claims about the stream consumer *)

Module ConsumerClaims.
Import JS StreamConsumer JSFacts ConsumerFacts.





(** C3, at a stream that goes on after the sentinel: the loop does not
    stop at the sentinel of the first read.  It reads and processes the
    second read, appends its frame to the accumulator, which was not
    reset, and appends a second assistant message. *)
Theorem reading_continues_after_sentinel :
  forall (nts : jsstring -> jsstring) (s : State),
    read_loop nts {| ui := s; accumulatedContent := [] |}
              Samples.stream_after_sentinel
    = ({| ui := {| input := input s;
                   messages := (messages s ++ [assistant_message (lit "Hi")])
                               ++ [assistant_message (lit "Hi!")];
                   isTyping := false;
                   currentTypingMessage := [] |};
          accumulatedContent := lit "Hi!" |}, None).
Proof. intros nts s. reflexivity. Qed.

End ConsumerClaims.

(** ** The code-block extractor *)

Module ExtractorFacts.
Import JS Extractor Fences JSFacts.

Lemma shorter_cons (x : N) (s : jsstring) : shorter s (x :: s) = true.
Proof. unfold shorter. simpl. apply Nat.ltb_lt. lia. Qed.

Lemma lazy_any (A : Type) (k : jsstring -> captures -> option A) :
  forall fuel s caps,
    List.length s <= fuel ->
    lazy_loop (fun k' => rmatch (RClass any_unit) k') k fuel s caps
    = first_success (fun s' => k s' caps) s.
Proof.
  induction fuel as [|fuel IH]; intros s caps Hlen.
  - destruct s; [|simpl in Hlen; lia]. simpl. destruct (k [] caps); reflexivity.
  - destruct s as [|x s]; simpl.
    + destruct (k [] caps); reflexivity.
    + destruct (k (x :: s) caps); [reflexivity|].
      rewrite shorter_cons. apply IH. simpl in Hlen. lia.
Qed.

Lemma greedy_word (A : Type) (k : jsstring -> captures -> option A) :
  (forall x s caps, is_word x = true -> k (x :: s) caps = None) ->
  forall fuel s caps,
    List.length s <= fuel ->
    greedy_loop (fun k' => rmatch (RClass is_word) k') k fuel s caps
    = k (after_word_run s) caps.
Proof.
  intros Hk. induction fuel as [|fuel IH]; intros s caps Hlen.
  - destruct s; [|simpl in Hlen; lia]. reflexivity.
  - destruct s as [|x s]; [reflexivity|].
    cbn [greedy_loop rmatch after_word_run].
    destruct (is_word x) eqn:Ew.
    + rewrite shorter_cons. rewrite IH by (simpl in Hlen; lia).
      rewrite (Hk x s caps Ew).
      destruct (k (after_word_run s) caps); reflexivity.
    + reflexivity.
Qed.

Lemma rmatch_fence (A : Type) (k : jsstring -> captures -> option A) s caps :
  rmatch (RSeq (RChar backtick) (RSeq (RChar backtick) (RChar backtick))) k s caps
  = if startsWith fence s then k (skipn 3 s) caps else None.
Proof.
  destruct s as [|a [|b [|c s]]]; cbn [rmatch startsWith fence skipn];
    rewrite ?(N.eqb_sym backtick); try reflexivity;
    repeat match goal with
           | |- context [(?x =? backtick)%N] => destruct (x =? backtick)%N
           end; reflexivity.
Qed.

Lemma find_fence_cons x s :
  find_fence (x :: s)
  = if startsWith fence (x :: s) then Some 0 else option_map S (find_fence s).
Proof. reflexivity. Qed.

Lemma find_fence_bound s n : find_fence s = Some n -> n + 3 <= List.length s.
Proof.
  revert n; induction s as [|x s IH]; intros n.
  - discriminate.
  - rewrite find_fence_cons.
    destruct (startsWith fence (x :: s)) eqn:E.
    + intros H; inversion H; subst.
      apply startsWith_inv in E as [t Ht]. rewrite Ht. simpl. lia.
    + destruct (find_fence s) as [m|]; simpl; [|discriminate].
      intros H; inversion H; subst. specialize (IH _ eq_refl). simpl. lia.
Qed.

(** Scanning with a continuation that wants a fence and then succeeds: the
    first fence decides. *)
Lemma first_success_fence (A : Type) (f : jsstring -> A) :
  forall s,
    first_success (fun s' => if startsWith fence s' then Some (f s') else None) s
    = match find_fence s with
      | Some n => Some (f (skipn n s))
      | None => None
      end.
Proof.
  induction s as [|x s IH].
  - reflexivity.
  - cbn [first_success]. rewrite find_fence_cons.
    destruct (startsWith fence (x :: s)) eqn:E; [reflexivity|].
    rewrite IH. destruct (find_fence s); reflexivity.
Qed.

Lemma word_run_split s : s = word_run s ++ after_word_run s.
Proof.
  induction s as [|x s IH]; simpl; [reflexivity|].
  destruct (is_word x); simpl; congruence.
Qed.

Lemma length_after_word_run s :
  List.length s = List.length (word_run s) + List.length (after_word_run s).
Proof. rewrite (word_run_split s) at 1. apply length_app. Qed.

Lemma firstn_word_run s :
  firstn (List.length s - List.length (after_word_run s)) s = word_run s.
Proof.
  rewrite (length_after_word_run s).
  replace (_ + _ - _) with (List.length (word_run s)) by lia.
  rewrite (word_run_split s) at 2. now rewrite firstn_app, Nat.sub_diag, firstn_all, app_nil_r.
Qed.

(** The optional language tag. *)
Lemma rmatch_opt_tag (A : Type) (k : jsstring -> captures -> option A) s caps :
  (forall x t c, (x =? 10)%N = false -> k (x :: t) c = None) ->
  (forall c, k [] c = None) ->
  rmatch (ROpt (RGroup 1 (RPlus (RClass is_word)))) k s caps
  = k (after_word_run s)
      (match word_run s with [] => caps | _ :: _ => (1, word_run s) :: caps end).
Proof.
  intros Hk Hnil.
  assert (Hword : forall x, is_word x = true -> (x =? 10)%N = false).
  { intros x Hx. destruct (x =? 10)%N eqn:E; [|reflexivity].
    apply N.eqb_eq in E. subst. discriminate Hx. }
  destruct s as [|x s].
  - cbn. reflexivity.
  - cbn [rmatch word_run after_word_run].
    destruct (is_word x) eqn:Ew; [|reflexivity].
    rewrite greedy_word.
    + destruct (shorter (after_word_run s) (x :: s)) eqn:Es.
      * pose proof (firstn_word_run (x :: s)) as Hf.
        cbn [word_run after_word_run] in Hf. rewrite Ew in Hf. rewrite Hf.
        destruct (k (after_word_run s) _) eqn:Ek; [reflexivity|].
        now rewrite Hk by auto.
      * exfalso. unfold shorter in Es. apply Nat.ltb_ge in Es.
        pose proof (length_after_word_run s). simpl in Es. lia.
    + intros y t c Hy.
      destruct (shorter (y :: t) (x :: s)); [|reflexivity].
      now rewrite Hk by auto.
    + lia.
Qed.

Lemma skipn_skipn_3 n (s : jsstring) : skipn 3 (skipn n s) = skipn (n + 3) s.
Proof. rewrite skipn_skipn. f_equal. lia. Qed.

Lemma first_success_ext (A : Type) (k1 k2 : jsstring -> option A) :
  (forall s, k1 s = k2 s) -> forall s, first_success k1 s = first_success k2 s.
Proof.
  intros H. induction s as [|x s IH]; simpl; rewrite H; [reflexivity|].
  now rewrite IH.
Qed.

Lemma startsWith_fence_length s :
  startsWith fence s = true -> List.length s = 3 + List.length (skipn 3 s).
Proof.
  intros H. apply startsWith_inv in H as [t ->]. reflexivity.
Qed.

Lemma rmatch_seq (A : Type) r1 r2 (k : jsstring -> captures -> option A) s caps :
  rmatch (RSeq r1 r2) k s caps
  = rmatch r1 (fun s' caps' => rmatch r2 k s' caps') s caps.
Proof. reflexivity. Qed.

Lemma rmatch_char (A : Type) c (k : jsstring -> captures -> option A) s caps :
  rmatch (RChar c) k s caps
  = match s with
    | x :: s' => if (x =? c)%N then k s' caps else None
    | [] => None
    end.
Proof. reflexivity. Qed.

Lemma rmatch_group (A : Type) n r (k : jsstring -> captures -> option A) s caps :
  rmatch (RGroup n r) k s caps
  = rmatch r (fun s' caps' =>
                k s' ((n, firstn (List.length s - List.length s') s) :: caps'))
           s caps.
Proof. reflexivity. Qed.

Lemma rmatch_lazy (A : Type) r (k : jsstring -> captures -> option A) s caps :
  rmatch (RLazyStar r) k s caps
  = lazy_loop (fun k' => rmatch r k') k (List.length s) s caps.
Proof. reflexivity. Qed.

Lemma match_here_fence_match s :
  match_here codeBlockRegex s = fence_match s.
Proof.
  unfold match_here, codeBlockRegex, fence_match.
  cbn [RSeqs].
  set (kfinal := fun (s' : jsstring) (caps : captures) =>
                   Some (List.length s - List.length s', caps)).
  change (rmatch (RSeq (RChar backtick) (RSeq (RChar backtick) (RSeq (RChar backtick) ?r))) kfinal s [])
    with (rmatch (RSeq (RChar backtick) (RSeq (RChar backtick) (RChar backtick)))
            (fun s' caps' => rmatch r kfinal s' caps') s []).
  rewrite rmatch_fence.
  destruct (startsWith fence s) eqn:Efence; [|reflexivity].
  apply startsWith_fence_length in Efence.
  set (s1 := skipn 3 s) in *.
  rewrite rmatch_seq, rmatch_opt_tag.
  2:{ intros x t c Hx. rewrite rmatch_seq, rmatch_char. now rewrite Hx. }
  2:{ reflexivity. }
  pose proof (length_after_word_run s1) as Hlen.
  rewrite rmatch_seq, rmatch_char.
  destruct (after_word_run s1) as [|c s3]; [reflexivity|].
  destruct (c =? 10)%N; [|reflexivity].
  rewrite rmatch_seq, rmatch_group, rmatch_lazy.
  rewrite lazy_any by lia.
  set (caps1 := match word_run s1 with [] => [] | _ :: _ => [(1, word_run s1)] end).
  rewrite (@first_success_ext _ _
             (fun s' => if startsWith fence s'
                        then Some (List.length s - List.length (skipn 3 s'),
                                   (2, firstn (List.length s3 - List.length s') s3)
                                     :: caps1)
                        else None)).
  2:{ intros s'. rewrite rmatch_fence. reflexivity. }
  rewrite (first_success_fence
             (fun s' => (List.length s - List.length (skipn 3 s'),
                         (2, firstn (List.length s3 - List.length s') s3) :: caps1))).
  destruct (find_fence s3) as [n|] eqn:En; [|reflexivity].
  apply find_fence_bound in En.
  rewrite skipn_skipn_3, !length_skipn. simpl in Hlen.
  f_equal. f_equal; [lia|]. f_equal. f_equal. f_equal. lia.
Qed.

Lemma exec_scan_shift r i s :
  exec_scan r i s = option_map (shift_match i) (exec_scan r 0 s).
Proof.
  revert i; induction s as [|x s IH]; intros i.
  - simpl. destruct (match_here r []) as [[len caps]|]; simpl; [|reflexivity].
    unfold shift_match; simpl. now rewrite Nat.add_0_r.
  - simpl. destruct (match_here r (x :: s)) as [[len caps]|]; simpl.
    + unfold shift_match; simpl. now rewrite Nat.add_0_r.
    + rewrite (IH (S i)), (IH 1).
      destruct (exec_scan r 0 s) as [m|]; simpl; [|reflexivity].
      unfold shift_match; simpl. do 2 f_equal. lia.
Qed.

Lemma exec_scan_none r i s :
  (forall n, match_here r (skipn n s) = None) -> exec_scan r i s = None.
Proof.
  revert i; induction s as [|x s IH]; intros i H.
  - pose proof (H 0) as H0. simpl in *. now rewrite H0.
  - pose proof (H 0) as H0. simpl in *. rewrite H0.
    apply IH. intros n. apply (H (S n)).
Qed.

Lemma exec_app r (p s : jsstring) a :
  exec r (List.length p + a) (p ++ s) = option_map (shift_match (List.length p)) (exec r a s).
Proof.
  unfold exec. rewrite length_app.
  replace (List.length p + List.length s <? List.length p + a)
    with (List.length s <? a).
  2:{ destruct (Nat.ltb_spec (List.length s) a);
      symmetry; [apply Nat.ltb_lt | apply Nat.ltb_ge]; lia. }
  destruct (List.length s <? a); [reflexivity|].
  rewrite skipn_app.
  replace (List.length p + a - List.length p) with a by lia.
  rewrite skipn_all2 by lia. cbn [app].
  rewrite exec_scan_shift, (exec_scan_shift r a).
  destruct (exec_scan r 0 (skipn a s)) as [m|]; simpl; [|reflexivity].
  unfold shift_match; simpl. do 2 f_equal. lia.
Qed.

Lemma fence_match_bounds s len caps :
  fence_match s = Some (len, caps) -> 7 <= len <= List.length s.
Proof.
  unfold fence_match.
  destruct (startsWith fence s) eqn:Ef; [|discriminate].
  apply startsWith_fence_length in Ef.
  remember (skipn 3 s) as s1 eqn:Es1. clear Es1.
  pose proof (length_after_word_run s1) as Hl.
  destruct (after_word_run s1) as [|c s3]; [discriminate|].
  destruct (c =? 10)%N; [|discriminate].
  destruct (find_fence s3) as [n|] eqn:En; [|discriminate].
  apply find_fence_bound in En. intros [= <- _].
  cbn [List.length] in Hl. lia.
Qed.

Lemma exec_scan_bounds i s m :
  exec_scan codeBlockRegex i s = Some m ->
  i <= index m /\ 7 <= List.length (matched m)
  /\ index m + List.length (matched m) <= i + List.length s.
Proof.
  revert i; induction s as [|x s IH]; intros i; cbn [exec_scan];
    rewrite match_here_fence_match.
  - destruct (fence_match []) as [[len caps]|] eqn:E; [|discriminate].
    apply fence_match_bounds in E. simpl in E. lia.
  - destruct (fence_match (x :: s)) as [[len caps]|] eqn:E.
    + apply fence_match_bounds in E. intros [= <-]. cbn [index matched].
      rewrite length_firstn. lia.
    + intros H. apply IH in H. cbn [List.length]. lia.
Qed.

Lemma exec_bounds i s m :
  exec codeBlockRegex i s = Some m ->
  i <= index m /\ 7 <= List.length (matched m)
  /\ index m + List.length (matched m) <= List.length s.
Proof.
  unfold exec. destruct (Nat.ltb_spec (List.length s) i); [discriminate|].
  intros Hm. apply exec_scan_bounds in Hm. rewrite length_skipn in Hm. lia.
Qed.

Lemma render_loop_fuel s : forall f1 f2 a b parts,
  List.length s < a + f1 -> List.length s < a + f2 ->
  render_loop f1 s a b parts = render_loop f2 s a b parts.
Proof.
  induction f1 as [|f1 IH]; intros f2 a b parts H1 H2.
  - assert (E : exec codeBlockRegex a s = None).
    { unfold exec. destruct (Nat.ltb_spec (List.length s) a); [reflexivity|lia]. }
    destruct f2; simpl; [reflexivity|]. now rewrite E.
  - destruct f2 as [|f2].
    + assert (E : exec codeBlockRegex a s = None).
      { unfold exec. destruct (Nat.ltb_spec (List.length s) a); [reflexivity|lia]. }
      simpl. now rewrite E.
    + simpl. destruct (exec codeBlockRegex a s) as [m|] eqn:E; [|reflexivity].
      apply exec_bounds in E. apply IH; lia.
Qed.

Lemma slice_app (p s : jsstring) a b :
  slice (List.length p + a) (List.length p + b) (p ++ s) = slice a b s.
Proof.
  unfold slice. rewrite skipn_app.
  replace (List.length p + a - List.length p) with a by lia.
  rewrite skipn_all2 by lia. cbn [app]. f_equal. lia.
Qed.

Lemma render_loop_parts s : forall fuel a b parts,
  render_loop fuel s a b parts
  = let (li, ps) := render_loop fuel s a b [] in (li, parts ++ ps).
Proof.
  induction fuel as [|fuel IH]; intros a b parts.
  - simpl. now rewrite app_nil_r.
  - cbn [render_loop].
    destruct (exec codeBlockRegex a s) as [m|].
    2:{ now rewrite app_nil_r. }
    rewrite IH. symmetry. rewrite IH.
    destruct (render_loop fuel s _ _ []) as [li ps].
    f_equal. destruct (b <? index m); cbn [app]; now rewrite <- ?app_assoc.
Qed.

Lemma render_loop_app (p s : jsstring) : forall fuel a b parts,
  render_loop fuel (p ++ s) (List.length p + a) (List.length p + b) parts
  = let (li, ps) := render_loop fuel s a b parts in
    (List.length p + li, ps).
Proof.
  induction fuel as [|fuel IH]; intros a b parts.
  - reflexivity.
  - cbn [render_loop]. rewrite exec_app.
    destruct (exec codeBlockRegex a s) as [m|]; cbn [option_map]; [|reflexivity].
    cbn [shift_match index matched groups].
    replace (List.length p + index m + List.length (matched m))
      with (List.length p + (index m + List.length (matched m))) by lia.
    rewrite slice_app.
    replace (List.length p + b <? List.length p + index m) with (b <? index m).
    2:{ destruct (Nat.ltb_spec b (index m));
        symmetry; [apply Nat.ltb_lt | apply Nat.ltb_ge]; lia. }
    unfold language_of, code_of. cbn [groups].
    apply IH.
Qed.

Lemma renderMessage_no_match content :
  exec codeBlockRegex 0 content = None ->
  renderMessage content = text_part content.
Proof.
  intros H. unfold renderMessage. cbn [render_loop]. rewrite H.
  destruct content; reflexivity.
Qed.

Lemma ltb_add_l p a b : (p + a <? p + b) = (a <? b).
Proof.
  destruct (Nat.ltb_spec a b); [apply Nat.ltb_lt | apply Nat.ltb_ge]; lia.
Qed.

Lemma slice_prefix (pre s : jsstring) : slice 0 (List.length pre) (pre ++ s) = pre.
Proof.
  unfold slice. rewrite Nat.sub_0_r. cbn [skipn].
  now rewrite firstn_app, Nat.sub_diag, firstn_all, app_nil_r.
Qed.

Lemma renderMessage_first_match (pre blk post : jsstring) (g : captures) :
  exec codeBlockRegex 0 (pre ++ blk ++ post)
  = Some {| index := List.length pre; matched := blk; groups := g |} ->
  renderMessage (pre ++ blk ++ post)
  = text_part pre
    ++ [CodeBlockRef (language_of {| index := List.length pre; matched := blk; groups := g |})
                     (code_of {| index := List.length pre; matched := blk; groups := g |})]
    ++ renderMessage post.
Proof.
  intros H. pose proof (exec_bounds _ _ H) as (_ & Hlen & _).
  cbn [matched index] in Hlen.
  unfold renderMessage at 1. cbn [render_loop]. rewrite H.
  cbn [index matched].
  set (m := {| index := List.length pre; matched := blk; groups := g |}).
  set (parts2 := (if 0 <? List.length pre then _ else _) ++ _).
  assert (Hparts : parts2 = text_part pre ++ [CodeBlockRef (language_of m) (code_of m)]).
  { unfold parts2. f_equal. rewrite slice_prefix.
    destruct pre; reflexivity. }
  rewrite Hparts. clear parts2 Hparts.
  rewrite app_assoc. rewrite <- length_app.
  set (p := pre ++ blk).
  assert (Hp : 1 <= List.length p) by (unfold p; rewrite length_app; lia).
  pose proof (render_loop_app p post (List.length (p ++ post)) 0 0) as Happ.
  rewrite !Nat.add_0_r in Happ. rewrite Happ. clear Happ.
  rewrite (render_loop_fuel post (List.length (p ++ post)) (S (List.length post)))
    by (rewrite ?length_app; lia).
  rewrite render_loop_parts.
  unfold renderMessage.
  destruct (render_loop (S (List.length post)) post 0 0 []) as [li ps].
  rewrite length_app, ltb_add_l.
  destruct (li <? List.length post).
  - rewrite <- !app_assoc. do 3 f_equal.
    unfold slice_from. rewrite skipn_app.
    replace (List.length p + li - List.length p) with li by lia.
    rewrite skipn_all2 by lia. reflexivity.
  - now rewrite <- !app_assoc.
Qed.

Lemma startsWith_fence_head x s :
  x <> backtick -> startsWith fence (x :: s) = false.
Proof.
  intros H. cbn [startsWith fence].
  destruct (backtick =? x)%N eqn:E; [|reflexivity].
  apply N.eqb_eq in E. now elim H.
Qed.

Lemma find_fence_no_backtick body rest :
  ~ In backtick body -> find_fence (body ++ fence ++ rest) = Some (List.length body).
Proof.
  induction body as [|x body IH]; intros H.
  - reflexivity.
  - cbn [app]. rewrite find_fence_cons, startsWith_fence_head.
    + rewrite IH; [reflexivity|]. intros Hin. apply H. now right.
    + intros ->. apply H. now left.
Qed.

Lemma word_run_app lang x rest :
  Forall (fun c => is_word c = true) lang -> is_word x = false ->
  word_run (lang ++ x :: rest) = lang
  /\ after_word_run (lang ++ x :: rest) = x :: rest.
Proof.
  intros Hl Hx. induction Hl as [|c lang Hc _ IH]; cbn [app word_run after_word_run].
  - now rewrite Hx.
  - rewrite Hc. destruct IH as [-> ->]. auto.
Qed.

Lemma fence_match_fenced lang body post :
  Forall (fun c => is_word c = true) lang ->
  ~ In backtick body ->
  fence_match (fence ++ lang ++ 10%N :: body ++ fence ++ post)
  = Some (List.length (fence ++ lang ++ 10%N :: body ++ fence),
          (2, body) :: match lang with [] => [] | _ :: _ => [(1, lang)] end).
Proof.
  intros Hl Hb. unfold fence_match. rewrite startsWith_app.
  change (skipn 3 (fence ++ ?x)) with x.
  destruct (word_run_app (10%N) (body ++ fence ++ post) Hl eq_refl) as [-> ->].
  cbn [N.eqb Pos.eqb].
  rewrite find_fence_no_backtick by assumption.
  rewrite firstn_app, Nat.sub_diag, firstn_all, app_nil_r.
  do 2 f_equal.
  rewrite !length_app. cbn [List.length]. rewrite !length_app. cbn [List.length fence]. lia.
Qed.

Lemma exec_scan_skip pre s i :
  ~ In backtick pre ->
  exec_scan codeBlockRegex i (pre ++ s)
  = exec_scan codeBlockRegex (i + List.length pre) s.
Proof.
  revert i; induction pre as [|x pre IH]; intros i H.
  - cbn. now rewrite Nat.add_0_r.
  - cbn [app exec_scan]. rewrite match_here_fence_match.
    unfold fence_match at 1. rewrite startsWith_fence_head.
    + rewrite IH. * f_equal. cbn [List.length]. lia.
      * intros Hin. apply H. now right.
    + intros ->. apply H. now left.
Qed.

Lemma exec_fenced pre lang body post :
  ~ In backtick pre ->
  Forall (fun c => is_word c = true) lang ->
  ~ In backtick body ->
  exec codeBlockRegex 0 (pre ++ (fence ++ lang ++ 10%N :: body ++ fence) ++ post)
  = Some {| index := List.length pre;
            matched := fence ++ lang ++ 10%N :: body ++ fence;
            groups := (2, body)
                        :: match lang with [] => [] | _ :: _ => [(1, lang)] end |}.
Proof.
  intros Hp Hl Hb. unfold exec. cbn [Nat.ltb Nat.leb skipn].
  rewrite exec_scan_skip by assumption. cbn [Nat.add].
  set (blk := fence ++ lang ++ 10%N :: body ++ fence).
  assert (E : blk ++ post = fence ++ lang ++ 10%N :: body ++ fence ++ post).
  { unfold blk. now rewrite <- !app_assoc, <- app_comm_cons, <- !app_assoc. }
  destruct blk as [|b blk'] eqn:Eb; [discriminate|]. rewrite <- Eb in *.
  assert (Hc : exists y t, blk ++ post = y :: t) by (rewrite Eb; cbn; eauto).
  destruct Hc as (y & t & Hc). rewrite Hc. cbn [exec_scan]. rewrite <- Hc.
  rewrite match_here_fence_match, E, fence_match_fenced by assumption.
  fold blk. rewrite <- E. do 2 f_equal.
  now rewrite firstn_app, Nat.sub_diag, firstn_all, app_nil_r.
Qed.

Lemma find_fence_some s n :
  find_fence s = Some n -> startsWith fence (skipn n s) = true.
Proof.
  revert n; induction s as [|x s IH]; intros n.
  - discriminate.
  - rewrite find_fence_cons.
    destruct (startsWith fence (x :: s)) eqn:E.
    + intros [= <-]. exact E.
    + destruct (find_fence s) as [m|]; [|discriminate].
      intros [= <-]. cbn [skipn]. now apply IH.
Qed.

Lemma find_fence_none s :
  find_fence s = None -> forall n, startsWith fence (skipn n s) = false.
Proof.
  induction s as [|x s IH]; intros H n.
  - destruct n; reflexivity.
  - rewrite find_fence_cons in H.
    destruct (startsWith fence (x :: s)) eqn:E; [discriminate|].
    destruct n; [exact E|]. cbn [skipn]. apply IH.
    destruct (find_fence s); [discriminate | reflexivity].
Qed.

Lemma startsWith_app_l (p a b : jsstring) :
  List.length p <= List.length a -> startsWith p (a ++ b) = startsWith p a.
Proof.
  revert a; induction p as [|x p IH]; intros a H; [reflexivity|].
  destruct a as [|y a]; [simpl in H; lia|].
  cbn [app startsWith]. rewrite IH; [reflexivity|]. simpl in H. lia.
Qed.

(** Where a fence can occur in a text that has one fence between two texts
    without any. *)
Lemma fence_occurrence_range pre rest n :
  find_fence pre = None -> find_fence rest = None ->
  startsWith fence (skipn n (pre ++ fence ++ rest)) = true ->
  List.length pre < n + 3 /\ n < List.length pre + 3.
Proof.
  intros Hpre Hrest H. split.
  - destruct (Nat.lt_ge_cases (List.length pre) (n + 3)) as [|Hge]; [assumption|].
    exfalso. rewrite skipn_app in H.
    rewrite startsWith_app_l in H by (rewrite length_skipn; cbn; lia).
    now rewrite (find_fence_none _ Hpre) in H.
  - destruct (Nat.lt_ge_cases n (List.length pre + 3)) as [|Hge]; [assumption|].
    exfalso. rewrite app_assoc in H. rewrite skipn_app in H.
    rewrite skipn_all2 in H by (rewrite length_app; cbn; lia).
    cbn [app] in H. now rewrite (find_fence_none _ Hrest) in H.
Qed.

(** The shape of a match: an opening fence, something that is no backtick
    right after it, and a closing fence at least four places further. *)
Lemma fence_match_shape t len caps :
  fence_match t = Some (len, caps) ->
  startsWith fence t = true
  /\ (exists c, nth_error t 3 = Some c /\ c <> backtick)
  /\ exists q, 4 <= q /\ startsWith fence (skipn q t) = true.
Proof.
  unfold fence_match.
  destruct (startsWith fence t) eqn:Ef; [|discriminate].
  apply startsWith_inv in Ef as [s1 ->].
  change (skipn 3 (fence ++ s1)) with s1.
  pose proof (word_run_split s1) as Hs.
  destruct (after_word_run s1) as [|c s3] eqn:Ea; [discriminate|].
  destruct (c =? 10)%N eqn:Ec; [|discriminate].
  apply N.eqb_eq in Ec. subst c.
  destruct (find_fence s3) as [n|] eqn:En; [|discriminate].
  intros _. split; [reflexivity|]. split.
  - change (nth_error (fence ++ s1) 3) with (nth_error s1 0).
    destruct s1 as [|x s1]; [discriminate Ea|].
    exists x. split; [reflexivity|].
    cbn [after_word_run] in Ea. destruct (is_word x) eqn:Ex.
    + intros ->. discriminate Ex.
    + injection Ea as -> _. discriminate.
  - exists (3 + (List.length (word_run s1) + 1 + n)). split; [lia|].
    change (skipn (3 + ?k) (fence ++ s1)) with (skipn k s1).
    remember (word_run s1) as w eqn:Ew. clear Ew. subst s1.
    rewrite skipn_app, skipn_all2 by lia.
    replace (List.length w + 1 + n - List.length w) with (S n) by lia.
    cbn [app skipn]. now apply find_fence_some.
Qed.

Lemma nth_error_skipn (A : Type) (l : list A) n k :
  nth_error (skipn n l) k = nth_error l (n + k).
Proof.
  revert l; induction n as [|n IH]; intros l; [reflexivity|].
  destruct l as [|x l]; cbn [skipn Nat.add nth_error].
  - now destruct k.
  - apply IH.
Qed.

Lemma single_fence_no_match pre rest :
  find_fence pre = None -> find_fence rest = None ->
  forall n, fence_match (skipn n (pre ++ fence ++ rest)) = None.
Proof.
  intros Hpre Hrest n.
  destruct (fence_match (skipn n (pre ++ fence ++ rest))) as [[len caps]|] eqn:E;
    [exfalso|reflexivity].
  apply fence_match_shape in E as (Hopen & (c & Hc & Hne) & (q & Hq & Hclose)).
  rewrite skipn_skipn in Hclose.
  apply (fence_occurrence_range _ _ _ Hpre Hrest) in Hopen.
  apply (fence_occurrence_range _ _ _ Hpre Hrest) in Hclose.
  rewrite nth_error_skipn in Hc.
  assert (Hn : n + 3 = List.length pre + 1) by lia.
  rewrite Hn, nth_error_app2, Nat.add_comm, Nat.add_sub in Hc by lia.
  cbn in Hc. injection Hc as <-. now elim Hne.
Qed.

Lemma word_run_is_word s : Forall (fun c => is_word c = true) (word_run s).
Proof.
  induction s as [|x s IH]; cbn [word_run]; [constructor|].
  destruct (is_word x) eqn:E; constructor; assumption.
Qed.

(** A match at the head of [t]: its parts. *)
Lemma fence_match_inv t len caps :
  fence_match t = Some (len, caps) ->
  exists tag body rest,
    t = (fence ++ tag ++ 10%N :: body ++ fence) ++ rest
    /\ len = List.length (fence ++ tag ++ 10%N :: body ++ fence)
    /\ caps = (2, body) :: match tag with [] => [] | _ :: _ => [(1, tag)] end
    /\ Forall (fun c => is_word c = true) tag.
Proof.
  unfold fence_match.
  destruct (startsWith fence t) eqn:Ef; [|discriminate].
  apply startsWith_inv in Ef as [s1 ->].
  change (skipn 3 (fence ++ s1)) with s1.
  pose proof (word_run_split s1) as Hs.
  pose proof (word_run_is_word s1) as Hw.
  remember (word_run s1) as w eqn:Ew. clear Ew.
  destruct (after_word_run s1) as [|c s3]; [discriminate|].
  destruct (N.eqb_spec c 10); [subst c|discriminate].
  destruct (find_fence s3) as [n|] eqn:En; [|discriminate].
  intros [= <- <-].
  pose proof (find_fence_bound _ En) as Hn.
  apply find_fence_some in En. apply startsWith_inv in En as [rest Hrest].
  exists w, (firstn n s3), rest. repeat split; try assumption.
  - subst s1. rewrite <- (firstn_skipn n s3) at 1. rewrite Hrest.
    now rewrite <- !app_assoc, <- app_comm_cons, <- !app_assoc.
  - rewrite !length_app. cbn [List.length]. rewrite !length_app, length_firstn.
    cbn [List.length fence]. lia.
Qed.

Lemma exec_scan_inv r i s m :
  exec_scan r i s = Some m ->
  exists k len,
    index m = i + k /\ k <= List.length s
    /\ match_here r (skipn k s) = Some (len, groups m)
    /\ matched m = firstn len (skipn k s).
Proof.
  revert i; induction s as [|x s IH]; intros i; cbn [exec_scan].
  - destruct (match_here r []) as [[len caps]|] eqn:E; [|discriminate].
    intros [= <-]. exists 0, len. cbn. rewrite E. repeat split; lia.
  - destruct (match_here r (x :: s)) as [[len caps]|] eqn:E.
    + intros [= <-]. exists 0, len. cbn [skipn index matched groups List.length].
      rewrite E. repeat split; lia.
    + intros H. destruct (IH _ H) as (k & len & H1 & H2 & H3 & H4).
      exists (S k), len. cbn [skipn List.length]. repeat split; auto; lia.
Qed.

Lemma renderMessage_unfold content m :
  exec codeBlockRegex 0 content = Some m ->
  exists tag body,
    matched m = fence ++ tag ++ 10%N :: body ++ fence
    /\ Forall (fun c => is_word c = true) tag
    /\ renderMessage content
       = text_part (firstn (index m) content)
         ++ [CodeBlockRef (match tag with [] => lit "plaintext" | _ :: _ => tag end)
                          (trim body)]
         ++ renderMessage (skipn (index m + List.length (matched m)) content).
Proof.
  intros Hexec. pose proof Hexec as Hm. unfold exec in Hm.
  cbn [Nat.ltb Nat.leb skipn] in Hm.
  apply exec_scan_inv in Hm as (k & len & Hk & Hle & Hhere & Hmatched).
  cbn [Nat.add] in Hk. rewrite match_here_fence_match in Hhere.
  apply fence_match_inv in Hhere as (tag & body & rest & Ht & Hlen & Hcaps & Hw).
  rewrite Ht, Hlen, firstn_app, Nat.sub_diag, firstn_all, app_nil_r in Hmatched.
  exists tag, body. split; [assumption|]. split; [assumption|].
  set (blk := fence ++ tag ++ 10%N :: body ++ fence) in *.
  assert (Hc : content = firstn k content ++ blk ++ rest)
    by (now rewrite <- Ht, firstn_skipn).
  assert (Hpre : List.length (firstn k content) = k)
    by (rewrite length_firstn; lia).
  destruct m as [idx mt gs]. cbn [index matched groups] in *. subst idx mt gs.
  rewrite Hc in Hexec. rewrite <- Hpre in Hexec at 2.
  rewrite Hc at 1. rewrite (@renderMessage_first_match _ _ _ _ Hexec).
  f_equal. unfold language_of, code_of. cbn [groups capture Nat.eqb].
  f_equal.
  - f_equal. now destruct tag.
  - f_equal. rewrite Nat.add_comm, <- skipn_skipn, Ht.
    now rewrite skipn_app, Nat.sub_diag, skipn_all.
Qed.

End ExtractorFacts.

(** ** Claims about the code-block extractor *)

Module ExtractorClaims.
Import JS Extractor Fences JSFacts ExtractorFacts.

(** C7. The content [before ```js\ncode\n``` after] yields a text span
    [before ], a code block of language [js] and content [code], and a
    text span [ after].  In general a fenced block (a fence, a possibly
    empty tag of word characters, a line feed, a body, a fence) that
    follows a text without backticks yields the text, if it is not empty,
    then a code block whose language is the tag, or [plaintext] when the
    tag is empty, and whose content is the trimmed body; what follows the
    block is rendered on its own.  And for any content, the first match of
    the pattern is such a block, it yields such a code block after the
    text that precedes it, and the rest is rendered on its own. *)
Theorem fenced_block_yields_code_block :
  renderMessage Samples.fenced_content
  = [TextSpan (lit "before "); CodeBlockRef (lit "js") (lit "code");
     TextSpan (lit " after")]
  /\ (forall pre lang body post : jsstring,
        ~ In backtick pre ->
        Forall (fun c => is_word c = true) lang ->
        ~ In backtick body ->
        renderMessage (pre ++ (fence ++ lang ++ 10%N :: body ++ fence) ++ post)
        = text_part pre
          ++ [CodeBlockRef
                (match lang with [] => lit "plaintext" | _ :: _ => lang end)
                (trim body)]
          ++ renderMessage post)
  /\ (forall (content : jsstring) (m : match_result),
        exec codeBlockRegex 0 content = Some m ->
        exists tag body,
          matched m = fence ++ tag ++ 10%N :: body ++ fence
          /\ Forall (fun c => is_word c = true) tag
          /\ renderMessage content
             = text_part (firstn (index m) content)
               ++ [CodeBlockRef
                     (match tag with [] => lit "plaintext" | _ :: _ => tag end)
                     (trim body)]
               ++ renderMessage
                    (skipn (index m + List.length (matched m)) content)).
Proof.
  split; [reflexivity|]. split.
  - intros pre lang body post Hp Hl Hb.
    rewrite (@renderMessage_first_match _ _ _ _
               (@exec_fenced pre lang body post Hp Hl Hb)).
    do 2 f_equal. unfold language_of, code_of. cbn [groups capture Nat.eqb].
    destruct lang; reflexivity.
  - intros content m. apply renderMessage_unfold.
Qed.

Lemma fenced_block_yields_code_block_witness :
  renderMessage
    (lit "before "
     ++ (fence ++ lit "js" ++ 10%N :: (lit "code" ++ [10%N]) ++ fence)
     ++ lit " after")
  = text_part (lit "before ")
    ++ [CodeBlockRef (lit "js") (trim (lit "code" ++ [10%N]))]
    ++ renderMessage (lit " after").
Proof.
  apply (proj1 (proj2 fenced_block_yields_code_block)
               (lit "before ") (lit "js") (lit "code" ++ [10%N]) (lit " after")).
  - intros H. vm_compute in H. intuition discriminate.
  - repeat constructor.
  - intros H. vm_compute in H. intuition discriminate.
Defined.

(** C8, as stated, fails: a content can end in an unterminated fence and
    hold a complete block before it; the block is extracted. *)
Lemma unterminated_fence_after_complete_block :
  let content := Samples.block_then_unterminated in
  (exists pre rest, content = pre ++ fence ++ rest /\ find_fence rest = None)
  /\ renderMessage content
     = [CodeBlockRef (lit "a") (lit "b");
        TextSpan (lit " and ```js" ++ [10%N] ++ lit "code")]
  /\ renderMessage content <> [TextSpan content].
Proof.
  cbv zeta. split; [|split].
  - exists (lit "```a" ++ [10%N] ++ lit "b``` and "), (lit "js" ++ [10%N] ++ lit "code").
    split; reflexivity.
  - reflexivity.
  - discriminate.
Qed.

(** C8, amended. For every content whose only fence is an unterminated
    one (a text without fence, a fence, a text without fence), such as
    [before ```js\ncode], the extractor yields a single text span equal to
    the whole content, and no code block. *)
Theorem unterminated_fence_is_plain_text :
  forall pre rest : jsstring,
    find_fence pre = None ->
    find_fence rest = None ->
    renderMessage (pre ++ fence ++ rest) = [TextSpan (pre ++ fence ++ rest)].
Proof.
  intros pre rest Hpre Hrest.
  rewrite renderMessage_no_match.
  - destruct pre; reflexivity.
  - unfold exec. cbn [Nat.ltb Nat.leb skipn].
    apply exec_scan_none. intros n. rewrite match_here_fence_match.
    now apply single_fence_no_match.
Qed.

Lemma unterminated_fence_is_plain_text_witness :
  renderMessage Samples.unterminated_content
  = [TextSpan Samples.unterminated_content].
Proof.
  exact (unterminated_fence_is_plain_text
           (lit "before ") (lit "js" ++ [10%N] ++ lit "code")
           eq_refl eq_refl).
Defined.

End ExtractorClaims.

(** ** UTF-8, UTF-16 and well-formed strings *)

Module EncodingFacts.
Import JS.

Ltac nlia := zify; Z.to_euclidean_division_equations; lia.

Lemma to_N_byte_of_N (n : N) : (n < 256)%N -> Byte.to_N (byte_of_N n) = n.
Proof.
  intros H. unfold byte_of_N.
  destruct (Byte.of_N n) as [b|] eqn:E.
  - now apply Byte.to_of_N.
  - apply Byte.of_N_None_iff in E. lia.
Qed.

Ltac decide_tests :=
  repeat match goal with
         | |- context [(?a <=? ?b)%N] =>
             destruct (N.leb_spec a b); try (exfalso; lia)
         | |- context [(?a <? ?b)%N] =>
             destruct (N.ltb_spec a b); try (exfalso; lia)
         | |- context [(?a =? ?b)%N] =>
             destruct (N.eqb_spec a b); try (exfalso; lia)
         end; cbn [andb orb negb].

Ltac run_decoder :=
  repeat (cbn [utf8_run utf8_step app map];
          rewrite ?to_N_byte_of_N by lia;
          unfold utf8_lead, in_range; decide_tests).

Lemma utf8_cp_roundtrip (cp : N) (rest : bytes) :
  is_scalar cp = true ->
  utf8_run Utf8Start (map byte_of_N (utf8_encode_cp cp) ++ rest)
  = cp :: utf8_run Utf8Start rest.
Proof.
  unfold is_scalar. intros Hs.
  assert (Hcp : (cp < 0xD800 \/ 0xE000 <= cp < 0x110000)%N).
  { apply orb_true_iff in Hs as [H|H].
    - left. now apply N.ltb_lt.
    - right. apply andb_true_iff in H as [H1 H2].
      apply N.leb_le in H1. apply N.ltb_lt in H2. lia. }
  clear Hs. unfold utf8_encode_cp.
  destruct (N.ltb_spec cp 0x80);
    [|destruct (N.ltb_spec cp 0x800); [|destruct (N.ltb_spec cp 0x10000)]].
  - run_decoder. reflexivity.
  - assert (Hd : (cp = 64 * (cp / 64) + cp mod 64 /\ cp mod 64 < 64)%N) by nlia.
    remember (cp / 64)%N as a. remember (cp mod 64)%N as c.
    destruct Hd as [-> Hc]. run_decoder. f_equal. lia.
  - assert (Hd : (cp = 4096 * (cp / 4096) + 64 * ((cp / 64) mod 64) + cp mod 64
                  /\ (cp / 64) mod 64 < 64 /\ cp mod 64 < 64)%N) by nlia.
    remember (cp / 4096)%N as a. remember ((cp / 64) mod 64)%N as b.
    remember (cp mod 64)%N as c. clear Heqa Heqb Heqc.
    destruct Hd as (-> & Hb & Hc). run_decoder; f_equal; lia.
  - assert (Hd : (cp = 262144 * (cp / 262144) + 4096 * ((cp / 4096) mod 64)
                       + 64 * ((cp / 64) mod 64) + cp mod 64
                  /\ (cp / 4096) mod 64 < 64 /\ (cp / 64) mod 64 < 64
                  /\ cp mod 64 < 64)%N) by nlia.
    remember (cp / 262144)%N as a. remember ((cp / 4096) mod 64)%N as b.
    remember ((cp / 64) mod 64)%N as c. remember (cp mod 64)%N as d.
    clear Heqa Heqb Heqc Heqd.
    destruct Hd as (-> & Hb & Hc & Hd). run_decoder; f_equal; lia.
Qed.

Lemma split_char_garbled (cp : N) (k : nat) :
  is_scalar cp = true -> (0x80 <= cp)%N ->
  0 < k < List.length (utf8_encode_cp cp) ->
  TextDecoder_decode (firstn k (map byte_of_N (utf8_encode_cp cp)))
  ++ TextDecoder_decode (skipn k (map byte_of_N (utf8_encode_cp cp)))
  = repeat 0xFFFD%N (1 + (List.length (utf8_encode_cp cp) - k)).
Proof.
  unfold is_scalar. intros Hs Hmulti.
  assert (Hcp : (cp < 0xD800 \/ 0xE000 <= cp < 0x110000)%N).
  { apply orb_true_iff in Hs as [H|H].
    - left. now apply N.ltb_lt.
    - right. apply andb_true_iff in H as [H1 H2].
      apply N.leb_le in H1. apply N.ltb_lt in H2. lia. }
  clear Hs. unfold utf8_encode_cp, TextDecoder_decode.
  destruct (N.ltb_spec cp 0x80); [lia|].
  destruct (N.ltb_spec cp 0x800); [|destruct (N.ltb_spec cp 0x10000)].
  - assert (Hd : (cp = 64 * (cp / 64) + cp mod 64 /\ cp mod 64 < 64)%N) by nlia.
    remember (cp / 64)%N as a. remember (cp mod 64)%N as c.
    destruct Hd as [-> Hc]. cbn [List.length]. intros Hk.
    assert (k = 1) as -> by lia.
    cbn [firstn skipn map]. run_decoder. reflexivity.
  - assert (Hd : (cp = 4096 * (cp / 4096) + 64 * ((cp / 64) mod 64) + cp mod 64
                  /\ (cp / 64) mod 64 < 64 /\ cp mod 64 < 64)%N) by nlia.
    remember (cp / 4096)%N as a. remember ((cp / 64) mod 64)%N as b.
    remember (cp mod 64)%N as c. clear Heqa Heqb Heqc.
    destruct Hd as (-> & Hb & Hc). cbn [List.length]. intros Hk.
    assert (k = 1 \/ k = 2) as [-> | ->] by lia;
      cbn [firstn skipn map]; run_decoder; reflexivity.
  - assert (Hd : (cp = 262144 * (cp / 262144) + 4096 * ((cp / 4096) mod 64)
                       + 64 * ((cp / 64) mod 64) + cp mod 64
                  /\ (cp / 4096) mod 64 < 64 /\ (cp / 64) mod 64 < 64
                  /\ cp mod 64 < 64)%N) by nlia.
    remember (cp / 262144)%N as a. remember ((cp / 4096) mod 64)%N as b.
    remember ((cp / 64) mod 64)%N as c. remember (cp mod 64)%N as d.
    clear Heqa Heqb Heqc Heqd.
    destruct Hd as (-> & Hb & Hc & Hd). cbn [List.length]. intros Hk.
    assert (k = 1 \/ k = 2 \/ k = 3) as [-> | [-> | ->]] by lia;
      cbn [firstn skipn map]; run_decoder; reflexivity.
Qed.

Lemma in_range_spec lo hi c : in_range lo hi c = true <-> (lo <= c <= hi)%N.
Proof.
  unfold in_range. rewrite andb_true_iff, N.leb_le, N.leb_le. tauto.
Qed.

Lemma in_range_false lo hi c : in_range lo hi c = false <-> (c < lo \/ hi < c)%N.
Proof.
  unfold in_range. rewrite andb_false_iff, N.leb_gt, N.leb_gt. tauto.
Qed.

Lemma high_is_surrogate c : is_surrogate c = false -> is_high_surrogate c = false.
Proof.
  unfold is_surrogate, is_high_surrogate. rewrite !in_range_false. lia.
Qed.

Lemma code_points_unit c s :
  is_surrogate c = false -> code_points (c :: s) = c :: code_points s.
Proof.
  intros H. cbn [code_points]. rewrite H, (high_is_surrogate _ H).
  destruct s; reflexivity.
Qed.

Lemma code_points_pair hi lo s :
  is_high_surrogate hi = true -> is_low_surrogate lo = true ->
  code_points (hi :: lo :: s) = pair_surrogates hi lo :: code_points s.
Proof. intros H1 H2. cbn [code_points]. now rewrite H1, H2. Qed.

Lemma utf8_encode_cons cp (cps : list N) :
  map byte_of_N (flat_map utf8_encode_cp (cp :: cps))
  = map byte_of_N (utf8_encode_cp cp) ++ map byte_of_N (flat_map utf8_encode_cp cps).
Proof. cbn [flat_map]. apply map_app. Qed.

Lemma well_formed_roundtrip s :
  well_formed s ->
  utf8_run Utf8Start (utf8_encode s) = code_points s
  /\ flat_map utf16 (code_points s) = s.
Proof.
  unfold utf8_encode.
  induction 1 as [|c s Hc Hs _ [IH1 IH2]|hi lo s Hhi Hlo _ [IH1 IH2]].
  - split; reflexivity.
  - rewrite code_points_unit by assumption.
    rewrite utf8_encode_cons, utf8_cp_roundtrip.
    + rewrite IH1. cbn [flat_map]. rewrite IH2. unfold utf16.
      apply N.ltb_lt in Hc. rewrite Hc. split; reflexivity.
    + unfold is_surrogate in Hs. apply in_range_false in Hs.
      unfold is_scalar. apply orb_true_iff.
      destruct Hs; [left; apply N.ltb_lt; lia|].
      right. apply andb_true_iff. split; [apply N.leb_le | apply N.ltb_lt]; lia.
  - rewrite code_points_pair by assumption.
    apply in_range_spec in Hhi. apply in_range_spec in Hlo.
    rewrite utf8_encode_cons, utf8_cp_roundtrip.
    + rewrite IH1. cbn [flat_map]. rewrite IH2. unfold utf16, pair_surrogates.
      destruct (N.ltb_spec (0x10000 + (hi - 0xD800) * 0x400 + (lo - 0xDC00)) 0x10000);
        [lia|].
      cbn [app]. split; [reflexivity|]. f_equal; [|f_equal]; nlia.
    + unfold is_scalar, pair_surrogates. apply orb_true_iff. right.
      apply andb_true_iff. split; [apply N.leb_le | apply N.ltb_lt]; nlia.
Qed.

Lemma decode_encode (c : N) (s : jsstring) :
  well_formed (c :: s) -> (c < 0x80)%N ->
  TextDecoder_decode (utf8_encode (c :: s)) = c :: s.
Proof.
  intros Hwf Hc. destruct (well_formed_roundtrip Hwf) as [H1 H2].
  unfold TextDecoder_decode. rewrite H1.
  assert (Hs : is_surrogate c = false)
    by (apply in_range_false; lia).
  rewrite code_points_unit in * by assumption.
  unfold strip_bom. destruct (N.eqb_spec c 0xFEFF); [lia|]. exact H2.
Qed.

Lemma well_formed_app a b : well_formed a -> well_formed b -> well_formed (a ++ b).
Proof.
  induction 1; intros Hb; cbn [app];
    [assumption | apply wf_unit | apply wf_pair]; auto.
Qed.

Lemma well_formed_plain s :
  Forall (fun c => (c < 0xD800)%N) s -> well_formed s.
Proof.
  induction 1 as [|c s Hc _ IH]; [constructor|].
  apply wf_unit; [lia | apply in_range_false; lia | exact IH].
Qed.

Lemma list_ind2 (A : Type) (P : list A -> Prop) :
  P [] -> (forall c, P [c]) ->
  (forall c d t, P t -> P (d :: t) -> P (c :: d :: t)) ->
  forall l, P l.
Proof.
  intros H0 H1 H2 l.
  assert (H : P l /\ forall x, P (x :: l)).
  { induction l as [|y l [IHa IHb]]; split; auto. }
  apply H.
Qed.

End EncodingFacts.

(** ** [JSON.stringify] and [JSON.parse] of a string *)

Module JsonFacts.
Import JS Relay EncodingFacts.

Lemma hex_digit_clean d : (d < 16)%N -> (0x20 <= hex_digit d < 0xD800)%N.
Proof.
  intros H. unfold hex_digit. destruct (N.ltb_spec d 10); lia.
Qed.

Lemma quote_unit_cases c :
  (c < 0x10000)%N ->
  (clean (quote_unit c) /\ (c < 0x20 \/ c = 34 \/ c = 92 \/ is_surrogate c = true)%N)
  \/ (quote_unit c = [c] /\ (0x20 <= c)%N /\ c <> 34%N /\ c <> 92%N
      /\ is_surrogate c = false).
Proof.
  intros Hc. unfold quote_unit.
  repeat match goal with
         | |- context [(c =? ?k)%N] =>
             destruct (N.eqb_spec c k);
             [subst c; left; split; [repeat constructor; lia | cbv; intuition lia]|]
         end.
  destruct (N.ltb_spec c 0x20); cbn [orb].
  - left. split; [|lia]. unfold unicode_escape.
    repeat constructor; try lia; apply hex_digit_clean; nlia.
  - destruct (is_surrogate c) eqn:Es.
    + left. split; [|auto]. unfold unicode_escape.
      repeat constructor; try lia; apply hex_digit_clean; nlia.
    + right. repeat split; auto.
Qed.

Lemma lex_silent m c m' r :
  lex_step m c = Some (m', []) -> lex m (c :: r) = lex m' r.
Proof.
  intros H. cbn [lex]. rewrite H. now destruct (lex m' r).
Qed.

Lemma hex_value_digit d : (d < 16)%N -> hex_value (hex_digit d) = Some d.
Proof.
  intros H.
  assert (Hd : In d [0;1;2;3;4;5;6;7;8;9;10;11;12;13;14;15]%N).
  { cbn [In]. lia. }
  cbn [In] in Hd.
  repeat (destruct Hd as [<-|Hd]; [reflexivity|]). contradiction.
Qed.

Lemma lex_string_raw acc c r :
  (0x20 <= c)%N -> c <> 34%N -> c <> 92%N ->
  lex (LexString acc) (c :: r) = lex (LexString (c :: acc)) r.
Proof.
  intros H1 H2 H3. apply lex_silent. cbn [lex_step].
  destruct (N.eqb_spec c 34); [contradiction|].
  destruct (N.eqb_spec c 92); [contradiction|].
  destruct (N.ltb_spec c 0x20); [lia | reflexivity].
Qed.

Lemma lex_unicode_escape acc c r :
  (c < 0x10000)%N ->
  lex (LexString acc) (unicode_escape c ++ r) = lex (LexString (c :: acc)) r.
Proof.
  intros Hc. unfold unicode_escape. cbn [app].
  rewrite (@lex_silent _ _ (LexEscape acc)) by reflexivity.
  rewrite (@lex_silent _ _ (LexUnicode acc 0 0)) by reflexivity.
  rewrite (@lex_silent _ _ (LexUnicode acc 1 ((c / 4096) mod 16)))
    by (cbn [lex_step]; rewrite hex_value_digit by nlia; reflexivity).
  rewrite (@lex_silent _ _ (LexUnicode acc 2 (16 * ((c / 4096) mod 16) + (c / 256) mod 16)))
    by (cbn [lex_step]; rewrite hex_value_digit by nlia; reflexivity).
  rewrite (@lex_silent _ _ (LexUnicode acc 3
             (16 * (16 * ((c / 4096) mod 16) + (c / 256) mod 16) + (c / 16) mod 16)))
    by (cbn [lex_step]; rewrite hex_value_digit by nlia; reflexivity).
  rewrite (@lex_silent _ _ (LexString (c :: acc))); [reflexivity|].
  cbn [lex_step]. rewrite hex_value_digit by nlia. cbn [Nat.eqb].
  do 4 f_equal. nlia.
Qed.

Lemma lex_quote_unit acc c r :
  (c < 0x10000)%N ->
  lex (LexString acc) (quote_unit c ++ r) = lex (LexString (c :: acc)) r.
Proof.
  intros Hc. unfold quote_unit.
  repeat match goal with
         | |- context [(c =? ?k)%N] =>
             destruct (N.eqb_spec c k);
             [subst c; cbn [app];
              rewrite (@lex_silent _ _ (LexEscape acc)) by reflexivity;
              now apply lex_silent|]
         end.
  destruct ((c <? 0x20)%N || is_surrogate c) eqn:E.
  - now apply lex_unicode_escape.
  - apply orb_false_iff in E as [E1 E2]. apply N.ltb_ge in E1.
    cbn [app]. now apply lex_string_raw.
Qed.

Lemma quote_units_pair c d t :
  quote_units (c :: d :: t)
  = if is_high_surrogate c && is_low_surrogate d
    then c :: d :: quote_units t
    else quote_unit c ++ quote_units (d :: t).
Proof. reflexivity. Qed.

Lemma quote_unit_good c :
  (c < 0x10000)%N ->
  well_formed (quote_unit c) /\ Forall (fun u => (0x20 <= u)%N) (quote_unit c).
Proof.
  intros Hc. destruct (quote_unit_cases Hc) as [[Hclean _]|(-> & H1 & _ & _ & Hs)].
  - split.
    + apply well_formed_plain. eapply Forall_impl; [|exact Hclean].
      cbn beta. intros; lia.
    + eapply Forall_impl; [|exact Hclean]. cbn beta. intros; lia.
  - split; [now repeat constructor | now repeat constructor].
Qed.

Lemma quote_units_good t :
  code_units t ->
  well_formed (quote_units t) /\ Forall (fun u => (0x20 <= u)%N) (quote_units t).
Proof.
  unfold code_units. induction t as [|c|c d t IH1 IH2] using list_ind2; intros Ht.
  - split; constructor.
  - inversion Ht; subst. now apply quote_unit_good.
  - inversion Ht as [|? ? Hc Ht1]; subst. inversion Ht1 as [|? ? Hd Ht2]; subst.
    rewrite quote_units_pair.
    destruct (is_high_surrogate c && is_low_surrogate d) eqn:E.
    + apply andb_true_iff in E as [E1 E2].
      destruct (IH1 Ht2) as [Hw Hp]. split.
      * now apply wf_pair.
      * apply in_range_spec in E1. apply in_range_spec in E2.
        repeat constructor; try lia. exact Hp.
    + destruct (quote_unit_good Hc) as [Hw1 Hp1].
      destruct (IH2 Ht1) as [Hw2 Hp2]. split.
      * now apply well_formed_app.
      * apply Forall_app. now split.
Qed.

Lemma lex_quote_units t : forall acc r,
  code_units t ->
  lex (LexString acc) (quote_units t ++ 34%N :: r)
  = match lex LexDefault r with
    | Some toks => Some (TString (rev acc ++ t) :: toks)
    | None => None
    end.
Proof.
  unfold code_units.
  induction t as [|c|c d t IH1 IH2] using list_ind2; intros acc r Ht.
  - cbn [quote_units app lex lex_step N.eqb Pos.eqb]. now rewrite app_nil_r.
  - inversion Ht; subst. cbn [quote_units]. rewrite lex_quote_unit by assumption.
    cbn [lex lex_step N.eqb Pos.eqb rev]. reflexivity.
  - inversion Ht as [|? ? Hc Ht1]; subst. inversion Ht1 as [|? ? Hd Ht2]; subst.
    rewrite quote_units_pair.
    destruct (is_high_surrogate c && is_low_surrogate d) eqn:E.
    + apply andb_true_iff in E as [E1 E2].
      apply in_range_spec in E1. apply in_range_spec in E2.
      cbn [app]. rewrite !lex_string_raw by lia.
      rewrite IH1 by assumption. cbn [rev]. now rewrite <- !app_assoc.
    + rewrite <- app_assoc, lex_quote_unit by assumption.
      rewrite IH2 by assumption. cbn [rev]. now rewrite <- !app_assoc.
Qed.

Lemma lex_app p : forall m r m' toks,
  lex_prefix m p = Some (m', toks) ->
  lex m (p ++ r)
  = match lex m' r with Some rest => Some (toks ++ rest) | None => None end.
Proof.
  induction p as [|c p IH]; intros m r m' toks H.
  - injection H as <- <-. cbn [app]. now destruct (lex m r).
  - cbn [lex_prefix] in H. cbn [app lex].
    destruct (lex_step m c) as [[m1 toks1]|]; [|discriminate].
    destruct (lex_prefix m1 p) as [[m2 toks2]|] eqn:E; [|discriminate].
    injection H as <- <-. rewrite (IH _ r _ _ E).
    destruct (lex m2 r); [|reflexivity]. now rewrite app_assoc.
Qed.

Lemma JSON_parse_stringify_content t :
  code_units t ->
  JSON_parse (stringify_content t) = Some (JObject [(lit "content", JString t)]).
Proof.
  intros Ht. unfold JSON_parse, stringify_content, QuoteJSONString.
  rewrite <- !app_assoc.
  change ([123; 34]%N ++ lit "content" ++ [34; 58]%N ++ [34%N]
          ++ quote_units t ++ [34%N] ++ [125%N])
    with (([123; 34]%N ++ lit "content" ++ [34; 58; 34]%N)
          ++ quote_units t ++ 34%N :: [125%N]).
  rewrite (@lex_app ([123; 34]%N ++ lit "content" ++ [34; 58; 34]%N)
             LexDefault (quote_units t ++ 34%N :: [125%N]) (LexString [])
             [TLBrace; TString (lit "content"); TColon] eq_refl).
  rewrite lex_quote_units by assumption. reflexivity.
Qed.

End JsonFacts.

(** ** Frames that are read whole *)

Module PipelineFacts.
Import JS Relay StreamConsumer JSFacts ConsumerFacts EncodingFacts JsonFacts.

Lemma frame_text_stringify nts t :
  code_units t -> frame_text nts (stringify_content t) = Some t.
Proof.
  intros Ht. unfold frame_text. now rewrite JSON_parse_stringify_content.
Qed.

Lemma process_line_frame nts st t :
  code_units t ->
  process_line nts st (data_prefix ++ stringify_content t)
  = (append_fragment st t, Normal).
Proof.
  intros Ht. rewrite process_line_data, frame_text_stringify by assumption.
  reflexivity.
Qed.

Lemma split_go_fuel (sep : jsstring) :
  sep <> [] ->
  forall f f' cur s,
    List.length s <= f -> List.length s <= f' ->
    split_go f sep cur s = split_go f' sep cur s.
Proof.
  intros Hsep. induction f as [|f IH]; intros f' cur s H1 H2.
  - destruct s; [|simpl in H1; lia].
    destruct f'; cbn [split_go]; now rewrite ?app_nil_r.
  - destruct s as [|c s].
    + destruct f'; cbn [split_go]; now rewrite ?app_nil_r.
    + destruct f' as [|f']; [simpl in H2; lia|].
      cbn [split_go]. destruct (startsWith sep (c :: s)).
      * f_equal. apply IH; rewrite length_skipn;
          destruct sep; [contradiction| |contradiction|]; simpl in *; lia.
      * apply IH; simpl in *; lia.
Qed.

Lemma split_line (line rest : jsstring) :
  Forall (fun u => u <> 10%N) line ->
  split frame_delimiter (line ++ frame_delimiter ++ rest)
  = line :: split frame_delimiter rest.
Proof.
  intros Hline. unfold split.
  assert (H : forall cur f,
             List.length (line ++ frame_delimiter ++ rest) <= f ->
             split_go f frame_delimiter cur (line ++ frame_delimiter ++ rest)
             = (rev cur ++ line)
               :: split_go (List.length rest) frame_delimiter [] rest).
  { induction Hline as [|x line Hx _ IH]; intros cur f Hf.
    - destruct f as [|f]; [simpl in Hf; lia|].
      cbn [app frame_delimiter split_go startsWith N.eqb Pos.eqb andb skipn List.length].
      rewrite app_nil_r. f_equal.
      apply split_go_fuel; [discriminate| |lia].
      cbn [app frame_delimiter List.length] in Hf. lia.
    - destruct f as [|f]; [simpl in Hf; lia|].
      cbn [app split_go].
      replace (startsWith frame_delimiter (x :: line ++ frame_delimiter ++ rest))
        with false.
      2:{ cbn [startsWith frame_delimiter].
          destruct (N.eqb_spec 10 x); [now elim Hx|reflexivity]. }
      rewrite IH by (cbn [app List.length] in Hf; lia).
      cbn [rev]. now rewrite <- app_assoc. }
  now rewrite (H [] _ (le_n _)).
Qed.

Lemma sse_content_line t rest :
  sse_frame t ++ rest = content_line t ++ frame_delimiter ++ rest.
Proof. unfold sse_frame, content_line. now rewrite <- !app_assoc. Qed.

Lemma content_line_good t :
  code_units t ->
  well_formed (content_line t) /\ Forall (fun u => u <> 10%N) (content_line t).
Proof.
  intros Ht. destruct (quote_units_good Ht) as [Hw Hp].
  unfold content_line, stringify_content, QuoteJSONString. split.
  - repeat apply well_formed_app; try assumption;
      apply well_formed_plain; repeat constructor.
  - repeat (apply Forall_app; split);
      try (repeat constructor; discriminate).
    eapply Forall_impl; [|exact Hp]. cbn beta. intros; lia.
Qed.

Lemma body_text_good texts finished :
  Forall code_units texts ->
  well_formed (body_text texts finished)
  /\ (forall c s, body_text texts finished = c :: s -> (c < 0x80)%N).
Proof.
  intros Ht. unfold body_text. split.
  - apply well_formed_app.
    + induction Ht as [|t texts Ht _ IH]; cbn [map concat]; [constructor|].
      apply well_formed_app; [|exact IH].
      rewrite <- (app_nil_r (sse_frame t)), sse_content_line.
      apply well_formed_app; [now apply content_line_good|].
      apply well_formed_plain. repeat constructor.
    + destruct finished; [|constructor].
      apply well_formed_plain. repeat constructor.
  - intros c s. destruct Ht as [|t texts Ht _].
    + destruct finished; cbn [map concat app]; [|discriminate].
      intros [= <- _]. reflexivity.
    + cbn [map concat]. unfold sse_frame at 1.
      rewrite <- !app_assoc. intros [= <- _]. reflexivity.
Qed.

Lemma decode_encode_body texts finished :
  Forall code_units texts ->
  TextDecoder_decode (utf8_encode (body_text texts finished))
  = body_text texts finished.
Proof.
  intros Ht. destruct (body_text_good finished Ht) as [Hw Hh].
  destruct (body_text texts finished) as [|c s] eqn:E; [reflexivity|].
  apply decode_encode; [assumption|]. now apply (Hh c s).
Qed.

Lemma split_body texts finished :
  Forall code_units texts ->
  split frame_delimiter (body_text texts finished)
  = map content_line texts
    ++ (if finished then [sentinel_line; []] else [[]]).
Proof.
  intros Ht. unfold body_text.
  induction Ht as [|t texts Ht _ IH]; cbn [map concat app].
  - destruct finished; reflexivity.
  - rewrite <- app_assoc, sse_content_line, split_line by now apply content_line_good.
    now rewrite IH.
Qed.

Lemma process_lines_frames nts texts : forall st rest,
  Forall code_units texts ->
  process_lines nts st (map content_line texts ++ rest)
  = process_lines nts (fold_left append_fragment texts st) rest.
Proof.
  induction texts as [|t texts IH]; intros st rest Ht; [reflexivity|].
  inversion Ht; subst. cbn [map app process_lines fold_left].
  unfold content_line at 1. rewrite process_line_frame by assumption.
  now apply IH.
Qed.

Lemma whole_frames_chunk nts st texts finished :
  Forall code_units texts ->
  process_chunk nts st (utf8_encode (body_text texts finished))
  = if finished then finalize (fold_left append_fragment texts st)
    else fold_left append_fragment texts st.
Proof.
  intros Ht. unfold process_chunk.
  rewrite decode_encode_body, split_body, process_lines_frames by assumption.
  destruct finished.
  - cbn [process_lines]. now rewrite process_line_sentinel.
  - cbn [process_lines]. now rewrite process_line_other.
Qed.

Lemma fold_append_fragment texts : forall st,
  accumulatedContent (fold_left append_fragment texts st)
  = accumulatedContent st ++ concat texts
  /\ input (ui (fold_left append_fragment texts st)) = input (ui st)
  /\ messages (ui (fold_left append_fragment texts st)) = messages (ui st)
  /\ isTyping (ui (fold_left append_fragment texts st)) = isTyping (ui st).
Proof.
  induction texts as [|t texts IH]; intros st; cbn [fold_left concat].
  - now rewrite app_nil_r.
  - destruct (IH (append_fragment st t)) as (H1 & H2 & H3 & H4).
    rewrite H1, H2, H3, H4. cbn. now rewrite <- app_assoc.
Qed.

Lemma whole_frames_reads nts s groups last :
  Forall (Forall code_units) groups -> Forall code_units last ->
  read_loop nts {| ui := s; accumulatedContent := [] |}
    (map (fun g => ReadValue (utf8_encode (body_text g false))) groups
     ++ [ReadValue (utf8_encode (body_text last true))])
  = ({| ui := {| input := input s;
                 messages := messages s
                             ++ [assistant_message (concat (concat groups ++ last))];
                 isTyping := false;
                 currentTypingMessage := [] |};
        accumulatedContent := concat (concat groups ++ last) |}, None).
Proof.
  intros Hg Hl.
  assert (H : forall st,
             read_loop nts st
               (map (fun g => ReadValue (utf8_encode (body_text g false))) groups
                ++ [ReadValue (utf8_encode (body_text last true))])
             = (finalize (fold_left append_fragment (concat groups ++ last) st),
                None)).
  { induction Hg as [|g groups Hg _ IH]; intros st.
    - cbn [map app read_loop concat]. now rewrite whole_frames_chunk.
    - cbn [map app read_loop concat]. rewrite whole_frames_chunk by assumption.
      rewrite IH. now rewrite <- app_assoc, !fold_left_app. }
  rewrite H. f_equal. unfold finalize.
  destruct (fold_append_fragment (concat groups ++ last)
              {| ui := s; accumulatedContent := [] |}) as (H1 & H2 & H3 & H4).
  cbn in H1, H2, H3, H4. rewrite H1.
  unfold setCurrentTypingMessage, appendMessage, setIsTyping. cbn.
  now rewrite H2, H3.
Qed.

End PipelineFacts.

(** ** Claims about the relay and the consumer together *)

Module PipelineClaims.
Import JS Relay StreamConsumer JSFacts RelayFacts ConsumerFacts.
Import EncodingFacts PipelineFacts.

Lemma prefix_is_firstn (A : Type) (c rest l : list A) :
  c ++ rest = l ->
  c = firstn (List.length c) l /\ rest = skipn (List.length c) l.
Proof.
  intros <-.
  now rewrite firstn_app, Nat.sub_diag, firstn_all, app_nil_r,
    skipn_app, Nat.sub_diag, skipn_all.
Qed.



(** C1, as stated, fails: when a read ends inside a frame, the frame is
    lost.  Here the bytes of the three frames and the sentinel are cut
    after ten bytes, and the finalized message is [ world!]. *)
Lemma hello_world_cut_inside_a_frame :
  concat Samples.hello_cut_reads = Samples.hello_bytes
  /\ messages (ui (fst (read_loop (fun l => l) Samples.loop_start
                                  (map ReadValue Samples.hello_cut_reads))))
     = [assistant_message (lit " world!")]
  /\ messages (ui (fst (read_loop (fun l => l) Samples.loop_start
                                  (map ReadValue Samples.hello_cut_reads))))
     <> [assistant_message (lit "Hello world!")].
Proof.
  split; [reflexivity|]. split; [reflexivity | discriminate].
Qed.

Section HelloWorld.

Variable nts : jsstring -> jsstring.
Variable s : State.

(** The state of the loop after the first [k] bytes of the stream. *)
Local Abbreviation after k :=
  (process_chunk nts {| ui := s; accumulatedContent := [] |}
                 (firstn k Samples.hello_bytes)).

(** A read that starts and ends on a frame boundary takes the loop from
    the state after the frames before it to the state after its own
    frames. *)
Lemma hello_read (k j : nat) :
  In k Samples.hello_boundaries -> j <= 92 - k ->
  ends_on_frame_boundary (firstn j (skipn k Samples.hello_bytes)) = true ->
  In (k + j) Samples.hello_boundaries
  /\ process_chunk nts (after k) (firstn j (skipn k Samples.hello_bytes))
     = after (k + j).
Proof.
  intros Hk Hj Ha.
  assert (Hin : In j (filter
                        (fun j => ends_on_frame_boundary
                                    (firstn j (skipn k Samples.hello_bytes)))
                        (seq 0 (93 - k)))).
  { apply filter_In. split; [|exact Ha]. apply in_seq.
    unfold Samples.hello_boundaries in Hk. cbn [In] in Hk. lia. }
  clear Ha Hj.
  unfold Samples.hello_boundaries in Hk. cbn [In] in Hk.
  repeat (destruct Hk as [<-|Hk]); [..|contradiction];
    vm_compute in Hin;
    repeat (destruct Hin as [<-|Hin]); try contradiction;
    (split; [vm_compute; tauto | vm_compute; reflexivity]).
Qed.

Lemma hello_reads (chunks : list bytes) :
  forall k,
    In k Samples.hello_boundaries ->
    concat chunks = skipn k Samples.hello_bytes ->
    Forall (fun c => ends_on_frame_boundary c = true) chunks ->
    read_loop nts (after k) (map ReadValue chunks) = (after 92, None).
Proof.
  induction chunks as [|c chunks IH]; intros k Hk Hcat Hal.
  - cbn [concat] in Hcat. cbn [map read_loop].
    assert (k = 92).
    { apply (f_equal (@List.length _)) in Hcat.
      rewrite length_skipn in Hcat.
      change (List.length Samples.hello_bytes) with 92 in Hcat.
      cbn [List.length] in Hcat.
      unfold Samples.hello_boundaries in Hk. cbn [In] in Hk. lia. }
    now subst.
  - cbn [concat] in Hcat. inversion Hal as [|? ? Hc Hrest]; subst.
    apply prefix_is_firstn in Hcat as [Hc1 Hc2].
    rewrite skipn_skipn in Hc2.
    assert (Hlen : List.length c <= 92 - k).
    { apply (f_equal (@List.length _)) in Hc1.
      rewrite length_firstn, length_skipn in Hc1.
      change (List.length Samples.hello_bytes) with 92 in Hc1. lia. }
    rewrite Hc1 in Hc.
    destruct (@hello_read k _ Hk Hlen Hc) as [Hin Hstep].
    cbn [map read_loop]. rewrite Hc1 at 1. rewrite Hstep.
    apply IH; auto. rewrite Hc2. f_equal. lia.
Qed.

End HelloWorld.

(** C1, amended. For the frames [Hello], [ world], [!] followed by the
    sentinel, and for every partition of the bytes of the stream into
    reads that each end on a frame boundary, the consumer appends one
    assistant message to the history, and it is [Hello world!]. *)
Theorem hello_world_is_finalized :
  forall (nts : jsstring -> jsstring) (s : State) (chunks : list bytes),
    concat chunks = Samples.hello_bytes ->
    Forall (fun c => ends_on_frame_boundary c = true) chunks ->
    read_loop nts {| ui := s; accumulatedContent := [] |}
              (map ReadValue chunks)
    = ({| ui := {| input := input s;
                   messages := messages s
                               ++ [assistant_message (lit "Hello world!")];
                   isTyping := false;
                   currentTypingMessage := [] |};
          accumulatedContent := lit "Hello world!" |}, None).
Proof.
  intros nts s chunks Hcat Hal.
  exact (@hello_reads nts s chunks 0 (or_introl eq_refl) Hcat Hal).
Qed.

Lemma hello_world_is_finalized_witness :
  messages
    (ui (fst (read_loop (fun l => l) Samples.loop_start
                (map ReadValue
                   [firstn 27 Samples.hello_bytes;
                    skipn 27 Samples.hello_bytes]))))
  = [assistant_message (lit "Hello world!")].
Proof.
  refine (f_equal (fun r => messages (ui (fst r)))
                  (@hello_world_is_finalized
                     (fun l => l) Samples.blank_page
                     [firstn 27 Samples.hello_bytes;
                      skipn 27 Samples.hello_bytes] eq_refl _)).
  repeat constructor.
Defined.

(** C2, as stated, fails: [é] is sent as the bytes C3 A9; when a read ends
    between them, each read is decoded on its own, the two bytes become two
    U+FFFD, the frame is dropped, and the finalized message is empty. *)
Lemma split_character_is_not_recovered :
  concat Samples.eacute_reads = Samples.eacute_bytes
  /\ TextDecoder_decode Samples.eacute_bytes
     = sse_frame [233%N] ++ done_frame
  /\ concat (map TextDecoder_decode Samples.eacute_reads)
     = lit "data: {" ++ [34%N] ++ lit "content" ++ [34; 58; 34]%N
       ++ [0xFFFD; 0xFFFD]%N ++ [34%N] ++ lit "}" ++ [10; 10]%N ++ done_frame
  /\ messages (ui (fst (read_loop (fun l => l) Samples.loop_start
                                  (map ReadValue Samples.eacute_reads))))
     = [assistant_message []]
  /\ messages (ui (fst (read_loop (fun l => l) Samples.loop_start
                                  (map ReadValue Samples.eacute_reads))))
     <> [assistant_message [233%N]].
Proof.
  split; [reflexivity|]. split; [reflexivity|]. split; [reflexivity|].
  split; [reflexivity | discriminate].
Qed.

(** C2, amended. When every read holds whole frames, the accumulated
    text is the text the relay sent, whatever characters it holds: for
    all fragments, grouped into reads in any way, the last read ending with
    the sentinel, the consumer appends one assistant message, the
    concatenation of the fragments.  A multi-byte character whose bytes are
    cut by a read boundary is not recovered: the two parts are decoded
    separately and give U+FFFD only, one for the first part and one for
    each byte of the second. *)
Theorem whole_frames_are_received_and_cut_characters_are_lost :
  (forall (nts : jsstring -> jsstring) (s : State)
          (groups : list (list jsstring)) (last : list jsstring),
      Forall (Forall code_units) groups ->
      Forall code_units last ->
      read_loop nts {| ui := s; accumulatedContent := [] |}
        (map (fun g => ReadValue (utf8_encode (body_text g false))) groups
         ++ [ReadValue (utf8_encode (body_text last true))])
      = ({| ui := {| input := input s;
                     messages :=
                       messages s
                       ++ [assistant_message (concat (concat groups ++ last))];
                     isTyping := false;
                     currentTypingMessage := [] |};
            accumulatedContent := concat (concat groups ++ last) |}, None))
  /\ (forall (cp : N) (k : nat),
        is_scalar cp = true ->
        (0x80 <= cp)%N ->
        0 < k < List.length (utf8_encode_cp cp) ->
        TextDecoder_decode (firstn k (map byte_of_N (utf8_encode_cp cp)))
        ++ TextDecoder_decode (skipn k (map byte_of_N (utf8_encode_cp cp)))
        = repeat 0xFFFD%N (1 + (List.length (utf8_encode_cp cp) - k))).
Proof.
  split.
  - intros nts s groups last Hg Hl. now apply whole_frames_reads.
  - intros cp k Hs Hm Hk. now apply split_char_garbled.
Qed.

Lemma whole_frames_are_received_and_cut_characters_are_lost_witness :
  messages
    (ui (fst (read_loop (fun l => l) Samples.loop_start
                [ReadValue (utf8_encode (body_text [[233%N]; lit " ok"] false));
                 ReadValue (utf8_encode (body_text [[0x20AC; 0xD83D; 0xDE00]%N] true))])))
  = [assistant_message ([233%N] ++ lit " ok" ++ [0x20AC; 0xD83D; 0xDE00]%N)]
  /\ TextDecoder_decode (firstn 1 (map byte_of_N (utf8_encode_cp 233)))
     ++ TextDecoder_decode (skipn 1 (map byte_of_N (utf8_encode_cp 233)))
     = [0xFFFD; 0xFFFD]%N.
Proof.
  split.
  - refine (f_equal (fun r => messages (ui (fst r)))
                    (proj1 whole_frames_are_received_and_cut_characters_are_lost
                       (fun l => l) Samples.blank_page
                       [[[233%N]; lit " ok"]] [[0x20AC; 0xD83D; 0xDE00]%N] _ _)).
    + repeat constructor.
    + repeat constructor.
  - refine (proj2 whole_frames_are_received_and_cut_characters_are_lost
                  233%N 1 eq_refl _ _).
    + vm_compute. discriminate.
    + vm_compute. lia.
Defined.

End PipelineClaims.

(** * Further properties *)

(** ** White space *)

Module TrimFacts.
Import JS JSFacts.

Lemma trimStart_suffix (s : jsstring) : exists p, s = p ++ trimStart s.
Proof.
  induction s as [|c s [p IH]]; [now exists []|]. cbn [trimStart].
  destruct (is_js_space c).
  - exists (c :: p). cbn [app]. now rewrite <- IH.
  - now exists [].
Qed.

Lemma trimStart_head (s : jsstring) (c : N) (r : jsstring) :
  trimStart s = c :: r -> is_js_space c = false.
Proof.
  induction s as [|x s IH]; cbn [trimStart]; [discriminate|].
  destruct (is_js_space x) eqn:E; [exact IH|].
  intros [= <- _]. exact E.
Qed.

Lemma trimStart_fixed (c : N) (s : jsstring) :
  is_js_space c = false -> trimStart (c :: s) = c :: s.
Proof. intros H. cbn [trimStart]. now rewrite H. Qed.

Lemma trimStart_idem (s : jsstring) : trimStart (trimStart s) = trimStart s.
Proof.
  destruct (trimStart s) as [|c r] eqn:E; [reflexivity|].
  apply trimStart_fixed. exact (trimStart_head _ E).
Qed.

(** [trim] changes nothing in a string that is already trimmed. *)
Lemma trim_idem (s : jsstring) : trim (trim s) = trim s.
Proof.
  unfold trim. set (t := trimStart s). set (u := trimStart (rev t)).
  assert (Hu : trimStart (rev u) = rev u).
  { destruct (trimStart_suffix (rev t)) as [p Hp]. fold u in Hp.
    apply (f_equal (@rev N)) in Hp. rewrite rev_involutive, rev_app_distr in Hp.
    destruct (rev u) as [|c r] eqn:E; [reflexivity|].
    apply trimStart_fixed. cbn [app] in Hp.
    exact (@trimStart_head s c (r ++ rev p) Hp). }
  rewrite Hu, rev_involutive. unfold u. now rewrite trimStart_idem.
Qed.




End TrimFacts.

(** ** Bytes and text *)

Module EncodingProperties.
Import JS JSFacts EncodingFacts.

Lemma code_points_head (s : jsstring) :
  well_formed s ->
  match code_points s with
  | [] => s = []
  | cp :: _ =>
      exists c r,
        s = c :: r
        /\ ((cp = c /\ is_surrogate c = false)
            \/ ((0x10000 <= cp)%N /\ is_high_surrogate c = true))
  end.
Proof.
  intros H. destruct H as [|c s Hc Hs Hw|hi lo s Hh Hl Hw].
  - reflexivity.
  - rewrite code_points_unit by assumption. exists c, s. auto.
  - rewrite code_points_pair by assumption. exists hi, (lo :: s).
    split; [reflexivity|]. right. split; [|assumption].
    unfold pair_surrogates. lia.
Qed.

(** X1. What the relay writes as text reaches the decoder as bytes.  For a
    text without lone surrogate, decoding the bytes of the whole text in
    one read gives the text back, whatever characters it holds, except
    that a U+FEFF at the very start is dropped, as a byte order mark. *)
Theorem decoding_a_whole_text :
  forall s : jsstring,
    well_formed s ->
    TextDecoder_decode (utf8_encode s)
    = match s with
      | c :: r => if (c =? 0xFEFF)%N then r else s
      | [] => []
      end.
Proof.
  intros s Hw. unfold TextDecoder_decode.
  destruct (well_formed_roundtrip Hw) as [Hrun Hback]. rewrite Hrun.
  pose proof (code_points_head Hw) as Hh.
  destruct (code_points s) as [|cp cps].
  - subst s. reflexivity.
  - destruct Hh as (c & r & -> & Hcp). cbn [strip_bom].
    destruct Hcp as [[-> Hc]|[Hbig Hhi]].
    + destruct (N.eqb_spec c 0xFEFF) as [->|Hne]; [|exact Hback].
      cbn [flat_map utf16 N.ltb N.compare Pos.compare Pos.compare_cont app]
        in Hback.
      now injection Hback.
    + destruct (N.eqb_spec cp 0xFEFF) as [->|_]; [lia|].
      apply in_range_spec in Hhi.
      destruct (N.eqb_spec c 0xFEFF) as [->|_]; [lia | exact Hback].
Qed.

Lemma decoding_a_whole_text_witness :
  TextDecoder_decode (utf8_encode [0xFEFF; 233; 0xD83D; 0xDE00]%N)
  = [233; 0xD83D; 0xDE00]%N.
Proof.
  refine (@decoding_a_whole_text [0xFEFF; 233; 0xD83D; 0xDE00]%N _).
  apply wf_unit; [reflexivity | reflexivity |].
  apply wf_unit; [reflexivity | reflexivity |].
  apply wf_pair; [reflexivity | reflexivity | constructor].
Defined.

End EncodingProperties.

(** ** The traces of the relay *)

Module RelayProperties.
Import JS Relay JSFacts RelayFacts RelayTrace.


Lemma sse_frame_not_done (t : jsstring) : sse_frame t <> done_frame.
Proof. unfold sse_frame, done_frame, stringify_content. discriminate. Qed.

Lemma ResWrite_inj (a b : jsstring) : ResWrite a = ResWrite b -> a = b.
Proof.
  intros H.
  exact (f_equal (fun e => match e with ResWrite d => d | _ => [] end) H).
Qed.

Lemma In_frames (f : Chunk -> jsstring) (chunks : list Chunk) (e : event) :
  In e (map (fun c => ResWrite (f c)) chunks) ->
  exists c, In c chunks /\ e = ResWrite (f c).
Proof.
  intros H. apply in_map_iff in H as (c & <- & Hc). now exists c.
Qed.

Section WithProvider.

Variable provider : list json -> completion.


End WithProvider.


(** X3. Once a conversation is accepted, the status 200 and the stream headers
    are written first.  The sentinel frame is written exactly when the
    provider's stream ends without failure, and only then the response is
    ended.  When the provider fails (at the request or in the middle of the
    stream) the relay calls for a status 500 although the headers are
    already sent, writes no sentinel and never ends the response. *)
Theorem relay_sentinel_only_on_clean_end :
  forall (provider : list json -> completion) (msgs : list json),
    filter valid_message msgs <> [] ->
    let sent := system_message :: filter valid_message msgs in
    let trace := handler provider (post msgs) in
    hd_error trace = Some (ResWriteHead 200 sse_headers)
    /\ (In (ResWrite done_frame) trace
        <-> exists chunks, provider sent = CreateResolves chunks None)
    /\ (In ResEnd trace <-> In (ResWrite done_frame) trace)
    /\ ((exists message, In (ResStatusJson 500 message) trace)
        <-> ~ In ResEnd trace).
Proof.
  intros provider msgs Hv sent trace. subst trace.
  rewrite (@handler_accepts provider (post msgs) msgs eq_refl eq_refl Hv).
  cbv zeta. fold sent.
  set (frames := fun chunks : list Chunk =>
                   map (fun chunk => ResWrite (sse_frame (chunk_content chunk)))
                       chunks).
  assert (Hnd : forall chunks, ~ In (ResWrite done_frame) (frames chunks)).
  { intros chunks H. apply In_frames in H as (c & _ & H).
    apply ResWrite_inj in H. symmetry in H. revert H.
    apply sse_frame_not_done. }
  assert (Hne : forall chunks, ~ In ResEnd (frames chunks)).
  { intros chunks H. apply In_frames in H as (c & _ & H). discriminate H. }
  assert (Hns : forall chunks m, ~ In (ResStatusJson 500 m) (frames chunks)).
  { intros chunks m H. apply In_frames in H as (c & _ & H). discriminate H. }
  split; [reflexivity|].
  destruct (provider sent) as [e|chunks [e|]]; try fold (frames chunks).
  - split; [|split].
    + split.
      * cbn. intros [H|[H|[H|[H|[]]]]]; discriminate H.
      * intros [chunks H]. discriminate H.
    + cbn. split; intros [H|[H|[H|[H|[]]]]]; discriminate H.
    + split.
      * intros _. cbn. intros [H|[H|[H|[H|[]]]]]; discriminate H.
      * intros _. eexists. cbn. do 3 right. left. reflexivity.
  - split; [|split].
    + split.
      * cbn [app In]. rewrite in_app_iff. cbn [In].
        intros [H|[H|[H|[H|[H|[]]]]]]; try discriminate H.
        now apply Hnd in H.
      * intros [c H]. discriminate H.
    + cbn [app In]. rewrite !in_app_iff. cbn [In].
      split; intros [H|[H|[H|[H|[H|[]]]]]]; try discriminate H.
      * now apply Hne in H.
      * now apply Hnd in H.
    + split.
      * intros _. cbn [app In]. rewrite in_app_iff. cbn [In].
        intros [H|[H|[H|[H|[H|[]]]]]]; try discriminate H.
        now apply Hne in H.
      * intros _. eexists. cbn [app In]. rewrite in_app_iff. cbn [In].
        do 4 right. left. reflexivity.
  - split; [|split].
    + split; [now exists chunks|].
      intros _. cbn [app In]. rewrite in_app_iff. cbn [In]. tauto.
    + cbn [app In]. rewrite !in_app_iff. cbn [In]. tauto.
    + split.
      * intros [m H]. exfalso. revert H. cbn [app In]. rewrite in_app_iff.
        cbn [In]. intros [H|[H|[H|[H|[H|[]]]]]]; try discriminate H.
        now apply Hns in H.
      * intros H. exfalso. apply H. cbn [app In]. rewrite in_app_iff.
        cbn [In]. tauto.
Qed.

Lemma relay_sentinel_only_on_clean_end_witness :
  ~ In ResEnd
      (handler (fun _ => CreateResolves Samples.provider_chunks (Some (lit "reset")))
               (post Samples.conversation))
  /\ exists message,
      In (ResStatusJson 500 message)
         (handler (fun _ => CreateResolves Samples.provider_chunks (Some (lit "reset")))
                  (post Samples.conversation)).
Proof.
  assert (Hv : filter valid_message Samples.conversation <> [])
    by discriminate.
  destruct (@relay_sentinel_only_on_clean_end
              (fun _ => CreateResolves Samples.provider_chunks (Some (lit "reset")))
              Samples.conversation Hv) as (_ & H1 & H2 & H3).
  assert (Hn : ~ In ResEnd
                 (handler (fun _ => CreateResolves Samples.provider_chunks
                                      (Some (lit "reset")))
                          (post Samples.conversation))).
  { intros H. apply H2, H1 in H. destruct H as [chunks H]. discriminate H. }
  split; [exact Hn|]. now apply H3.
Defined.



End RelayProperties.

(** ** The frames on the wire *)

Module FrameProperties.
Import JS Relay StreamConsumer JSFacts EncodingFacts JsonFacts PipelineFacts.

(** X5. Whatever the fragment holds (quotes, line feeds, control characters,
    lone surrogates), the frame the relay writes for it is one line that
    starts with [data: ], followed by an empty line: the payload holds
    no line feed, is not the sentinel, parses as JSON to an object whose
    only member is the fragment under [content], and the frame is
    unchanged by its encoding to bytes and back. *)
Theorem frames_are_single_data_lines :
  forall t : jsstring,
    code_units t ->
    exists payload,
      sse_frame t = lit "data: " ++ payload ++ [10; 10]%N
      /\ Forall (fun u => u <> 10%N) payload
      /\ payload <> lit "[DONE]"
      /\ JSON_parse payload = Some (JObject [(lit "content", JString t)])
      /\ TextDecoder_decode (utf8_encode (sse_frame t)) = sse_frame t.
Proof.
  intros t Ht. exists (stringify_content t).
  split; [reflexivity|]. split; [|split; [|split]].
  - destruct (content_line_good Ht) as [_ H]. unfold content_line in H.
    now apply Forall_app in H as [_ H].
  - unfold stringify_content. discriminate.
  - now apply JSON_parse_stringify_content.
  - replace (sse_frame t) with (body_text [t] false)
      by (unfold body_text; cbn [map concat]; now rewrite !app_nil_r).
    apply decode_encode_body. constructor; [assumption|constructor].
Qed.

Lemma frames_are_single_data_lines_witness :
  exists payload,
    sse_frame [34; 10; 0xDC00]%N = lit "data: " ++ payload ++ [10; 10]%N
    /\ Forall (fun u => u <> 10%N) payload
    /\ payload <> lit "[DONE]"
    /\ JSON_parse payload
       = Some (JObject [(lit "content", JString [34; 10; 0xDC00]%N)])
    /\ TextDecoder_decode (utf8_encode (sse_frame [34; 10; 0xDC00]%N))
       = sse_frame [34; 10; 0xDC00]%N.
Proof.
  refine (@frames_are_single_data_lines [34; 10; 0xDC00]%N _).
  repeat constructor.
Defined.

End FrameProperties.

(** ** The stream consumer, whatever the stream *)

Module ConsumerProperties.
Import JS StreamConsumer JSFacts ConsumerFacts Page TrimFacts.

Section WithNumbers.

Variable nts : jsstring -> jsstring.

(** No line changes [input]. *)
Lemma process_line_input (st st' : loop_state) (line : jsstring) (c : flow) :
  process_line nts st line = (st', c) -> input (ui st') = input (ui st).
Proof.
  unfold process_line.
  destruct (startsWith data_prefix line); [|now intros [= <- _]].
  destruct (str_eqb (slice_from 6 line) sentinel); [now intros [= <- _]|].
  destruct (frame_text nts (slice_from 6 line)); now intros [= <- _].
Qed.

Lemma process_lines_input (lines : list jsstring) : forall st,
  input (ui (process_lines nts st lines)) = input (ui st).
Proof.
  induction lines as [|l lines IH]; intros st; [reflexivity|].
  cbn [process_lines].
  destruct (process_line nts st l) as [st' [|]] eqn:E.
  - rewrite IH. exact (process_line_input _ _ E).
  - exact (process_line_input _ _ E).
Qed.

Lemma read_loop_input (stream : list read) : forall st,
  input (ui (fst (read_loop nts st stream))) = input (ui st).
Proof.
  induction stream as [|[value|e] stream IH]; intros st; try reflexivity.
  cbn [read_loop]. rewrite IH. apply process_lines_input.
Qed.

(** A line that is not the sentinel line changes the typing message at
    most. *)
Lemma process_line_keeps (st st' : loop_state) (line : jsstring) (c : flow) :
  process_line nts st line = (st', c) ->
  str_eqb line sentinel_line = false ->
  c = Normal
  /\ messages (ui st') = messages (ui st)
  /\ isTyping (ui st') = isTyping (ui st).
Proof.
  rewrite <- sentinel_line_test. unfold process_line.
  destruct (startsWith data_prefix line); cbn [andb].
  - destruct (str_eqb (slice_from 6 line) sentinel); [discriminate|].
    destruct (frame_text nts (slice_from 6 line));
      intros [= <- <-] _; auto.
  - intros [= <- <-] _; auto.
Qed.

Lemma count_sentinels_cons (l : jsstring) (lines : list jsstring) :
  count_sentinels (l :: lines) = 0 ->
  str_eqb l sentinel_line = false /\ count_sentinels lines = 0.
Proof.
  unfold count_sentinels. cbn [filter].
  destruct (str_eqb l sentinel_line); [discriminate|auto].
Qed.

Lemma process_lines_keeps (lines : list jsstring) : forall st,
  count_sentinels lines = 0 ->
  messages (ui (process_lines nts st lines)) = messages (ui st)
  /\ isTyping (ui (process_lines nts st lines)) = isTyping (ui st).
Proof.
  induction lines as [|l lines IH]; intros st Hc; [auto|].
  apply count_sentinels_cons in Hc as [Hl Hc]. cbn [process_lines].
  destruct (process_line nts st l) as [st' c] eqn:E.
  destruct (process_line_keeps _ _ E Hl) as (-> & Hm & Ht).
  destruct (IH st' Hc) as [Hm' Ht']. split; congruence.
Qed.

Lemma read_loop_keeps (values : list bytes) : forall st,
  Forall (fun v => count_sentinels
                     (split frame_delimiter (TextDecoder_decode v)) = 0)
         values ->
  snd (read_loop nts st (map ReadValue values)) = None
  /\ messages (ui (fst (read_loop nts st (map ReadValue values))))
     = messages (ui st)
  /\ isTyping (ui (fst (read_loop nts st (map ReadValue values))))
     = isTyping (ui st).
Proof.
  induction values as [|v values IH]; intros st Hv; [auto|].
  inversion Hv as [|? ? H1 H2]; subst. cbn [map read_loop].
  destruct (IH (process_chunk nts st v) H2) as (Hs & Hm & Ht).
  destruct (@process_lines_keeps _ st H1) as [Hm2 Ht2].
  unfold process_chunk in *. repeat split; congruence.
Qed.

(** Either every read gives a value, or the loop stops at the first read
    that fails. *)
Lemma read_loop_thrown (stream : list read) : forall st,
  (exists values, stream = map ReadValue values)
  \/ exists e, snd (read_loop nts st stream) = Some e.
Proof.
  induction stream as [|[value|e] stream IH]; intros st.
  - left. now exists [].
  - cbn [read_loop].
    destruct (IH (process_chunk nts st value)) as [[values ->]|[e He]].
    + left. now exists (value :: values).
    + right. now exists e.
  - right. now exists e.
Qed.

(** In the render that sees the current state, [handleSubmit_of] is
    [handleSubmit]. *)
Lemma handleSubmit_of_same (net : fetch_outcome) (s : State) :
  handleSubmit_of nts s net s = handleSubmit nts net s.
Proof. reflexivity. Qed.

Lemma handleSubmit_submits (net : fetch_outcome) (s : State) :
  trim (input s) <> [] ->
  handleSubmit nts net s
  = let (s2, thrown) := try_block nts net (submitted s) in
    match thrown with
    | None => s2
    | Some e => catch_block e s2
    end.
Proof.
  intros H. unfold handleSubmit. now rewrite (str_eqb_neq H).
Qed.

Lemma try_block_input (net : fetch_outcome) (s1 : State) :
  input (fst (try_block nts net s1)) = input s1.
Proof.
  unfold try_block. destruct net as [e|[|] [stream|]]; try reflexivity.
  cbn [negb].
  pose proof (read_loop_input stream {| ui := s1; accumulatedContent := [] |})
    as H.
  destruct (read_loop nts _ stream) as [st thrown]. exact H.
Qed.

End WithNumbers.

(** X6. Unless the response is OK, has a body and every read of it succeeds,
    [handleSubmit] ends with the typing indicator off, the input empty,
    and a message of the assistant that holds the text of the error as
    the last message of the history: the last bubble of the chat shows
    it. *)
Theorem failure_ends_with_error_bubble :
  forall (nts : jsstring -> jsstring) (net : fetch_outcome) (s : State),
    trim (input s) <> [] ->
    (exists values, net = FetchResolves true (Some (map ReadValue values)))
    \/ exists e before,
        messages (handleSubmit nts net s)
        = before ++ [assistant_message (lit "错误: " ++ e)]
        /\ isTyping (handleSubmit nts net s) = false
        /\ input (handleSubmit nts net s) = []
        /\ chat_container (handleSubmit nts net s)
           = map (fun msg => MessageBubble (role msg)
                               (Extractor.renderMessage (content msg)))
                 before
             ++ [MessageBubble assistant
                   (Extractor.renderMessage (lit "错误: " ++ e))].
Proof.
  intros nts net s Hin. rewrite (@handleSubmit_submits nts net s Hin).
  pose proof (try_block_input nts net (submitted s)) as Hi.
  assert (Hcatch : forall e s2,
             input s2 = [] ->
             exists e0 before,
               messages (catch_block e s2)
               = before ++ [assistant_message (lit "错误: " ++ e0)]
               /\ isTyping (catch_block e s2) = false
               /\ input (catch_block e s2) = []
               /\ chat_container (catch_block e s2)
                  = map (fun msg => MessageBubble (role msg)
                                      (Extractor.renderMessage (content msg)))
                        before
                    ++ [MessageBubble assistant
                          (Extractor.renderMessage (lit "错误: " ++ e0))]).
  { intros e s2 H2. exists e, (messages s2).
    split; [reflexivity|]. split; [reflexivity|]. split; [exact H2|].
    unfold chat_container, catch_block. cbn.
    now rewrite map_app, app_nil_r. }
  destruct net as [e|[|] [stream|]].
  - right. apply Hcatch. reflexivity.
  - destruct (read_loop_thrown nts stream
                {| ui := submitted s; accumulatedContent := [] |})
      as [[values ->]|[e He]].
    + left. now exists values.
    + right. unfold try_block in *. cbn [negb] in *.
      destruct (read_loop nts _ stream) as [st thrown].
      cbn [snd fst] in *. subst thrown. apply Hcatch. exact Hi.
  - right. apply Hcatch. reflexivity.
  - right. apply Hcatch. reflexivity.
  - right. apply Hcatch. reflexivity.
Qed.

Lemma failure_ends_with_error_bubble_witness :
  isTyping (handleSubmit (fun l => l) (FetchResolves false None)
              (setInput (lit " hi ") Samples.blank_page)) = false
  /\ messages (handleSubmit (fun l => l) (FetchResolves false None)
                 (setInput (lit " hi ") Samples.blank_page))
     = [{| role := user; content := lit "hi" |};
        assistant_message (lit "错误: 网络响应不正常")].
Proof.
  destruct (@failure_ends_with_error_bubble
              (fun l => l) (FetchResolves false None)
              (setInput (lit " hi ") Samples.blank_page))
    as [[values H]|(e & before & Hm & Ht & _)].
  - discriminate.
  - discriminate H.
  - split; [exact Ht | reflexivity].
Defined.

(** X7. When the stream ends and no line of it was the sentinel (the relay
    failed in the middle of the stream, or the connection was closed), no
    error is raised: the typing indicator stays on, no message of the
    assistant is added to the history, and what was received stays in the
    typing bubble, which is the last bubble of the chat. *)
Theorem stream_without_sentinel_keeps_typing :
  forall (nts : jsstring -> jsstring) (s : State) (values : list bytes),
    trim (input s) <> [] ->
    Forall (fun v => count_sentinels
                       (split frame_delimiter (TextDecoder_decode v)) = 0)
           values ->
    let s' := handleSubmit nts (FetchResolves true (Some (map ReadValue values)))
                s in
    isTyping s' = true
    /\ messages s' = messages s ++ [newUserMessage s]
    /\ input s' = []
    /\ chat_container s'
       = map (fun msg => MessageBubble (role msg)
                           (Extractor.renderMessage (content msg)))
             (messages s ++ [newUserMessage s])
         ++ [TypingBubble (Extractor.renderMessage (currentTypingMessage s'))].
Proof.
  intros nts s values Hin Hv s'. subst s'.
  rewrite (@handleSubmit_submits nts _ s Hin).
  pose proof (@try_block_input nts
                (FetchResolves true (Some (map ReadValue values)))
                (submitted s)) as Hi.
  unfold try_block in *. cbn [negb] in *.
  destruct (@read_loop_keeps nts values
              {| ui := submitted s; accumulatedContent := [] |} Hv)
    as (Hs & Hm & Ht).
  destruct (read_loop nts _ (map ReadValue values)) as [st thrown].
  cbn [fst snd ui] in *. subst thrown.
  assert (Ht' : isTyping (ui st) = true) by (rewrite Ht; reflexivity).
  assert (Hm' : messages (ui st) = messages s ++ [newUserMessage s])
    by (rewrite Hm; reflexivity).
  split; [exact Ht'|]. split; [exact Hm'|]. split; [exact Hi|].
  unfold chat_container. now rewrite Ht', Hm'.
Qed.

Lemma stream_without_sentinel_keeps_typing_witness :
  isTyping
    (handleSubmit (fun l => l)
       (FetchResolves true
          (Some (map ReadValue [utf8_encode (Relay.sse_frame (lit "Hi"))])))
       (setInput (lit "hello") Samples.blank_page)) = true.
Proof.
  refine (proj1 (@stream_without_sentinel_keeps_typing
                   (fun l => l) (setInput (lit "hello") Samples.blank_page)
                   [utf8_encode (Relay.sse_frame (lit "Hi"))] _ _)).
  - discriminate.
  - repeat constructor.
Defined.



(** X9. A click on a recommended question does not submit the question.
    [handleSubmit] reads the input as it was when the page was rendered:
    if that input is blank, nothing is sent and the question is only put
    in the input field; if it is not, what is submitted is that input, as
    by [handleSubmit] itself, and the question is dropped. *)
Theorem recommended_question_is_not_submitted :
  forall (nts : jsstring -> jsstring) (question : jsstring)
         (net : fetch_outcome) (s : State),
    (trim (input s) = [] ->
     handleRecommendedQuestion nts question net s = setInput question s
     /\ request_messages s = None)
    /\ (trim (input s) <> [] ->
        handleRecommendedQuestion nts question net s = handleSubmit nts net s
        /\ request_messages s
           = Some (validMessages (messages s ++ [newUserMessage s]))).
Proof.
  intros nts question net s.
  unfold handleRecommendedQuestion, handleSubmit_of, request_messages,
    handleSubmit.
  split; intros H.
  - rewrite H. cbn [str_eqb]. auto.
  - rewrite (str_eqb_neq H). auto.
Qed.

Lemma recommended_question_is_not_submitted_witness :
  handleRecommendedQuestion (fun l => l) (lit "draw a chart")
    (FetchResolves true None) Samples.blank_page
  = setInput (lit "draw a chart") Samples.blank_page.
Proof.
  exact (proj1 (proj1 (@recommended_question_is_not_submitted
                         (fun l => l) (lit "draw a chart")
                         (FetchResolves true None) Samples.blank_page)
                      eq_refl)).
Defined.

(** X10. Within one read, the loop over the lines stops at the sentinel: the
    lines before it are processed, the reply is finalized, and the lines
    that follow the sentinel in the same read are dropped. *)
Theorem lines_after_the_sentinel_are_dropped :
  forall (nts : jsstring -> jsstring) (st : loop_state)
         (before after : list jsstring),
    count_sentinels before = 0 ->
    process_lines nts st (before ++ sentinel_line :: after)
    = finalize (process_lines nts st before).
Proof.
  intros nts st before after. revert st.
  induction before as [|l before IH]; intros st Hc.
  - cbn [app process_lines]. now rewrite process_line_sentinel.
  - apply count_sentinels_cons in Hc as [Hl Hc]. cbn [app process_lines].
    destruct (process_line nts st l) as [st' c] eqn:E.
    destruct (@process_line_keeps nts st st' l c E Hl) as (-> & _ & _).
    now apply IH.
Qed.

Lemma lines_after_the_sentinel_are_dropped_witness :
  accumulatedContent
    (process_lines (fun l => l) Samples.loop_start
       ([content_line (lit "Hi")] ++ sentinel_line :: [content_line (lit "!")]))
  = lit "Hi".
Proof.
  refine (f_equal accumulatedContent
            (@lines_after_the_sentinel_are_dropped
               (fun l => l) Samples.loop_start
               [content_line (lit "Hi")] [content_line (lit "!")] _)).
  reflexivity.
Defined.

Section Growth.

Variable nts : jsstring -> jsstring.

Lemma process_line_grows (st st' : loop_state) (line : jsstring) (c : flow) :
  process_line nts st line = (st', c) ->
  (exists suffix, accumulatedContent st' = accumulatedContent st ++ suffix)
  /\ (st' = st
      \/ currentTypingMessage (ui st') = accumulatedContent st'
      \/ currentTypingMessage (ui st') = []).
Proof.
  unfold process_line.
  destruct (startsWith data_prefix line).
  - destruct (str_eqb (slice_from 6 line) sentinel).
    + intros [= <- _]. split; [exists []; cbn; now rewrite app_nil_r|].
      right; right. reflexivity.
    + destruct (frame_text nts (slice_from 6 line)) as [text|].
      * intros [= <- _]. split; [now exists text|]. right; left. reflexivity.
      * intros [= <- _]. split; [exists []; now rewrite app_nil_r|]. now left.
  - intros [= <- _]. split; [exists []; now rewrite app_nil_r|]. now left.
Qed.

Lemma process_lines_grows (a0 t0 : jsstring) (lines : list jsstring) :
  forall st,
    (exists suffix, accumulatedContent st = a0 ++ suffix) ->
    (currentTypingMessage (ui st) = t0
     \/ currentTypingMessage (ui st) = accumulatedContent st
     \/ currentTypingMessage (ui st) = []) ->
    (exists suffix,
        accumulatedContent (process_lines nts st lines) = a0 ++ suffix)
    /\ (currentTypingMessage (ui (process_lines nts st lines)) = t0
        \/ currentTypingMessage (ui (process_lines nts st lines))
           = accumulatedContent (process_lines nts st lines)
        \/ currentTypingMessage (ui (process_lines nts st lines)) = []).
Proof.
  induction lines as [|l lines IH]; intros st Ha Ht; [auto|].
  cbn [process_lines].
  destruct (process_line nts st l) as [st' c] eqn:E.
  destruct (@process_line_grows st st' l c E) as [[suf Hs] Hc].
  destruct Ha as [suf0 Ha].
  assert (Ha' : exists suffix, accumulatedContent st' = a0 ++ suffix)
    by (exists (suf0 ++ suf); now rewrite Hs, Ha, app_assoc).
  assert (Ht' : currentTypingMessage (ui st') = t0
                \/ currentTypingMessage (ui st') = accumulatedContent st'
                \/ currentTypingMessage (ui st') = [])
    by (destruct Hc as [->|[Hc|Hc]]; auto).
  destruct c; [now apply IH | auto].
Qed.

End Growth.

(** X11. During a submission the accumulator is only appended to: it is never
    reset or shortened, not even by the sentinel.  The typing message on
    the screen is the one the loop started with (as long as no frame was
    received), or the whole accumulator, or empty (after a sentinel). *)
Theorem accumulator_only_grows :
  forall (nts : jsstring -> jsstring) (stream : list read) (st : loop_state),
    let st' := fst (read_loop nts st stream) in
    (exists suffix,
        accumulatedContent st' = accumulatedContent st ++ suffix)
    /\ (currentTypingMessage (ui st') = currentTypingMessage (ui st)
        \/ currentTypingMessage (ui st') = accumulatedContent st'
        \/ currentTypingMessage (ui st') = []).
Proof.
  intros nts stream st. cbv zeta.
  assert (H : forall st0,
             (exists suffix,
                 accumulatedContent st0 = accumulatedContent st ++ suffix) ->
             (currentTypingMessage (ui st0) = currentTypingMessage (ui st)
              \/ currentTypingMessage (ui st0) = accumulatedContent st0
              \/ currentTypingMessage (ui st0) = []) ->
             (exists suffix,
                 accumulatedContent (fst (read_loop nts st0 stream))
                 = accumulatedContent st ++ suffix)
             /\ (currentTypingMessage (ui (fst (read_loop nts st0 stream)))
                 = currentTypingMessage (ui st)
                 \/ currentTypingMessage (ui (fst (read_loop nts st0 stream)))
                    = accumulatedContent (fst (read_loop nts st0 stream))
                 \/ currentTypingMessage (ui (fst (read_loop nts st0 stream)))
                    = [])).
  { induction stream as [|[value|e] stream IH]; intros st0 Ha Ht;
      cbn [read_loop fst]; auto.
    unfold process_chunk.
    destruct (@process_lines_grows nts (accumulatedContent st)
                (currentTypingMessage (ui st))
                (split frame_delimiter (TextDecoder_decode value)) st0 Ha Ht)
      as [Ha' Ht'].
    now apply IH. }
  apply H; [exists []; now rewrite app_nil_r | now left].
Qed.

Section History.

Variable nts : jsstring -> jsstring.

Lemma process_line_extends (st st' : loop_state) (line : jsstring) (c : flow) :
  process_line nts st line = (st', c) ->
  exists tail, messages (ui st') = messages (ui st) ++ tail.
Proof.
  unfold process_line.
  destruct (startsWith data_prefix line);
    [|intros [= <- _]; exists []; now rewrite app_nil_r].
  destruct (str_eqb (slice_from 6 line) sentinel);
    [intros [= <- _]; now eexists|].
  destruct (frame_text nts (slice_from 6 line));
    intros [= <- _]; exists []; now rewrite app_nil_r.
Qed.

Lemma process_lines_extends (lines : list jsstring) : forall st,
  exists tail,
    messages (ui (process_lines nts st lines)) = messages (ui st) ++ tail.
Proof.
  induction lines as [|l lines IH]; intros st;
    [exists []; now rewrite app_nil_r|].
  cbn [process_lines].
  destruct (process_line nts st l) as [st' c] eqn:E.
  destruct (@process_line_extends st st' l c E) as [t1 H1].
  destruct c; [|now exists t1].
  destruct (IH st') as [t2 H2]. exists (t1 ++ t2).
  now rewrite H2, H1, app_assoc.
Qed.

Lemma read_loop_extends (stream : list read) : forall st,
  exists tail,
    messages (ui (fst (read_loop nts st stream))) = messages (ui st) ++ tail.
Proof.
  induction stream as [|[value|e] stream IH]; intros st;
    try (exists []; now rewrite app_nil_r).
  cbn [read_loop]. destruct (IH (process_chunk nts st value)) as [t2 H2].
  destruct (process_lines_extends
              (split frame_delimiter (TextDecoder_decode value)) st)
    as [t1 H1].
  exists (t1 ++ t2). unfold process_chunk in *.
  now rewrite H2, H1, app_assoc.
Qed.

Lemma try_block_extends (net : fetch_outcome) (s1 : State) :
  exists tail, messages (fst (try_block nts net s1)) = messages s1 ++ tail.
Proof.
  unfold try_block. destruct net as [e|[|] [stream|]];
    try (exists []; now rewrite app_nil_r).
  cbn [negb].
  destruct (read_loop_extends stream {| ui := s1; accumulatedContent := [] |})
    as [tail H].
  destruct (read_loop nts _ stream) as [st thrown]. now exists tail.
Qed.




End History.

(** X12. The history is only appended to.  [handleSubmit] removes and changes
    no message; for a non-blank input the first message it appends is the
    message of the user, so the history is not empty any more and the
    recommended questions are not shown again. *)
Theorem history_only_grows :
  forall (nts : jsstring -> jsstring) (net : fetch_outcome) (s : State),
    (exists tail, messages (handleSubmit nts net s) = messages s ++ tail)
    /\ (trim (input s) <> [] ->
        (exists tail,
            messages (handleSubmit nts net s)
            = messages s ++ newUserMessage s :: tail)
        /\ shows_recommended_questions (handleSubmit nts net s) = false).
Proof.
  intros nts net s.
  assert (H : trim (input s) <> [] ->
              exists tail,
                messages (handleSubmit nts net s)
                = messages s ++ newUserMessage s :: tail).
  { intros Hin. rewrite (@handleSubmit_submits nts net s Hin).
    destruct (try_block_extends nts net (submitted s)) as [tail Ht].
    destruct (try_block nts net (submitted s)) as [s2 [e|]];
      cbn [fst] in Ht.
    - exists (tail ++ [assistant_message (lit "错误: " ++ e)]).
      unfold catch_block. cbn [messages appendMessage setIsTyping].
      rewrite Ht. cbn [messages submitted setIsTyping setInput appendMessage].
      now rewrite <- !app_assoc.
    - exists tail. rewrite Ht.
      cbn [messages submitted setIsTyping setInput appendMessage].
      now rewrite <- !app_assoc. }
  split.
  - destruct (str_eqb (trim (input s)) []) eqn:E.
    + exists []. unfold handleSubmit. now rewrite E, app_nil_r.
    + assert (Hin : trim (input s) <> [])
        by (intros Hn; rewrite Hn in E; discriminate E).
      destruct (H Hin) as [tail Ht]. now exists (newUserMessage s :: tail).
  - intros Hin. split; [now apply H|].
    destruct (H Hin) as [tail Ht]. unfold shows_recommended_questions.
    rewrite Ht, length_app. cbn [List.length].
    apply Nat.eqb_neq. lia.
Qed.

Lemma history_only_grows_witness :
  shows_recommended_questions
    (handleSubmit (fun l => l) (FetchResolves true None)
       (setInput (lit "hi") Samples.blank_page)) = false.
Proof.
  refine (proj2 (proj2 (@history_only_grows
                          (fun l => l) (FetchResolves true None)
                          (setInput (lit "hi") Samples.blank_page)) _)).
  discriminate.
Defined.

End ConsumerProperties.

(** ** The body of the request *)

Module RequestProperties.
Import JS StreamConsumer JSFacts JsonFacts Page.

Lemma lex_punctuation (c : N) (tok : token) (r : jsstring) :
  lex_step LexDefault c = Some (LexDefault, [tok]) ->
  lex LexDefault (c :: r)
  = match lex LexDefault r with
    | Some toks => Some (tok :: toks)
    | None => None
    end.
Proof. intros H. cbn [lex]. rewrite H. reflexivity. Qed.

Lemma lex_string_literal (t r : jsstring) :
  code_units t ->
  lex LexDefault (QuoteJSONString t ++ r)
  = match lex LexDefault r with
    | Some toks => Some (TString t :: toks)
    | None => None
    end.
Proof.
  intros Ht. unfold QuoteJSONString. rewrite <- !app_assoc. cbn [app].
  rewrite (@lex_silent LexDefault 34%N (LexString []) _ eq_refl).
  now rewrite lex_quote_units.
Qed.

Lemma role_name_units (r : Role) : code_units (role_name r).
Proof. destruct r; repeat constructor. Qed.

Lemma lex_message (m : Message) (r : jsstring) :
  code_units (content m) ->
  lex LexDefault (stringify_message m ++ r)
  = match lex LexDefault r with
    | Some toks => Some (message_tokens m ++ toks)
    | None => None
    end.
Proof.
  intros Hc. unfold stringify_message. rewrite <- !app_assoc. cbn [app].
  rewrite (@lex_punctuation 123%N TLBrace _ eq_refl).
  rewrite lex_string_literal by repeat constructor. cbn [app].
  rewrite (@lex_punctuation 58%N TColon _ eq_refl).
  rewrite lex_string_literal by apply role_name_units. cbn [app].
  rewrite (@lex_punctuation 44%N TComma _ eq_refl).
  rewrite lex_string_literal by repeat constructor. cbn [app].
  rewrite (@lex_punctuation 58%N TColon _ eq_refl).
  rewrite lex_string_literal by assumption. cbn [app].
  rewrite (@lex_punctuation 125%N TRBrace _ eq_refl).
  destruct (lex LexDefault r); reflexivity.
Qed.

Lemma lex_messages (ms : list Message) (r : jsstring) :
  Forall (fun m => code_units (content m)) ms ->
  lex LexDefault (join_comma (map stringify_message ms) ++ r)
  = match lex LexDefault r with
    | Some toks => Some (messages_tokens ms ++ toks)
    | None => None
    end.
Proof.
  induction 1 as [|m ms Hm Hms IH].
  - cbn. now destruct (lex LexDefault r).
  - cbn [map join_comma messages_tokens]. destruct ms as [|m' ms].
    + cbn [map]. now apply lex_message.
    + cbn [map] in *. rewrite <- !app_assoc. cbn [app].
      rewrite lex_message by assumption.
      rewrite (@lex_punctuation 44%N TComma _ eq_refl), IH.
      destruct (lex LexDefault r); [|reflexivity].
      now rewrite <- !app_assoc.
Qed.

Lemma parse_message (m : Message) (mode : parse_mode)
      (es : list json) (st : list frame) (rest : list token) :
  mode = PValue \/ mode = PValueOrEnd ->
  parse_tokens (mode, FArray es :: st) (message_tokens m ++ rest)
  = parse_tokens (PSep, FArray (message_json m :: es) :: st) rest.
Proof. intros [-> | ->]; reflexivity. Qed.

Lemma parse_messages (ms : list Message) : forall mode es st rest,
  ms <> [] ->
  mode = PValue \/ mode = PValueOrEnd ->
  parse_tokens (mode, FArray es :: st) (messages_tokens ms ++ rest)
  = parse_tokens (PSep, FArray (rev (map message_json ms) ++ es) :: st) rest.
Proof.
  induction ms as [|m ms IH]; intros mode es st rest Hne Hmode;
    [now elim Hne|].
  cbn [messages_tokens]. destruct ms as [|m' ms].
  - now apply parse_message.
  - rewrite <- !app_assoc, (parse_message _ _ _ _ Hmode).
    cbn [app parse_tokens parse_step].
    rewrite IH by (try discriminate; now left).
    cbn [map rev]. now rewrite <- !app_assoc.
Qed.

(** X13. The body of the request parses back to the conversation it was made
    from, whatever characters the messages hold: the [messages] the relay
    reads out of the parsed body are the role and the content of each
    message, in order. *)
Theorem request_body_parses_back :
  forall ms : list Message,
    Forall (fun m => code_units (content m)) ms ->
    exists body,
      JSON_parse (stringify_request ms) = Some body
      /\ get_property body (lit "messages")
         = Relay.body_messages (Relay.post (map message_json ms)).
Proof.
  intros ms Hms.
  exists (JObject [(lit "messages", JArray (map message_json ms))]).
  split; [|reflexivity].
  unfold JSON_parse, stringify_request. cbn [app].
  rewrite (@lex_punctuation 123%N TLBrace _ eq_refl).
  rewrite lex_string_literal by repeat constructor. cbn [app].
  rewrite (@lex_punctuation 58%N TColon _ eq_refl).
  rewrite (@lex_punctuation 91%N TLBracket _ eq_refl).
  rewrite lex_messages by assumption.
  cbn [lex lex_step lex_default is_json_ws N.eqb Pos.eqb orb app lex_eof].
  cbn [parse_tokens parse_step parse_value_token parse_key_token].
  destruct ms as [|m ms].
  - reflexivity.
  - rewrite parse_messages by (try discriminate; now right).
    cbn [parse_tokens parse_step parse_close_array parse_close_object
         push_value].
    now rewrite app_nil_r, rev_involutive.
Qed.

Lemma request_body_parses_back_witness :
  exists body,
    JSON_parse
      (stringify_request
         [{| role := user; content := [34; 10; 0xD83D]%N |};
          {| role := assistant; content := lit "ok" |}])
    = Some body
    /\ get_property body (lit "messages")
       = Some (JArray
                 [message_json {| role := user; content := [34; 10; 0xD83D]%N |};
                  message_json {| role := assistant; content := lit "ok" |}]).
Proof.
  refine (@request_body_parses_back
            [{| role := user; content := [34; 10; 0xD83D]%N |};
             {| role := assistant; content := lit "ok" |}] _).
  repeat constructor.
Defined.

End RequestProperties.

(** ** The client and the relay together *)

Module ExchangeProperties.
Import JS Relay StreamConsumer JSFacts RelayFacts ConsumerFacts Page TrimFacts.
Import ConsumerProperties PipelineFacts.

Lemma filter_all (A : Type) (f : A -> bool) (l : list A) :
  Forall (fun x => f x = true) l -> filter f l = l.
Proof.
  induction 1 as [|x l Hx _ IH]; cbn [filter]; [reflexivity|].
  now rewrite Hx, IH.
Qed.

Lemma valid_message_json (m : Message) :
  valid_message (message_json m) = negb (str_eqb (trim (content m)) []).
Proof. reflexivity. Qed.

(** The messages the client keeps pass the filter of the relay. *)
Lemma validMessages_valid (ms : list Message) :
  Forall (fun x => valid_message x = true)
         (map message_json (validMessages ms)).
Proof.
  unfold validMessages. induction ms as [|m ms IH]; cbn [filter map].
  - constructor.
  - destruct (negb (str_eqb (content m) [])
              && negb (str_eqb (trim (content m)) [])) eqn:E; [|exact IH].
    cbn [map]. constructor; [|exact IH].
    apply andb_true_iff in E as [_ E]. now rewrite valid_message_json.
Qed.


Lemma validMessages_new (s : State) :
  trim (input s) <> [] ->
  validMessages (messages s ++ [newUserMessage s])
  = validMessages (messages s) ++ [newUserMessage s].
Proof.
  intros H. unfold validMessages. rewrite filter_app. f_equal.
  cbn [filter newUserMessage content]. rewrite trim_idem.
  now rewrite (str_eqb_neq H).
Qed.


Section WithProvider.

Variable provider : list json -> completion.

Lemma handler_forwards (msgs : list json) :
  msgs <> [] ->
  Forall (fun x => valid_message x = true) msgs ->
  handler provider (post msgs)
  = [ResWriteHead 200 sse_headers;
     CompletionsCreate model_name (system_message :: msgs) true]
    ++ match provider (system_message :: msgs) with
       | CreateRejects e =>
           [ConsoleError (lit "OpenAI API 错误:");
            ResStatusJson 500 (lit "服务器错误: " ++ e)]
       | CreateResolves chunks failure =>
           map (fun chunk => ResWrite (sse_frame (chunk_content chunk))) chunks
           ++ match failure with
              | None => [ResWrite done_frame; ResEnd]
              | Some e =>
                  [ConsoleError (lit "OpenAI API 错误:");
                   ResStatusJson 500 (lit "服务器错误: " ++ e)]
              end
       end.
Proof.
  intros Hne Hv.
  assert (Hf : filter valid_message msgs = msgs) by now apply filter_all.
  assert (Hv' : filter valid_message msgs <> []) by now rewrite Hf.
  rewrite (@handler_accepts provider (post msgs) msgs eq_refl eq_refl Hv').
  cbv zeta. now rewrite Hf.
Qed.

Lemma provider_calls_forwarded (msgs : list json) :
  msgs <> [] ->
  Forall (fun x => valid_message x = true) msgs ->
  provider_calls (handler provider (post msgs)) = [system_message :: msgs].
Proof.
  intros Hne Hv. rewrite (handler_forwards Hne Hv).
  cbn [app provider_calls]. f_equal.
  destruct (provider _) as [e|chunks [e|]]; cbn [provider_calls];
    rewrite ?provider_calls_app, ?provider_calls_writes; reflexivity.
Qed.

End WithProvider.

Lemma request_forwarded (provider : list json -> completion) (s : State) :
  trim (input s) <> [] ->
  exists msgs,
    request_messages s = Some msgs
    /\ msgs = validMessages (messages s) ++ [newUserMessage s]
    /\ provider_calls (handler provider (post (map message_json msgs)))
       = [system_message :: map message_json msgs].
Proof.
  intros Hin. unfold request_messages.
  rewrite (str_eqb_neq Hin). eexists. split; [reflexivity|].
  split; [exact (@validMessages_new s Hin)|].
  apply provider_calls_forwarded; [|apply validMessages_valid].
  rewrite (@validMessages_new s Hin), map_app. cbn [map].
  intros H. now apply app_eq_nil in H as [_ H].
Qed.

(** X14. The relay never refuses what the client sends.  The request made for a
    non-blank input holds the non-blank messages of the history followed by
    the new message of the user, whose content is the trimmed input; the
    relay drops none of them and calls the provider once, with the system
    instruction followed by these messages. *)
Theorem client_request_is_forwarded_whole :
  forall (provider : list json -> completion) (s : State),
    trim (input s) <> [] ->
    exists msgs,
      request_messages s = Some msgs
      /\ msgs = validMessages (messages s) ++ [newUserMessage s]
      /\ provider_calls (handler provider (post (map message_json msgs)))
         = [system_message :: map message_json msgs].
Proof.
  intros provider s Hin. exact (@request_forwarded provider s Hin).
Qed.

Lemma client_request_is_forwarded_whole_witness :
  exists msgs,
    request_messages (setInput (lit " hi ") Samples.blank_page) = Some msgs
    /\ msgs = [{| role := user; content := lit "hi" |}]
    /\ provider_calls
         (handler (fun _ => CreateRejects [])
                  (post (map message_json msgs)))
       = [system_message :: map message_json msgs].
Proof.
  destruct (@client_request_is_forwarded_whole
              (fun _ => CreateRejects [])
              (setInput (lit " hi ") Samples.blank_page))
    as (msgs & H1 & H2 & H3); [discriminate|].
  exists msgs. split; [exact H1|]. split; [exact H2 | exact H3].
Defined.



(** X16. A whole exchange.  The client submits a non-blank input, the relay
    accepts the request, the provider streams chunks and ends well, and
    each frame the relay writes reaches the client as one read: then
    [handleSubmit] ends with the history extended by the message of the
    user and by one message of the assistant, the concatenation of the
    contents of the chunks, with the input and the typing message empty
    and the typing indicator off. *)
Theorem exchange_delivers_the_reply :
  forall (nts : jsstring -> jsstring) (provider : list json -> completion)
         (s : State) (chunks : list Chunk),
    trim (input s) <> [] ->
    Forall (fun chunk => code_units (chunk_content chunk)) chunks ->
    let msgs := validMessages (messages s ++ [newUserMessage s]) in
    provider (system_message :: map message_json msgs)
    = CreateResolves chunks None ->
    handleSubmit nts
      (FetchResolves true
         (Some (map (fun w => ReadValue (utf8_encode w))
                    (writes (handler provider (post (map message_json msgs)))))))
      s
    = {| input := [];
         messages := messages s
                     ++ [newUserMessage s;
                         assistant_message (concat (map chunk_content chunks))];
         isTyping := false;
         currentTypingMessage := [] |}.
Proof.
  intros nts provider s chunks Hin Hc msgs Hp.
  assert (Hne : map message_json msgs <> []).
  { subst msgs. rewrite (@validMessages_new s Hin), map_app. cbn [map].
    intros H. now apply app_eq_nil in H as [_ H]. }
  rewrite (@handler_forwards provider _ Hne (validMessages_valid _)), Hp.
  cbn [app writes]. rewrite writes_app, writes_map. cbn [writes].
  rewrite map_app, map_map. cbn [map].
  rewrite (@handleSubmit_submits nts _ s Hin). unfold try_block. cbn [negb].
  replace (map (fun x => ReadValue (utf8_encode (sse_frame (chunk_content x))))
               chunks)
    with (map (fun g => ReadValue (utf8_encode (body_text g false)))
              (map (fun chunk => [chunk_content chunk]) chunks)).
  2:{ rewrite map_map. apply map_ext. intros chunk.
      unfold body_text. cbn [map concat]. now rewrite !app_nil_r. }
  change (ReadValue (utf8_encode done_frame))
    with (ReadValue (utf8_encode (body_text [] true))).
  rewrite whole_frames_reads.
  - cbn [ui]. f_equal.
    change (messages (submitted s)) with (messages s ++ [newUserMessage s]).
    rewrite <- app_assoc. cbn [app]. repeat f_equal. rewrite app_nil_r.
    clear. induction chunks as [|c chunks IH]; cbn [map concat app];
      [reflexivity|]. now rewrite IH.
  - clear -Hc. induction Hc; cbn [map]; constructor; auto.
  - constructor.
Qed.

Lemma exchange_delivers_the_reply_witness :
  messages
    (handleSubmit (fun l => l)
       (FetchResolves true
          (Some (map (fun w => ReadValue (utf8_encode w))
                     (writes (handler (fun _ => CreateResolves Samples.provider_chunks None)
                                (post (map message_json
                                         [{| role := user; content := lit "hi" |}])))))))
       (setInput (lit " hi ") Samples.blank_page))
  = [{| role := user; content := lit "hi" |}; assistant_message (lit "Hi!")].
Proof.
  refine (f_equal messages
            (@exchange_delivers_the_reply
               (fun l => l) (fun _ => CreateResolves Samples.provider_chunks None)
               (setInput (lit " hi ") Samples.blank_page)
               Samples.provider_chunks _ _ eq_refl)).
  - discriminate.
  - repeat constructor.
Defined.

(** Frames that arrive one by one, without sentinel. *)
Lemma read_loop_frames (nts : jsstring -> jsstring) (texts : list jsstring) :
  forall st,
    Forall code_units texts ->
    read_loop nts st
      (map (fun w => ReadValue (utf8_encode w)) (map sse_frame texts))
    = (fold_left append_fragment texts st, None).
Proof.
  induction texts as [|t texts IH]; intros st Ht; [reflexivity|].
  inversion Ht as [|? ? H1 H2]; subst. cbn [map read_loop fold_left].
  replace (sse_frame t) with (body_text [t] false)
    by (unfold body_text; cbn [map concat]; now rewrite !app_nil_r).
  rewrite whole_frames_chunk by (constructor; [assumption|constructor]).
  cbn [fold_left]. now apply IH.
Qed.

Lemma fold_append_typing (texts : list jsstring) : forall st,
  currentTypingMessage (ui (fold_left append_fragment texts st))
  = match texts with
    | [] => currentTypingMessage (ui st)
    | _ :: _ => accumulatedContent st ++ concat texts
    end.
Proof.
  induction texts as [|t texts IH]; intros st; [reflexivity|].
  cbn [fold_left concat]. rewrite IH. destruct texts as [|t' texts].
  - cbn. now rewrite app_nil_r.
  - cbn [accumulatedContent append_fragment]. now rewrite <- app_assoc.
Qed.

(** X17. When the provider fails, at the request or in the middle of the
    stream, the client shows no error.  The relay has already sent the
    status 200, so the response is OK; if its body ends after the frames
    written so far, [handleSubmit] returns without error: the typing
    indicator stays on, the history holds the message of the user and no
    message of the assistant, and the text received, if any, stays in the
    typing message. *)
Theorem failing_provider_leaves_the_client_typing :
  forall (nts : jsstring -> jsstring) (provider : list json -> completion)
         (s : State) (chunks : list Chunk) (e : jsstring),
    trim (input s) <> [] ->
    Forall (fun chunk => code_units (chunk_content chunk)) chunks ->
    let msgs := validMessages (messages s ++ [newUserMessage s]) in
    provider (system_message :: map message_json msgs)
    = CreateResolves chunks (Some e)
    \/ (provider (system_message :: map message_json msgs) = CreateRejects e
        /\ chunks = []) ->
    let trace := handler provider (post (map message_json msgs)) in
    let s' := handleSubmit nts
                (FetchResolves true
                   (Some (map (fun w => ReadValue (utf8_encode w))
                              (writes trace))))
                s in
    hd_error trace = Some (ResWriteHead 200 sse_headers)
    /\ isTyping s' = true
    /\ messages s' = messages s ++ [newUserMessage s]
    /\ currentTypingMessage s'
       = match chunks with
         | [] => currentTypingMessage s
         | _ :: _ => concat (map chunk_content chunks)
         end.
Proof.
  intros nts provider s chunks e Hin Hc msgs Hp trace s'.
  assert (Hne : map message_json msgs <> []).
  { subst msgs. rewrite (@validMessages_new s Hin), map_app. cbn [map].
    intros H. now apply app_eq_nil in H as [_ H]. }
  assert (Htrace : hd_error trace = Some (ResWriteHead 200 sse_headers)
                   /\ writes trace = map sse_frame (map chunk_content chunks)).
  { subst trace.
    rewrite (@handler_forwards provider _ Hne (validMessages_valid _)).
    split; [reflexivity|].
    destruct Hp as [Hp|[Hp ->]]; rewrite Hp; cbn [app writes].
    - rewrite writes_app, writes_map. cbn [writes].
      now rewrite app_nil_r, map_map.
    - reflexivity. }
  destruct Htrace as [Hhd Hw]. split; [exact Hhd|].
  subst s'. rewrite Hw, (@handleSubmit_submits nts _ s Hin).
  unfold try_block. cbn [negb].
  assert (Ht : Forall code_units (map chunk_content chunks))
    by (clear -Hc; induction Hc; cbn [map]; constructor; auto).
  rewrite (@read_loop_frames nts (map chunk_content chunks) _ Ht).
  destruct (fold_append_fragment (map chunk_content chunks)
              {| ui := submitted s; accumulatedContent := [] |})
    as (_ & _ & Hm & Hty).
  split; [rewrite Hty; reflexivity|]. split; [rewrite Hm; reflexivity|].
  rewrite fold_append_typing. destruct chunks; reflexivity.
Qed.

Lemma failing_provider_leaves_the_client_typing_witness :
  isTyping
    (handleSubmit (fun l => l)
       (FetchResolves true
          (Some (map (fun w => ReadValue (utf8_encode w))
                     (writes
                        (handler (fun _ => CreateRejects (lit "quota"))
                           (post (map message_json
                                    [{| role := user; content := lit "hi" |}])))))))
       (setInput (lit "hi") Samples.blank_page))
  = true.
Proof.
  refine (proj1 (proj2 (@failing_provider_leaves_the_client_typing
                          (fun l => l) (fun _ => CreateRejects (lit "quota"))
                          (setInput (lit "hi") Samples.blank_page)
                          [] (lit "quota") _ _ _))).
  - discriminate.
  - constructor.
  - right. split; reflexivity.
Defined.

End ExchangeProperties.

(** ** The segments of a content *)

Module ExtractorProperties.
Import JS Extractor Fences JSFacts ExtractorFacts Shapes TrimFacts.

(** A match cuts the content in three. *)
Lemma exec_decompose (content : jsstring) (m : match_result) :
  exec codeBlockRegex 0 content = Some m ->
  content = firstn (index m) content ++ matched m
            ++ skipn (index m + List.length (matched m)) content.
Proof.
  intros Hexec. pose proof (exec_bounds _ _ Hexec) as (_ & _ & Hb).
  unfold exec in Hexec. cbn [Nat.ltb Nat.leb skipn] in Hexec.
  apply exec_scan_inv in Hexec as (k & len & Hk & Hle & Hhere & Hm).
  cbn [Nat.add] in Hk. rewrite Hk in *.
  rewrite <- (firstn_skipn k content) at 1. f_equal.
  rewrite match_here_fence_match in Hhere.
  apply fence_match_bounds in Hhere as [_ Hlen].
  assert (Hl : List.length (matched m) = len)
    by (rewrite Hm, length_firstn; lia).
  rewrite Hl, Hm, Nat.add_comm, <- skipn_skipn.
  now rewrite firstn_skipn.
Qed.

(** One turn of the loop, seen from outside. *)
Lemma renderMessage_step (content : jsstring) (m : match_result) :
  exec codeBlockRegex 0 content = Some m ->
  renderMessage content
  = text_part (firstn (index m) content)
    ++ [CodeBlockRef (language_of m) (code_of m)]
    ++ renderMessage (skipn (index m + List.length (matched m)) content).
Proof.
  intros Hexec. pose proof (exec_bounds _ _ Hexec) as (_ & _ & Hb).
  pose proof (@exec_decompose content m Hexec) as Hc.
  assert (Hpre : List.length (firstn (index m) content) = index m)
    by (rewrite length_firstn; lia).
  destruct m as [idx mt gs]. cbn [index matched groups] in *.
  set (pre := firstn idx content) in *.
  set (post := skipn (idx + List.length mt) content) in *.
  assert (He : exec codeBlockRegex 0 (pre ++ mt ++ post)
               = Some {| index := List.length pre; matched := mt;
                         groups := gs |})
    by (rewrite <- Hc, Hpre; exact Hexec).
  rewrite Hc at 1.
  rewrite (@renderMessage_first_match pre mt post gs He).
  reflexivity.
Qed.

Lemma skipn_shorter (content : jsstring) (m : match_result) :
  exec codeBlockRegex 0 content = Some m ->
  List.length (skipn (index m + List.length (matched m)) content)
  < List.length content.
Proof.
  intros H. apply exec_bounds in H as (_ & H7 & Hb).
  rewrite length_skipn. lia.
Qed.

(** Induction on the content, along the turns of the loop. *)
Lemma render_ind (P : jsstring -> Prop) :
  (forall content, exec codeBlockRegex 0 content = None -> P content) ->
  (forall content m,
      exec codeBlockRegex 0 content = Some m ->
      P (skipn (index m + List.length (matched m)) content) ->
      P content) ->
  forall content, P content.
Proof.
  intros Hnone Hsome content.
  remember (List.length content) as n eqn:Hn.
  revert content Hn. induction n as [n IH] using lt_wf_ind.
  intros content ->.
  destruct (exec codeBlockRegex 0 content) as [m|] eqn:E.
  - apply (Hsome content m E).
    apply (IH _ (@skipn_shorter content m E)). reflexivity.
  - now apply Hnone.
Qed.

Lemma text_part_In (s : jsstring) (x : segment) :
  In x (text_part s) -> x = TextSpan s /\ s <> [].
Proof.
  destruct s; cbn; [contradiction|]. intros [<-|[]]. split; [auto|discriminate].
Qed.

Lemma plaintext_is_word :
  Forall (fun c => is_word c = true) (lit "plaintext").
Proof. repeat constructor. Qed.

(** X18. Every code block the extractor yields comes from a fenced block of the
    content: a fence, a tag of word characters, a line feed, a body and a
    fence.  Its language is the tag, or [plaintext] when the tag is empty,
    so it is never empty and holds word characters only; its content is
    the trimmed body, which trimming again does not change. *)
Theorem code_blocks_come_from_fenced_blocks :
  forall (content language code : jsstring),
    In (CodeBlockRef language code) (renderMessage content) ->
    (exists pre tag body post,
        content = pre ++ (fence ++ tag ++ 10%N :: body ++ fence) ++ post
        /\ Forall (fun c => is_word c = true) tag
        /\ language = match tag with [] => lit "plaintext" | _ :: _ => tag end
        /\ code = trim body)
    /\ language <> []
    /\ Forall (fun c => is_word c = true) language
    /\ trim code = code.
Proof.
  intros content language code.
  induction content as [content Hnone|content m Hexec IH] using render_ind.
  - rewrite (renderMessage_no_match _ Hnone). intros H.
    apply text_part_In in H as [H _]. discriminate H.
  - destruct (renderMessage_unfold _ Hexec) as (tag & body & Hm & Hw & Hr).
    rewrite Hr. intros H.
    apply in_app_or in H as [H|H];
      [apply text_part_In in H as [H _]; discriminate H|].
    cbn [app In] in H. destruct H as [H|H].
    + injection H as <- <-. split; [|split; [|split]].
      * exists (firstn (index m) content), tag, body,
          (skipn (index m + List.length (matched m)) content).
        split; [|auto]. rewrite <- Hm. exact (@exec_decompose content m Hexec).
      * destruct tag; discriminate.
      * destruct tag; [apply plaintext_is_word | exact Hw].
      * apply trim_idem.
    + destruct (IH H) as ((pre & tag' & body' & post & Hc & Hrest) & Hl).
      split; [|exact Hl].
      exists (firstn (index m) content ++ matched m ++ pre), tag', body', post.
      split; [|exact Hrest].
      rewrite (@exec_decompose content m Hexec) at 1. rewrite Hc.
      now rewrite <- !app_assoc.
Qed.

Lemma code_blocks_come_from_fenced_blocks_witness :
  trim (lit "code") = lit "code"
  /\ Forall (fun c => is_word c = true) (lit "js").
Proof.
  destruct (@code_blocks_come_from_fenced_blocks
              Samples.fenced_content (lit "js") (lit "code"))
    as (_ & _ & Hw & Ht).
  - right. left. reflexivity.
  - split; [exact Ht | exact Hw].
Defined.

Lemma separated_block (a language code : jsstring) (rest : list segment) :
  separated (text_part a ++ [CodeBlockRef language code] ++ rest)
  = separated rest.
Proof. destruct a; reflexivity. Qed.

Lemma separated_text_part (a : jsstring) : separated (text_part a) = true.
Proof. destruct a; reflexivity. Qed.

(** X19. The text spans the extractor yields are never empty, each is a piece
    of the content, and no two of them follow each other: between two text
    spans there is a code block. *)
Theorem text_spans_are_pieces_of_the_content :
  forall content : jsstring,
    separated (renderMessage content) = true
    /\ forall raw,
        In (TextSpan raw) (renderMessage content) ->
        raw <> [] /\ exists pre post, content = pre ++ raw ++ post.
Proof.
  intros content.
  induction content as [content Hnone|content m Hexec [IHs IH]]
    using render_ind.
  - rewrite (renderMessage_no_match _ Hnone).
    split; [apply separated_text_part|].
    intros raw H. apply text_part_In in H as [[= ->] Hne].
    split; [exact Hne|]. exists [], []. now rewrite app_nil_r.
  - rewrite (@renderMessage_step content m Hexec).
    split; [now rewrite separated_block|].
    intros raw H. apply in_app_or in H as [H|H].
    + apply text_part_In in H as [[= ->] Hne]. split; [exact Hne|].
      exists [], (skipn (index m) content). cbn [app].
      now rewrite firstn_skipn.
    + cbn [app In] in H. destruct H as [H|H]; [discriminate H|].
      destruct (IH raw H) as (Hne & pre & post & Hc). split; [exact Hne|].
      exists (firstn (index m) content ++ matched m ++ pre), post.
      rewrite (@exec_decompose content m Hexec) at 1. rewrite Hc.
      now rewrite <- !app_assoc.
Qed.

Lemma text_spans_are_pieces_of_the_content_witness :
  lit "before " <> []
  /\ exists pre post, Samples.fenced_content = pre ++ lit "before " ++ post.
Proof.
  refine (proj2 (@text_spans_are_pieces_of_the_content Samples.fenced_content)
                (lit "before ") _).
  left. reflexivity.
Defined.

(** *** More text never changes a block that was found *)

Lemma startsWith_more (p a b : jsstring) :
  startsWith p a = true -> startsWith p (a ++ b) = true.
Proof.
  intros H. apply startsWith_inv in H as [t ->].
  rewrite <- app_assoc. apply startsWith_app.
Qed.

Lemma find_fence_more (s more : jsstring) : forall n,
  find_fence s = Some n -> find_fence (s ++ more) = Some n.
Proof.
  induction s as [|c s IH]; intros n; [discriminate|].
  cbn [app]. rewrite !find_fence_cons.
  destruct (startsWith fence (c :: s)) eqn:E.
  - intros H. change (c :: s ++ more) with ((c :: s) ++ more).
    now rewrite (@startsWith_more fence (c :: s) more E).
  - destruct (find_fence s) as [k|] eqn:Ek; [|discriminate].
    intros H. pose proof (find_fence_bound _ Ek) as Hb.
    change (c :: s ++ more) with ((c :: s) ++ more).
    rewrite startsWith_app_l, E by (cbn [List.length fence]; lia).
    now rewrite (IH k eq_refl).
Qed.

Lemma after_word_run_more (s more : jsstring) :
  after_word_run s <> [] ->
  word_run (s ++ more) = word_run s
  /\ after_word_run (s ++ more) = after_word_run s ++ more.
Proof.
  induction s as [|c s IH]; [now intros H|].
  cbn [app word_run after_word_run]. destruct (is_word c); [|auto].
  intros H. destruct (IH H) as [-> ->]. auto.
Qed.

Lemma fence_at_nil (d : nat) : ~ fence_at d [].
Proof. unfold fence_at. now destruct d. Qed.

Lemma after_word_run_fence (s : jsstring) : forall d,
  fence_at d s -> exists d', fence_at d' (after_word_run s).
Proof.
  induction s as [|c s IH]; intros d H; [now apply fence_at_nil in H|].
  cbn [after_word_run]. destruct (is_word c) eqn:E; [|now exists d].
  destruct d as [|d]; [|exact (IH d H)].
  unfold fence_at in H. cbn [skipn] in H.
  apply startsWith_inv in H as [t H]. injection H as -> _.
  discriminate E.
Qed.

Lemma fence_match_more_some (t more : jsstring) (x : nat * captures) :
  fence_match t = Some x -> fence_match (t ++ more) = Some x.
Proof.
  unfold fence_match. destruct (startsWith fence t) eqn:E; [|discriminate].
  pose proof (startsWith_fence_length _ E) as Hl.
  rewrite (@startsWith_more fence t more E). cbv zeta.
  replace (skipn 3 (t ++ more)) with (skipn 3 t ++ more)
    by (rewrite skipn_app; replace (3 - List.length t) with 0 by lia;
        reflexivity).
  destruct (after_word_run (skipn 3 t)) as [|c s3] eqn:Ea; [discriminate|].
  assert (Hne : after_word_run (skipn 3 t) <> []) by (rewrite Ea; discriminate).
  destruct (@after_word_run_more (skipn 3 t) more Hne) as [-> ->]. rewrite Ea.
  cbn [app]. destruct (c =? 10)%N; [|discriminate].
  destruct (find_fence s3) as [n|] eqn:En; [|discriminate].
  rewrite (@find_fence_more s3 more n En). intros [= <-].
  pose proof (find_fence_bound _ En) as Hb.
  rewrite firstn_app. replace (n - List.length s3) with 0 by lia.
  cbn [firstn]. now rewrite app_nil_r.
Qed.

Lemma fence_match_more_none (t more : jsstring) (d : nat) :
  fence_at d t -> 3 <= d ->
  fence_match t = None -> fence_match (t ++ more) = None.
Proof.
  intros Hd H3. unfold fence_match.
  assert (Hlen : d + 3 <= List.length t).
  { unfold fence_at in Hd. apply startsWith_fence_length in Hd.
    rewrite length_skipn in Hd. lia. }
  rewrite startsWith_app_l by (cbn [List.length fence]; lia).
  destruct (startsWith fence t); [|reflexivity]. cbv zeta.
  replace (skipn 3 (t ++ more)) with (skipn 3 t ++ more)
    by (rewrite skipn_app; replace (3 - List.length t) with 0 by lia;
        reflexivity).
  assert (H1 : fence_at (d - 3) (skipn 3 t)).
  { unfold fence_at in *. rewrite skipn_skipn.
    now replace (d - 3 + 3) with d by lia. }
  destruct (@after_word_run_fence (skipn 3 t) (d - 3) H1) as [d' Hd'].
  destruct (after_word_run (skipn 3 t)) as [|c s3] eqn:Ea;
    [now apply fence_at_nil in Hd'|].
  assert (Hne : after_word_run (skipn 3 t) <> []) by (rewrite Ea; discriminate).
  destruct (@after_word_run_more (skipn 3 t) more Hne) as [-> ->]. rewrite Ea.
  cbn [app]. destruct (N.eqb_spec c 10) as [->|]; [|reflexivity].
  destruct (find_fence s3) as [n|] eqn:En; [discriminate|].
  exfalso. destruct d' as [|d'].
  - unfold fence_at in Hd'. cbn [skipn] in Hd'. discriminate Hd'.
  - unfold fence_at in Hd'. cbn [skipn] in Hd'.
    now rewrite (find_fence_none _ En d') in Hd'.
Qed.

Lemma exec_scan_more (more : jsstring) (s : jsstring) : forall i m,
  exec_scan codeBlockRegex i s = Some m ->
  exec_scan codeBlockRegex i (s ++ more) = Some m.
Proof.
  induction s as [|c s IH]; intros i m.
  - cbn [exec_scan]. rewrite match_here_fence_match. discriminate.
  - intros H. pose proof H as H0. revert H.
    cbn [app]. cbn [exec_scan]. rewrite !match_here_fence_match.
    change (c :: s ++ more) with ((c :: s) ++ more).
    destruct (fence_match (c :: s)) as [[len caps]|] eqn:E.
    + rewrite (@fence_match_more_some (c :: s) more (len, caps) E).
      apply fence_match_bounds in E as [_ Hlen]. intros [= <-].
      rewrite firstn_app.
      replace (len - List.length (c :: s)) with 0 by lia.
      cbn [firstn]. now rewrite app_nil_r.
    + intros H. rewrite (IH _ _ H).
      apply exec_scan_inv in H as (k & len & Hk & Hle & Hhere & Hm).
      rewrite match_here_fence_match in Hhere.
      pose proof (@fence_match_bounds _ _ _ Hhere) as [H7 _].
      apply fence_match_inv in Hhere
        as (tag & body & rest & Ht & Hlen & _ & _).
      rewrite (@fence_match_more_none (c :: s) more
                 (S (k + (len - 3)))); [reflexivity| |lia|exact E].
      unfold fence_at. cbn [skipn].
      rewrite Nat.add_comm, <- skipn_skipn, Ht.
      replace ((fence ++ tag ++ 10%N :: body ++ fence) ++ rest)
        with ((fence ++ tag ++ 10%N :: body) ++ fence ++ rest)
        by (now rewrite <- !app_assoc; cbn [app]; rewrite <- !app_assoc).
      assert (Hl : len - 3 = List.length (fence ++ tag ++ 10%N :: body)).
      { rewrite Hlen. rewrite !length_app. cbn [List.length].
        rewrite !length_app. cbn [List.length fence]. lia. }
      rewrite Hl, skipn_app, Nat.sub_diag, skipn_all. cbn [app skipn].
      apply startsWith_app.
Qed.

Lemma exec_more (content more : jsstring) (m : match_result) :
  exec codeBlockRegex 0 content = Some m ->
  exec codeBlockRegex 0 (content ++ more) = Some m.
Proof.
  unfold exec. cbn [Nat.ltb Nat.leb skipn]. apply exec_scan_more.
Qed.

Lemma settled_block (a language code : jsstring) (rest : list segment) :
  settled (text_part a ++ [CodeBlockRef language code] ++ rest)
  = text_part a ++ [CodeBlockRef language code] ++ settled rest.
Proof. destruct a; reflexivity. Qed.

Lemma settled_text_part (a : jsstring) : settled (text_part a) = [].
Proof. destruct a; reflexivity. Qed.

Lemma settled_keeps_blocks (l : list segment) (language code : jsstring) :
  In (CodeBlockRef language code) l ->
  In (CodeBlockRef language code) (settled l).
Proof.
  induction l as [|x l IH]; [auto|]. intros [->|H].
  - cbn [settled]. now left.
  - cbn [settled]. destruct x as [raw|l0 c0]; [|right; auto].
    destruct l; [contradiction|]. right. auto.
Qed.

Lemma render_more (content more : jsstring) :
  exists rest,
    renderMessage (content ++ more) = settled (renderMessage content) ++ rest.
Proof.
  induction content as [content Hnone|content m Hexec [rest IH]]
    using render_ind.
  - rewrite (renderMessage_no_match _ Hnone), settled_text_part.
    now exists (renderMessage (content ++ more)).
  - pose proof (exec_bounds _ _ Hexec) as (_ & _ & Hb).
    rewrite (@renderMessage_step content m Hexec).
    rewrite (@renderMessage_step (content ++ more) m
               (@exec_more content more m Hexec)).
    rewrite settled_block. exists rest.
    rewrite firstn_app, skipn_app.
    replace (index m - List.length content) with 0 by lia.
    replace (index m + List.length (matched m) - List.length content)
      with 0 by lia.
    cbn [firstn skipn]. rewrite app_nil_r, IH.
    now rewrite <- !app_assoc.
Qed.

Lemma blocks_persist (content more language code : jsstring) :
  In (CodeBlockRef language code) (renderMessage content) ->
  In (CodeBlockRef language code) (renderMessage (content ++ more)).
Proof.
  intros Hin. destruct (render_more content more) as [rest ->].
  apply in_or_app. left. now apply settled_keeps_blocks.
Qed.

(** X20. While the reply streams in, the content only grows.  Whatever text is
    added, the segments already yielded stay as they are, but for a last
    text span: a code block that was shown is shown again, with the same
    language and content, at the same place. *)
Theorem streaming_keeps_the_segments :
  forall content more : jsstring,
    (exists rest,
        renderMessage (content ++ more)
        = settled (renderMessage content) ++ rest)
    /\ forall language code,
        In (CodeBlockRef language code) (renderMessage content) ->
        In (CodeBlockRef language code) (renderMessage (content ++ more)).
Proof.
  intros content more. split; [apply render_more|].
  intros language code. apply blocks_persist.
Qed.

Lemma streaming_keeps_the_segments_witness :
  In (CodeBlockRef (lit "js") (lit "code"))
     (renderMessage (Samples.fenced_content ++ lit " and ```")).
Proof.
  refine (proj2 (@streaming_keeps_the_segments
                   Samples.fenced_content (lit " and ```"))
                (lit "js") (lit "code") _).
  right. left. reflexivity.
Defined.

End ExtractorProperties.

(** ** The typing bubble while the reply streams *)

Module StreamingProperties.
Import JS StreamConsumer Extractor JSFacts ConsumerFacts Page.
Import ConsumerProperties ExtractorProperties.



End StreamingProperties.

(** ** The keys of the elements *)

Module ElementProperties.
Import JS Extractor Fences JSFacts ExtractorFacts Shapes.

Lemma sorted_snoc (l : list nat) (k : nat) :
  StronglySorted lt l -> Forall (fun x => x < k) l ->
  StronglySorted lt (l ++ [k]).
Proof.
  induction 1 as [|a l Hs IH Ha]; intros Hk; cbn [app].
  - repeat constructor.
  - inversion Hk; subst. constructor; [auto|].
    apply Forall_app. split; [assumption|]. repeat constructor. assumption.
Qed.

Lemma sorted_NoDup (l : list nat) : StronglySorted lt l -> NoDup l.
Proof.
  induction 1 as [|a l Hs IH Ha]; constructor; [|assumption].
  intros Hin. rewrite Forall_forall in Ha. specialize (Ha _ Hin). lia.
Qed.

(** The loop with keys runs as the loop without them. *)
Lemma render_loop_erase (content : jsstring) : forall fuel a b parts,
  let (li, ps) := Elements.render_loop fuel content a b parts in
  render_loop fuel content a b (map Elements.segment_of parts)
  = (li, map Elements.segment_of ps).
Proof.
  induction fuel as [|fuel IH]; intros a b parts; [reflexivity|].
  cbn [Elements.render_loop render_loop].
  destruct (exec codeBlockRegex a content) as [m|]; [|reflexivity].
  cbv zeta.
  specialize (IH (index m + List.length (matched m))
                 (index m + List.length (matched m))
                 ((if (b <? index m)%nat
                   then parts ++ [Elements.ReactMarkdown b
                                    (slice b (index m) content)]
                   else parts)
                  ++ [Elements.CodeBlockPreview (index m)
                        (SidePanel.preview_label (language_of m))
                        (code_of m) (language_of m)])).
  destruct (Elements.render_loop fuel content _ _ _) as [li ps].
  rewrite <- IH. f_equal.
  rewrite map_app. cbn [map Elements.segment_of]. f_equal.
  destruct (b <? index m)%nat; [|reflexivity].
  now rewrite map_app.
Qed.

(** The keys pushed so far are increasing and below [lastIndex]. *)
Lemma render_loop_keys (content : jsstring) : forall fuel a parts,
  a <= List.length content ->
  StronglySorted lt (map Elements.key_of parts) ->
  Forall (fun k => k < a) (map Elements.key_of parts) ->
  let (li, ps) := Elements.render_loop fuel content a a parts in
  li <= List.length content
  /\ StronglySorted lt (map Elements.key_of ps)
  /\ Forall (fun k => k < li) (map Elements.key_of ps).
Proof.
  induction fuel as [|fuel IH]; intros a parts Ha Hs Hk;
    [cbn [Elements.render_loop]; auto|].
  cbn [Elements.render_loop].
  destruct (exec codeBlockRegex a content) as [m|] eqn:E; [|now auto].
  cbv zeta. apply exec_bounds in E as (Hi & H7 & Hb).
  apply IH; [lia| |].
  - rewrite map_app. cbn [map Elements.key_of]. apply sorted_snoc.
    + destruct (Nat.ltb_spec a (index m)); [|exact Hs].
      rewrite map_app. cbn [map Elements.key_of]. now apply sorted_snoc.
    + destruct (Nat.ltb_spec a (index m)).
      * rewrite map_app. apply Forall_app. split.
        -- eapply Forall_impl; [|exact Hk]. cbn beta. intros; lia.
        -- repeat constructor. assumption.
      * eapply Forall_impl; [|exact Hk]. cbn beta. intros; lia.
  - rewrite map_app. apply Forall_app. split.
    + destruct (Nat.ltb_spec a (index m)).
      * rewrite map_app. apply Forall_app. split.
        -- eapply Forall_impl; [|exact Hk]. cbn beta. intros; lia.
        -- repeat constructor. cbn [Elements.key_of]. lia.
      * eapply Forall_impl; [|exact Hk]. cbn beta. intros; lia.
    + repeat constructor. cbn [Elements.key_of]. lia.
Qed.

(** X22. The elements [renderMessage] returns are the segments of the
    extractor, each with a key, and their keys are increasing: an element
    has the offset in the content of the text or of the block it shows as
    its key, so no two elements of a message have the same key. *)
Theorem element_keys_are_increasing :
  forall content : jsstring,
    map Elements.segment_of (Elements.renderMessage content)
    = renderMessage content
    /\ StronglySorted lt (map Elements.key_of (Elements.renderMessage content))
    /\ NoDup (map Elements.key_of (Elements.renderMessage content))
    /\ Forall (fun k => k < List.length content)
              (map Elements.key_of (Elements.renderMessage content)).
Proof.
  intros content. unfold Elements.renderMessage, renderMessage.
  pose proof (render_loop_erase content (S (List.length content)) 0 0 []) as He.
  pose proof (@render_loop_keys content (S (List.length content)) 0 []
                (Nat.le_0_l _) (SSorted_nil lt) (Forall_nil _)) as Hk.
  destruct (Elements.render_loop (S (List.length content)) content 0 0 [])
    as [li ps].
  cbn [map] in He. rewrite He. destruct Hk as (Hli & Hs & Hlt).
  assert (Hsorted :
            StronglySorted lt
              (map Elements.key_of
                 (if (li <? List.length content)%nat
                  then ps ++ [Elements.ReactMarkdown li (slice_from li content)]
                  else ps))).
  { destruct (li <? List.length content)%nat; [|exact Hs].
    rewrite map_app. now apply sorted_snoc. }
  split; [|split; [exact Hsorted|split; [now apply sorted_NoDup|]]].
  - destruct (li <? List.length content)%nat; [|reflexivity].
    now rewrite map_app.
  - destruct (Nat.ltb_spec li (List.length content)).
    + rewrite map_app. apply Forall_app. split.
      * eapply Forall_impl; [|exact Hlt]. cbn beta. intros; lia.
      * repeat constructor. assumption.
    + eapply Forall_impl; [|exact Hlt]. cbn beta. intros; lia.
Qed.

(** A match found from [lastIndex] on, in the content. *)
Lemma exec_located (content : jsstring) (a : nat) (m : match_result) :
  exec codeBlockRegex a content = Some m ->
  exists tag body rest,
    skipn (index m) content = (fence ++ tag ++ 10%N :: body ++ fence) ++ rest
    /\ Forall (fun c => is_word c = true) tag
    /\ language_of m = match tag with [] => lit "plaintext" | _ :: _ => tag end
    /\ code_of m = trim body.
Proof.
  unfold exec. destruct (List.length content <? a)%nat; [discriminate|].
  intros H. apply exec_scan_inv in H as (k & len & Hk & Hle & Hhere & Hm).
  rewrite match_here_fence_match, skipn_skipn in Hhere.
  apply fence_match_inv in Hhere as (tag & body & rest & Ht & Hlen & Hcaps & Hw).
  exists tag, body, rest.
  split; [now rewrite Hk, Nat.add_comm|]. split; [exact Hw|].
  unfold language_of, code_of. rewrite Hcaps. cbn [capture Nat.eqb].
  split; [now destruct tag | reflexivity].
Qed.

Lemma slice_located (content : jsstring) (b idx : nat) :
  b < idx -> idx <= List.length content ->
  slice b idx content <> []
  /\ firstn (List.length (slice b idx content)) (skipn b content)
     = slice b idx content.
Proof.
  intros Hlt Hle. unfold slice.
  assert (Hl : List.length (firstn (idx - b) (skipn b content)) = idx - b)
    by (rewrite length_firstn, length_skipn; lia).
  split; [|now rewrite Hl].
  intros E. rewrite E in Hl. cbn [List.length] in Hl. lia.
Qed.

Lemma render_loop_located (content : jsstring) : forall fuel a b parts,
  Forall (located content) parts ->
  Forall (located content) (snd (Elements.render_loop fuel content a b parts)).
Proof.
  induction fuel as [|fuel IH]; intros a b parts Hp; [exact Hp|].
  cbn [Elements.render_loop].
  destruct (exec codeBlockRegex a content) as [m|] eqn:E; [|exact Hp].
  cbv zeta. apply IH. apply Forall_app. split.
  - destruct (Nat.ltb_spec b (index m)) as [Hlt|_]; [|exact Hp].
    apply Forall_app. split; [exact Hp|]. repeat constructor.
    + apply slice_located; [exact Hlt|].
      apply exec_bounds in E as (_ & _ & Hb). lia.
    + apply slice_located; [exact Hlt|].
      apply exec_bounds in E as (_ & _ & Hb). lia.
  - repeat constructor. cbn [located].
    destruct (@exec_located content a m E) as (tag & body & rest & H1 & H2 & H3 & H4).
    exists tag, body, rest. auto.
Qed.

(** X23. Each element of a message is found in the content at its key.  The
    text of a markdown element is not empty and is the text of the
    content at the offset that is its key; at the key of a preview the
    content holds a fenced block, whose tag gives the language ([plaintext]
    when empty), whose trimmed body is the content handed to the click
    handler, and whose language gives the label. *)
Theorem elements_are_located_by_their_keys :
  forall content : jsstring,
    Forall (located content) (Elements.renderMessage content).
Proof.
  intros content. unfold Elements.renderMessage.
  pose proof (@render_loop_located content (S (List.length content)) 0 0 []
                (Forall_nil _)) as H.
  destruct (Elements.render_loop (S (List.length content)) content 0 0 [])
    as [li ps].
  cbn [snd] in H.
  destruct (Nat.ltb_spec li (List.length content)) as [Hlt|_]; [|exact H].
  apply Forall_app. split; [exact H|]. repeat constructor.
  - unfold slice_from. intros E. apply (f_equal (@List.length N)) in E.
    rewrite length_skipn in E. cbn [List.length] in E. lia.
  - unfold slice_from. apply firstn_all.
Qed.

End ElementProperties.

(** ** The side panel *)

Module PanelProperties.
Import JS JSFacts SidePanel.

Lemma not_both (language : jsstring) :
  str_eqb language (lit "mermaid") && str_eqb language (lit "html") = false.
Proof.
  destruct (str_eqb language (lit "mermaid")) eqn:E; [|reflexivity].
  apply str_eqb_eq in E. now subst.
Qed.

Lemma act_consistent (p : PanelState) (a : action) :
  consistent p -> consistent (act p a).
Proof.
  intros [H1 H2]. destruct a as [c l| | |v]; split; cbn; auto.
  - apply not_both.
  - discriminate.
Qed.

Lemma run_consistent (actions : list action) : forall p,
  consistent p -> consistent (fold_left act actions p).
Proof.
  induction actions as [|a actions IH]; intros p H; [exact H|].
  cbn [fold_left]. apply IH. now apply act_consistent.
Qed.

(** X24. Whatever the user does (clicks on code blocks, closes the panel,
    selects tabs), the panel is never both a diagram and an HTML panel; a
    closed panel holds no content; and an open panel shows either the
    source alone, without tabs, or the tabs with the source and a
    rendering that is the diagram or the HTML of the same content: the
    empty rendering of the source code is never reached. *)
Theorem panel_is_consistent :
  forall actions : list action,
    let p := fold_left act actions initial in
    isMermaid (sidePanel p) && isHtml (sidePanel p) = false
    /\ match side_panel p with
       | None => sidePanel p = closed
       | Some v =>
           match body v with
           | SourceOnly code =>
               tab_list v = None /\ code = content (sidePanel p)
           | Tabbed value rendered source =>
               tab_list v = Some value
               /\ value = activeTab p
               /\ source = content (sidePanel p)
               /\ (rendered = MermaidRenderer source
                   \/ rendered = SafeHtml source)
           end
       end.
Proof.
  intros actions p.
  assert (H : consistent p).
  { apply run_consistent. split; [reflexivity|]. reflexivity. }
  destruct H as [H1 H2]. split; [exact H1|].
  unfold side_panel. cbv zeta.
  destruct (isOpen (sidePanel p)); [|now apply H2].
  cbn [body tab_list].
  destruct (isMermaid (sidePanel p)); cbn [orb]; [auto 6|].
  destruct (isHtml (sidePanel p)); auto 6.
Qed.

(** X25. A click on a code block opens the panel on the rendered tab, whatever
    the panel showed before.  The language decides what is shown, by an
    exact comparison: [mermaid] gives the diagram of the content and
    [html] its markup, each with the source in a second tab; any other
    language, [plaintext] among them, gives the source alone, without
    tabs.  The label of the preview names the same kind. *)
Theorem click_opens_by_language :
  forall (code language : jsstring) (p : PanelState),
    let p' := handleCodeBlockClick code language p in
    activeTab p' = lit "rendered"
    /\ ((language = lit "mermaid"
         /\ side_panel p'
            = Some {| tab_list := Some (lit "rendered");
                      body := Tabbed (lit "rendered") (MermaidRenderer code)
                                     code |}
         /\ preview_label language = lit "点击查看图表 (mermaid)")
        \/ (language = lit "html"
            /\ side_panel p'
               = Some {| tab_list := Some (lit "rendered");
                         body := Tabbed (lit "rendered") (SafeHtml code)
                                        code |}
            /\ preview_label language = lit "点击查看HTML (html)")
        \/ (language <> lit "mermaid" /\ language <> lit "html"
            /\ side_panel p'
               = Some {| tab_list := None; body := SourceOnly code |}
            /\ preview_label language
               = lit "点击查看代码 (" ++ language ++ lit ")")).
Proof.
  intros code language p p'. split; [reflexivity|].
  subst p'. unfold side_panel, handleCodeBlockClick, preview_label.
  cbn [sidePanel isOpen isMermaid isHtml content activeTab].
  destruct (str_eqb language (lit "mermaid")) eqn:Em.
  - left. apply str_eqb_eq in Em. subst. repeat split.
  - destruct (str_eqb language (lit "html")) eqn:Eh.
    + right; left. apply str_eqb_eq in Eh. subst. repeat split.
    + right; right. split; [|split; [|split]]; try reflexivity.
      * intros ->. discriminate Em.
      * intros ->. discriminate Eh.
Qed.

End PanelProperties.

(** ** The side panel of the earlier page *)

Module TogglePanelProperties.
Import JS JSFacts TogglePanel.

Lemma flags_exclusive (language : jsstring) :
  str_eqb language (lit "mermaid") && str_eqb language (lit "html") = false.
Proof.
  destruct (str_eqb language (lit "mermaid")) eqn:E; [|reflexivity].
  apply str_eqb_eq in E. now subst.
Qed.

Lemma toggle_act_consistent (p : PanelState) (a : action) :
  consistent p -> consistent (act p a).
Proof.
  intros [H1 H2]. destruct a as [c l| |]; split; cbn; auto.
  - apply flags_exclusive.
  - discriminate.
Qed.

Lemma toggle_run_consistent (actions : list action) : forall p,
  consistent p -> consistent (fold_left act actions p).
Proof.
  induction actions as [|a actions IH]; intros p H; [exact H|].
  cbn [fold_left]. apply IH. now apply toggle_act_consistent.
Qed.

(** X26. In the earlier page the panel has a toggle button.  A click on a code
    block always opens the rendered view.  Whatever was done before, an
    open panel for a language that is neither [mermaid] nor [html] shows
    the source, has no button, and the toggle changes nothing in it; an
    open panel for [mermaid] or [html] shows the rendering or the source,
    its button names the other view, and the toggle switches to that
    view. *)
Theorem toggle_switches_the_view :
  forall (actions : list action),
    let p := fold_left act actions initial in
    (forall code language,
        showMermaidSource (handleCodeBlockClick code language p) = false)
    /\ match side_panel p with
       | None => sidePanel p = SidePanel.closed
       | Some v =>
           let code := SidePanel.content (sidePanel p) in
           match toggle_button v with
           | None =>
               body v = Source code
               /\ side_panel (toggleMermaidView p) = side_panel p
           | Some label =>
               exists rendering,
                 (rendering = MermaidRenderer code
                  \/ rendering = SafeHtml code)
                 /\ ((showMermaidSource p = false
                      /\ label = lit "查看源码"
                      /\ body v = rendering
                      /\ side_panel (toggleMermaidView p)
                         = Some {| toggle_button := Some (lit "查看渲染结果");
                                   body := Source code |})
                     \/ (showMermaidSource p = true
                         /\ label = lit "查看渲染结果"
                         /\ body v = Source code
                         /\ side_panel (toggleMermaidView p)
                            = Some {| toggle_button := Some (lit "查看源码");
                                      body := rendering |}))
           end
       end.
Proof.
  intros actions p. split; [reflexivity|].
  assert (H : consistent p).
  { apply toggle_run_consistent. split; reflexivity. }
  destruct H as [H1 H2]. unfold side_panel, toggleMermaidView. cbv zeta.
  cbn [sidePanel showMermaidSource].
  destruct (SidePanel.isOpen (sidePanel p)); [|now apply H2].
  cbn [toggle_button body].
  destruct (SidePanel.isMermaid (sidePanel p)) eqn:Em;
    destruct (SidePanel.isHtml (sidePanel p)) eqn:Eh;
    try discriminate H1; cbn [orb andb].
  - exists (MermaidRenderer (SidePanel.content (sidePanel p))).
    split; [now left|].
    destruct (showMermaidSource p); cbn [negb]; [right|left]; auto.
  - exists (SafeHtml (SidePanel.content (sidePanel p))).
    split; [now right|].
    destruct (showMermaidSource p); cbn [negb]; [right|left]; auto.
  - destruct (showMermaidSource p); cbn [negb]; auto.
Qed.

End TogglePanelProperties.
